(** * The slash-command script parser of TimelessTavern

    A shallow embedding of [SlashCommandParser] (file
    [public/scripts/slash-commands/SlashCommandParser.js]): the scanner
    ([take], [discardWhitespace], [testSymbol]), the value parsers, the
    statement parsers and the closure parser, together with the span
    indexes they fill in.

    The JavaScript objects the parser allocates and then mutates through
    several references (scopes, closures, executors) live in explicit
    stores inside the parser state; a reference is a position in its
    store.  A method that can throw returns an [Outcome].  Characters are
    the code units of the script text; the development covers code units
    below 256. *)

From Stdlib Require Import ZArith List String Ascii Bool Lia.
From Stdlib Require Import FunctionalExtensionality.
Import ListNotations.

Local Open Scope string_scope.
Local Open Scope Z_scope.

(* ===================================================================== *)
(** ** JavaScript string primitives *)
(* ===================================================================== *)

Module Js.

Definition len (s : string) : Z := Z.of_nat (String.length s).

Fixpoint drop (n : nat) (s : string) : string :=
  match n, s with
  | O, _ => s
  | S n', String _ r => drop n' r
  | S _, EmptyString => EmptyString
  end.

Fixpoint keep (n : nat) (s : string) : string :=
  match n, s with
  | O, _ => EmptyString
  | S n', String c r => String c (keep n' r)
  | S _, EmptyString => EmptyString
  end.

(** Position named by a relative index, as [String.prototype.slice]
    resolves it: negative indexes count from the end. *)
Definition relIndex (s : string) (i : Z) : nat :=
  if i <? 0 then Z.to_nat (Z.max (len s + i) 0)
  else Z.to_nat (Z.min i (len s)).

(** [s.slice(i)] *)
Definition sliceFrom (s : string) (i : Z) : string := drop (relIndex s i) s.

(** [s.slice(a, b)] *)
Definition slice (s : string) (a b : Z) : string :=
  keep (relIndex s b - relIndex s a) (drop (relIndex s a) s).

(** [s[i]]; [None] is [undefined]. *)
Definition charAt (s : string) (i : Z) : option ascii :=
  if i <? 0 then None else String.get (Z.to_nat i) s.

(** [s.startsWith(pre)] *)
Definition startsWith (s pre : string) : bool := String.prefix pre s.

(** The class [\s], on code units below 256. *)
Definition isSpace (c : ascii) : bool :=
  let n := N_of_ascii c in
  ((9 <=? n) && (n <=? 13) || (n =? 32) || (n =? 160))%N.

(** The class [\w]. *)
Definition isWord (c : ascii) : bool :=
  let n := N_of_ascii c in
  ((48 <=? n) && (n <=? 57) || (65 <=? n) && (n <=? 90)
   || (97 <=? n) && (n <=? 122) || (n =? 95))%N.

(** [/\s/.test(c)] where [c] may be [undefined]: the text "undefined"
    holds no white space. *)
Definition testSpace (c : option ascii) : bool :=
  match c with Some a => isSpace a | None => false end.

(** [/\w/.test(c)]: "undefined" does hold word characters. *)
Definition testWord (c : option ascii) : bool :=
  match c with Some a => isWord a | None => true end.

Fixpoint allSpace (s : string) : bool :=
  match s with
  | EmptyString => true
  | String c r => isSpace c && allSpace r
  end.

(** [/^\s+$/.test(s)] *)
Definition onlySpaces (s : string) : bool :=
  match s with EmptyString => false | _ => allSpace s end.

Fixpoint trimStart (s : string) : string :=
  match s with
  | String c r => if isSpace c then trimStart r else s
  | EmptyString => EmptyString
  end.

Fixpoint trimEnd (s : string) : string :=
  match s with
  | String c r => if allSpace s then EmptyString else String c (trimEnd r)
  | EmptyString => EmptyString
  end.

Definition trim (s : string) : string := trimEnd (trimStart s).

(** Number of white-space characters that end [s]. *)
Fixpoint trailingSpaces (s : string) : nat :=
  match s with
  | EmptyString => O
  | String c r => if allSpace s then String.length s else trailingSpaces r
  end.

Definition lowerChar (c : ascii) : ascii :=
  let n := N_of_ascii c in
  if ((65 <=? n) && (n <=? 90))%N then ascii_of_N (n + 32) else c.

Fixpoint toLowerCase (s : string) : string :=
  match s with
  | EmptyString => EmptyString
  | String c r => String (lowerChar c) (toLowerCase r)
  end.

(** [s += c] where [c] may be [undefined]. *)
Definition appendChar (s : string) (c : option ascii) : string :=
  match c with
  | Some a => s ++ String a EmptyString
  | None => s ++ "undefined"
  end.

(** Number of backslashes that begin [s]: what the scanner obtains by
    replacing [s] with its leading run of backslashes and taking the
    length. *)
Fixpoint leadingBackslashes (s : string) : Z :=
  match s with
  | String c r => if Ascii.eqb c "\" then 1 + leadingBackslashes r else 0
  | EmptyString => 0
  end.

(** The double quote, as a one-character string. *)
Definition quote : string := String "034"%char EmptyString.

End Js.

(* ===================================================================== *)
(** ** Data model *)
(* ===================================================================== *)

(** A value held by an argument or pushed as a variable name: a string,
    a reference to a closure, or [undefined] while nothing was assigned. *)
Inductive Value : Type :=
| VUndefined
| VString (s : string)
| VClosure (ref : nat).

(** [PARSER_FLAG]: the two toggles. *)
Record ParserFlags : Type := mkFlags {
  STRICT_ESCAPING : bool;
  REPLACE_GETVAR : bool
}.

(** Modelled from the spec: what the registry tells the parser about a
    registered command (class [SlashCommand], not part of the sources):
    its number of declared unnamed arguments, whether unnamed arguments
    are split, the optional cap on the number of splits and the
    raw-quote flag. *)
Record SlashCommand : Type := mkCommand {
  unnamedArgumentListLength : nat;
  splitUnnamedArgument : bool;
  splitUnnamedArgumentCount : option nat;
  rawQuotes : bool
}.

(** Modelled from the spec: an argument assignment is a
    (name?, value, start, end) tuple; an offset the parser has not set
    yet is [None]. *)
Module Named.
Record t : Type := mk {
  start : option Z;
  end_ : option Z;
  name : string;
  value : Value
}.
End Named.

Module Unnamed.
Record t : Type := mk {
  start : option Z;
  end_ : option Z;
  value : Value
}.
Definition fresh : t := mk None None VUndefined.
Definition setStart (x : Z) (a : t) : t := mk (Some x) (end_ a) (value a).
Definition setEnd (x : Z) (a : t) : t := mk (start a) (Some x) (value a).
Definition setValue (v : Value) (a : t) : t := mk (start a) (end_ a) v.
End Unnamed.

(** The three classes of executor the parser instantiates. *)
Inductive ExecutorClass : Type := PlainExecutor | BreakPoint | Break.

(** Modelled from the spec: an executor (class [SlashCommandExecutor],
    not part of the sources).  The constructor receives the start offset
    only; the name starts empty and both argument lists start empty, as
    the parser appends to them at once.  [injectPipe] and [parserFlags]
    are [None] until the parser assigns them. *)
Module Exec.
Record t : Type := mk {
  class : ExecutorClass;
  injectPipe : option bool;
  start : option Z;
  end_ : option Z;
  startNamedArgs : option Z;
  endNamedArgs : option Z;
  startUnnamedArgs : option Z;
  endUnnamedArgs : option Z;
  name : string;
  command : option SlashCommand;
  namedArgumentList : list Named.t;
  unnamedArgumentList : list Unnamed.t;
  parserFlags : option ParserFlags
}.
Definition new (c : ExecutorClass) (st : option Z) : t :=
  mk c None st None None None None None EmptyString None [] [] None.
Definition setInjectPipe (x : bool) (e : t) : t :=
  mk (class e) (Some x) (start e) (end_ e) (startNamedArgs e) (endNamedArgs e)
     (startUnnamedArgs e) (endUnnamedArgs e) (name e) (command e)
     (namedArgumentList e) (unnamedArgumentList e) (parserFlags e).
Definition setStart (x : Z) (e : t) : t :=
  mk (class e) (injectPipe e) (Some x) (end_ e) (startNamedArgs e)
     (endNamedArgs e) (startUnnamedArgs e) (endUnnamedArgs e) (name e)
     (command e) (namedArgumentList e) (unnamedArgumentList e) (parserFlags e).
Definition setEnd (x : Z) (e : t) : t :=
  mk (class e) (injectPipe e) (start e) (Some x) (startNamedArgs e)
     (endNamedArgs e) (startUnnamedArgs e) (endUnnamedArgs e) (name e)
     (command e) (namedArgumentList e) (unnamedArgumentList e) (parserFlags e).
Definition setStartNamedArgs (x : Z) (e : t) : t :=
  mk (class e) (injectPipe e) (start e) (end_ e) (Some x) (endNamedArgs e)
     (startUnnamedArgs e) (endUnnamedArgs e) (name e) (command e)
     (namedArgumentList e) (unnamedArgumentList e) (parserFlags e).
Definition setEndNamedArgs (x : Z) (e : t) : t :=
  mk (class e) (injectPipe e) (start e) (end_ e) (startNamedArgs e) (Some x)
     (startUnnamedArgs e) (endUnnamedArgs e) (name e) (command e)
     (namedArgumentList e) (unnamedArgumentList e) (parserFlags e).
Definition setStartUnnamedArgs (x : Z) (e : t) : t :=
  mk (class e) (injectPipe e) (start e) (end_ e) (startNamedArgs e)
     (endNamedArgs e) (Some x) (endUnnamedArgs e) (name e) (command e)
     (namedArgumentList e) (unnamedArgumentList e) (parserFlags e).
Definition setEndUnnamedArgs (x : Z) (e : t) : t :=
  mk (class e) (injectPipe e) (start e) (end_ e) (startNamedArgs e)
     (endNamedArgs e) (startUnnamedArgs e) (Some x) (name e) (command e)
     (namedArgumentList e) (unnamedArgumentList e) (parserFlags e).
Definition setName (x : string) (e : t) : t :=
  mk (class e) (injectPipe e) (start e) (end_ e) (startNamedArgs e)
     (endNamedArgs e) (startUnnamedArgs e) (endUnnamedArgs e) x (command e)
     (namedArgumentList e) (unnamedArgumentList e) (parserFlags e).
Definition setCommand (x : option SlashCommand) (e : t) : t :=
  mk (class e) (injectPipe e) (start e) (end_ e) (startNamedArgs e)
     (endNamedArgs e) (startUnnamedArgs e) (endUnnamedArgs e) (name e) x
     (namedArgumentList e) (unnamedArgumentList e) (parserFlags e).
Definition setNamedArgumentList (x : list Named.t) (e : t) : t :=
  mk (class e) (injectPipe e) (start e) (end_ e) (startNamedArgs e)
     (endNamedArgs e) (startUnnamedArgs e) (endUnnamedArgs e) (name e)
     (command e) x (unnamedArgumentList e) (parserFlags e).
Definition setUnnamedArgumentList (x : list Unnamed.t) (e : t) : t :=
  mk (class e) (injectPipe e) (start e) (end_ e) (startNamedArgs e)
     (endNamedArgs e) (startUnnamedArgs e) (endUnnamedArgs e) (name e)
     (command e) (namedArgumentList e) x (parserFlags e).
Definition setParserFlags (x : ParserFlags) (e : t) : t :=
  mk (class e) (injectPipe e) (start e) (end_ e) (startNamedArgs e)
     (endNamedArgs e) (startUnnamedArgs e) (endUnnamedArgs e) (name e)
     (command e) (namedArgumentList e) (unnamedArgumentList e) (Some x).
End Exec.

(** Modelled from the spec: a scope (class [SlashCommandScope], not part
    of the sources) is an ordered collection of declared names plus a
    link to one parent scope, or none for the root. *)
Module Scope.
Record t : Type := mk {
  variableNames : list Value;
  parent : option nat
}.
Definition new (par : option nat) : t := mk [] par.
Definition push (v : Value) (s : t) : t :=
  mk (variableNames s ++ [v])%list (parent s).
(** [getCopy()]: a shallow copy of the names and of the parent link. *)
Definition getCopy (s : t) : t := mk (variableNames s) (parent s).
End Scope.

(** Modelled from the spec: a closure (class [SlashCommandClosure], not
    part of the sources) owns its parameter declarations, its executors,
    its own scope (a child of the scope given to the constructor), the
    raw text it covers and the immediate-invocation mark. *)
Module Closure.
Record t : Type := mk {
  scope : nat;
  argumentList : list Named.t;
  executorList : list nat;
  rawText : option string;
  executeNow : bool;
  parserContext : option string;
  fullText : option string;
  debugController : bool
}.
Definition new (sc : nat) : t := mk sc [] [] None false None None false.
Definition init (ctx full : string) (dbg : bool) (c : t) : t :=
  mk (scope c) (argumentList c) (executorList c) (rawText c) (executeNow c)
     (Some ctx) (Some full) dbg.
Definition pushArgument (a : Named.t) (c : t) : t :=
  mk (scope c) (argumentList c ++ [a])%list (executorList c) (rawText c)
     (executeNow c) (parserContext c) (fullText c) (debugController c).
Definition pushExecutor (e : nat) (c : t) : t :=
  mk (scope c) (argumentList c) (executorList c ++ [e])%list (rawText c)
     (executeNow c) (parserContext c) (fullText c) (debugController c).
Definition setRawText (s : string) (c : t) : t :=
  mk (scope c) (argumentList c) (executorList c) (Some s) (executeNow c)
     (parserContext c) (fullText c) (debugController c).
Definition setExecuteNow (b : bool) (c : t) : t :=
  mk (scope c) (argumentList c) (executorList c) (rawText c) b
     (parserContext c) (fullText c) (debugController c).
End Closure.

(** An entry of the closure-span index. *)
Module Span.
Record t : Type := mk { start : Z; end_ : option Z }.
Definition setEnd (x : Z) (s : t) : t := mk (start s) (Some x).
End Span.

(** An entry of the macro index. *)
Module MacroSpan.
Record t : Type := mk { start : Z; end_ : Z; name : string }.
End MacroSpan.

(** The parser instance.  [scopes], [closures] and [executors] are the
    stores of the objects allocated so far; [uuidCount] counts the
    identifiers drawn from the generator. *)
Record Parser : Type := mkParser {
  verifyCommandNames : bool;
  text : string;
  index : Z;
  debugController : bool;
  scope : option nat;
  closure : option nat;
  flags : ParserFlags;
  jumpedEscapeSequence : bool;
  closureIndex : list Span.t;
  macroIndex : list MacroSpan.t;
  commandIndex : list nat;
  scopeIndex : list Scope.t;
  parserContext : string;
  scopes : list Scope.t;
  closures : list Closure.t;
  executors : list Exec.t;
  uuidCount : nat
}.

(** Field updates of the parser instance. *)
Definition setVerifyCommandNames (x : bool) (p : Parser) : Parser :=
  mkParser x (text p) (index p) (debugController p) (scope p) (closure p)
    (flags p) (jumpedEscapeSequence p) (closureIndex p) (macroIndex p)
    (commandIndex p) (scopeIndex p) (parserContext p) (scopes p) (closures
    p) (executors p) (uuidCount p).
Definition setText (x : string) (p : Parser) : Parser :=
  mkParser (verifyCommandNames p) x (index p) (debugController p) (scope p)
    (closure p) (flags p) (jumpedEscapeSequence p) (closureIndex p)
    (macroIndex p) (commandIndex p) (scopeIndex p) (parserContext p) (scopes
    p) (closures p) (executors p) (uuidCount p).
Definition setIndex (x : Z) (p : Parser) : Parser :=
  mkParser (verifyCommandNames p) (text p) x (debugController p) (scope p)
    (closure p) (flags p) (jumpedEscapeSequence p) (closureIndex p)
    (macroIndex p) (commandIndex p) (scopeIndex p) (parserContext p) (scopes
    p) (closures p) (executors p) (uuidCount p).
Definition setDebugController (x : bool) (p : Parser) : Parser :=
  mkParser (verifyCommandNames p) (text p) (index p) x (scope p) (closure p)
    (flags p) (jumpedEscapeSequence p) (closureIndex p) (macroIndex p)
    (commandIndex p) (scopeIndex p) (parserContext p) (scopes p) (closures
    p) (executors p) (uuidCount p).
Definition setScope (x : option nat) (p : Parser) : Parser :=
  mkParser (verifyCommandNames p) (text p) (index p) (debugController p) x
    (closure p) (flags p) (jumpedEscapeSequence p) (closureIndex p)
    (macroIndex p) (commandIndex p) (scopeIndex p) (parserContext p) (scopes
    p) (closures p) (executors p) (uuidCount p).
Definition setClosure (x : option nat) (p : Parser) : Parser :=
  mkParser (verifyCommandNames p) (text p) (index p) (debugController p)
    (scope p) x (flags p) (jumpedEscapeSequence p) (closureIndex p)
    (macroIndex p) (commandIndex p) (scopeIndex p) (parserContext p) (scopes
    p) (closures p) (executors p) (uuidCount p).
Definition setFlags (x : ParserFlags) (p : Parser) : Parser :=
  mkParser (verifyCommandNames p) (text p) (index p) (debugController p)
    (scope p) (closure p) x (jumpedEscapeSequence p) (closureIndex p)
    (macroIndex p) (commandIndex p) (scopeIndex p) (parserContext p) (scopes
    p) (closures p) (executors p) (uuidCount p).
Definition setJumpedEscapeSequence (x : bool) (p : Parser) : Parser :=
  mkParser (verifyCommandNames p) (text p) (index p) (debugController p)
    (scope p) (closure p) (flags p) x (closureIndex p) (macroIndex p)
    (commandIndex p) (scopeIndex p) (parserContext p) (scopes p) (closures
    p) (executors p) (uuidCount p).
Definition setClosureIndex (x : list Span.t) (p : Parser) : Parser :=
  mkParser (verifyCommandNames p) (text p) (index p) (debugController p)
    (scope p) (closure p) (flags p) (jumpedEscapeSequence p) x (macroIndex
    p) (commandIndex p) (scopeIndex p) (parserContext p) (scopes p)
    (closures p) (executors p) (uuidCount p).
Definition setMacroIndex (x : list MacroSpan.t) (p : Parser) : Parser :=
  mkParser (verifyCommandNames p) (text p) (index p) (debugController p)
    (scope p) (closure p) (flags p) (jumpedEscapeSequence p) (closureIndex
    p) x (commandIndex p) (scopeIndex p) (parserContext p) (scopes p)
    (closures p) (executors p) (uuidCount p).
Definition setCommandIndex (x : list nat) (p : Parser) : Parser :=
  mkParser (verifyCommandNames p) (text p) (index p) (debugController p)
    (scope p) (closure p) (flags p) (jumpedEscapeSequence p) (closureIndex
    p) (macroIndex p) x (scopeIndex p) (parserContext p) (scopes p)
    (closures p) (executors p) (uuidCount p).
Definition setScopeIndex (x : list Scope.t) (p : Parser) : Parser :=
  mkParser (verifyCommandNames p) (text p) (index p) (debugController p)
    (scope p) (closure p) (flags p) (jumpedEscapeSequence p) (closureIndex
    p) (macroIndex p) (commandIndex p) x (parserContext p) (scopes p)
    (closures p) (executors p) (uuidCount p).
Definition setParserContext (x : string) (p : Parser) : Parser :=
  mkParser (verifyCommandNames p) (text p) (index p) (debugController p)
    (scope p) (closure p) (flags p) (jumpedEscapeSequence p) (closureIndex
    p) (macroIndex p) (commandIndex p) (scopeIndex p) x (scopes p) (closures
    p) (executors p) (uuidCount p).
Definition setScopes (x : list Scope.t) (p : Parser) : Parser :=
  mkParser (verifyCommandNames p) (text p) (index p) (debugController p)
    (scope p) (closure p) (flags p) (jumpedEscapeSequence p) (closureIndex
    p) (macroIndex p) (commandIndex p) (scopeIndex p) (parserContext p) x
    (closures p) (executors p) (uuidCount p).
Definition setClosures (x : list Closure.t) (p : Parser) : Parser :=
  mkParser (verifyCommandNames p) (text p) (index p) (debugController p)
    (scope p) (closure p) (flags p) (jumpedEscapeSequence p) (closureIndex
    p) (macroIndex p) (commandIndex p) (scopeIndex p) (parserContext p)
    (scopes p) x (executors p) (uuidCount p).
Definition setExecutors (x : list Exec.t) (p : Parser) : Parser :=
  mkParser (verifyCommandNames p) (text p) (index p) (debugController p)
    (scope p) (closure p) (flags p) (jumpedEscapeSequence p) (closureIndex
    p) (macroIndex p) (commandIndex p) (scopeIndex p) (parserContext p)
    (scopes p) (closures p) x (uuidCount p).
Definition setUuidCount (x : nat) (p : Parser) : Parser :=
  mkParser (verifyCommandNames p) (text p) (index p) (debugController p)
    (scope p) (closure p) (flags p) (jumpedEscapeSequence p) (closureIndex
    p) (macroIndex p) (commandIndex p) (scopeIndex p) (parserContext p)
    (scopes p) (closures p) (executors p) x.

(* ===================================================================== *)
(** ** What the parser takes from its surroundings *)
(* ===================================================================== *)

(** The collaborators that are not part of the sources enter as
    parameters: the command registry ([SlashCommandParser.commands]), the
    identifier generator [uuidv4] (its [n]-th draw), the ambient
    configuration ([power_user]), the boolean readers of [utils.js], the
    text a closure converts to, and the identifier [parseMacroContext]
    extracts from the content of a macro. *)
Record Env : Type := mkEnv {
  commands : string -> option SlashCommand;
  uuidv4 : nat -> string;
  experimental_macro_engine : bool;
  defaultFlags : option bool * option bool;
  isTrueBoolean : string -> bool;
  isFalseBoolean : Value -> bool;
  closureToString : string;
  macroIdentifier : string -> string
}.

(** The error classes of [SlashCommandParserError], by the message the
    parser builds. *)
Inductive ErrorKind : Type :=
| UnknownCommand          (* "Unknown command at position" *)
| UnclosedClosure         (* "Unclosed closure at position" *)
| UnclosedComment         (* "Unclosed comment at position" *)
| UnclosedBlockComment    (* "Unclosed block comment at position" *)
| UnterminatedQuote       (* "Unexpected end of quoted value at position" *)
| UnterminatedList        (* "Unexpected end of list value at position" *)
| UnexpectedArgumentEnd   (* "Unexpected end of unnamed argument at index" *)
| UnexpectedCommandEnd.   (* "Unexpected end of command at position" *)

(** What a method can throw: a parser error with the offset handed to its
    constructor, or the [TypeError] of reading a property of [undefined]
    or [null]. *)
Inductive Thrown : Type :=
| ParserError (kind : ErrorKind) (offset : option Z)
| TypeError.

(** The result of running a method on a parser instance.  [OutOfFuel]
    is not a result of the program: it marks a run the given fuel did
    not cover. *)
Inductive Outcome (A : Type) : Type :=
| Ok (a : A) (p : Parser)
| Throw (e : Thrown)
| OutOfFuel.
Arguments Ok {A} a p.
Arguments Throw {A} e.
Arguments OutOfFuel {A}.

Definition M (A : Type) : Type := Parser -> Outcome A.

Definition ret {A} (a : A) : M A := fun p => Ok a p.

Definition bind {A B} (m : M A) (k : A -> M B) : M B :=
  fun p =>
    match m p with
    | Ok a p' => k a p'
    | Throw e => Throw e
    | OutOfFuel => OutOfFuel
    end.

Definition gets {A} (f : Parser -> A) : M A := fun p => Ok (f p) p.
Definition modify (f : Parser -> Parser) : M unit := fun p => Ok tt (f p).
Definition throw {A} (e : Thrown) : M A := fun _ => Throw e.
Definition outOfFuel {A} : M A := fun _ => OutOfFuel.

Declare Scope parser_scope.
Delimit Scope parser_scope with parser.
Notation "x <- m ;; k" := (bind m (fun x => k))
  (at level 61, m at next level, right associativity) : parser_scope.
Notation "m ;; k" := (bind m (fun _ => k))
  (at level 61, right associativity) : parser_scope.
Local Open Scope parser_scope.

(** [while (cond) body], the loop variables threaded through [a]. *)
Fixpoint while {A} (fuel : nat) (cond : A -> M bool) (body : A -> M A)
    (a : A) : M A :=
  match fuel with
  | O => outOfFuel
  | S n =>
      c <- cond a ;;
      if c then (a' <- body a ;; while n cond body a') else ret a
  end.

(* ===================================================================== *)
(** ** The stores *)
(* ===================================================================== *)

Fixpoint updNth {A} (n : nat) (f : A -> A) (l : list A) : list A :=
  match l, n with
  | [], _ => []
  | x :: r, O => f x :: r
  | x :: r, S n' => x :: updNth n' f r
  end.

(** Reading through a reference.  A reference always points into its
    store; a null reference throws. *)
Definition deref {A} (store : Parser -> list A) (r : option nat) : M A :=
  fun p =>
    match r with
    | None => Throw TypeError
    | Some n =>
        match nth_error (store p) n with
        | Some x => Ok x p
        | None => Throw TypeError
        end
    end.

Definition newScope (par : option nat) : M nat :=
  fun p => Ok (List.length (scopes p))
              (setScopes (scopes p ++ [Scope.new par])%list p).

(** [new SlashCommandClosure(parent)]: the closure and its own scope. *)
Definition newClosure (par : option nat) : M nat :=
  sc <- newScope par ;;
  (fun p => Ok (List.length (closures p))
               (setClosures (closures p ++ [Closure.new sc])%list p)).

Definition newExecutor (c : ExecutorClass) (st : option Z) : M nat :=
  fun p => Ok (List.length (executors p))
              (setExecutors (executors p ++ [Exec.new c st])%list p).

Definition modifyScope (r : nat) (f : Scope.t -> Scope.t) : M unit :=
  modify (fun p => setScopes (updNth r f (scopes p)) p).
Definition modifyClosure (r : nat) (f : Closure.t -> Closure.t) : M unit :=
  modify (fun p => setClosures (updNth r f (closures p)) p).
Definition modifyExec (r : nat) (f : Exec.t -> Exec.t) : M unit :=
  modify (fun p => setExecutors (updNth r f (executors p)) p).

(** What [parseClosure] attaches to a new closure: the parse context,
    the full text and the debug controller of the instance. *)
Definition initClosure (r : nat) : M unit :=
  modify (fun p =>
    setClosures
      (updNth r (Closure.init (parserContext p) (text p) (debugController p))
         (closures p)) p).

Definition getExec (r : nat) : M Exec.t := deref executors (Some r).

(** [closure.scope], as a reference. *)
Definition getClosureScope (r : nat) : M nat :=
  c <- deref closures (Some r) ;; ret (Closure.scope c).

(** [scope.parent], as a reference. *)
Definition getScopeParent (r : option nat) : M (option nat) :=
  s <- deref scopes r ;; ret (Scope.parent s).

(** [this.scope.variableNames.push(v)] *)
Definition pushVariableName (v : Value) : M unit :=
  cur <- gets scope ;;
  _ <- deref scopes cur ;;
  match cur with
  | Some r => modifyScope r (Scope.push v)
  | None => throw TypeError
  end.

(** [this.commandIndex.push(cmd)] *)
Definition pushCommandIndex (cmd : nat) : M unit :=
  modify (fun p => setCommandIndex (commandIndex p ++ [cmd])%list p).

(** [this.scopeIndex.push(this.scope.getCopy())] *)
Definition pushScopeIndex : M unit :=
  cur <- gets scope ;;
  s <- deref scopes cur ;;
  modify (fun p => setScopeIndex (scopeIndex p ++ [Scope.getCopy s])%list p).

(** [this.closure.executorList.push(e)] *)
Definition pushToCurrentClosure (e : nat) : M unit :=
  cur <- gets closure ;;
  _ <- deref closures cur ;;
  match cur with
  | Some r => modifyClosure r (Closure.pushExecutor e)
  | None => throw TypeError
  end.

(** The identifier generator. *)
Definition drawUuid (env : Env) : M string :=
  fun p => Ok (uuidv4 env (uuidCount p)) (setUuidCount (S (uuidCount p)) p).

(** String conversion of a value, as [toString()] and string
    concatenation perform it on the values the parser holds. *)
Definition valueToString (env : Env) (v : Value) : string :=
  match v with
  | VUndefined => "undefined"
  | VString s => s
  | VClosure _ => closureToString env
  end.

(** [v.toString()]: throws on [undefined]. *)
Definition toStringOf (env : Env) (v : Value) : M string :=
  match v with
  | VUndefined => throw TypeError
  | _ => ret (valueToString env v)
  end.

(* ===================================================================== *)
(** ** Scanner *)
(* ===================================================================== *)

Definition char (p : Parser) : option ascii := Js.charAt (text p) (index p).
Definition ahead (p : Parser) : string := Js.sliceFrom (text p) (index p + 1).
Definition behind (p : Parser) : string := Js.slice (text p) 0 (index p).

(** [this.index >= this.text.length] *)
Definition atEnd (p : Parser) : bool := Js.len (text p) <=? index p.

(** [this.ahead.length < 1] *)
Definition nothingAhead (p : Parser) : bool := Js.len (ahead p) <? 1.

(** [/\s/.test(this.char)] and [/\w/.test(this.char)] *)
Definition spaceHere (p : Parser) : bool := Js.testSpace (char p).
Definition wordHere (p : Parser) : bool := Js.testWord (char p).

Definition endOfText (p : Parser) : bool :=
  atEnd p || (spaceHere p && Js.onlySpaces (ahead p)).

Definition strict (p : Parser) : bool := STRICT_ESCAPING (flags p).

(** One round of [take]: clear the escape mark, read the current
    character, advance. *)
Definition take1 : M (option ascii) :=
  fun p => Ok (char p)
              (setIndex (index p + 1) (setJumpedEscapeSequence false p)).

(** [take(length)]: returns the last character taken. *)
Fixpoint take (length : nat) : M (option ascii) :=
  match length with
  | S ((S _) as n) => _ <- take1 ;; take n
  | _ => take1
  end.

(** [discardWhitespace()].  Every round advances the cursor, so the loop
    is over after at most one round per character of the text. *)
Definition discardWhitespace : M unit :=
  len <- gets (fun p => S (String.length (text p))) ;;
  _ <- while len (fun _ => gets spaceHere)
         (fun _ => _ <- take 1 ;;
                   modify (setJumpedEscapeSequence false)) tt ;;
  ret tt.

(** The symbols [testSymbol] is called with: a literal sequence, or one
    of the four regular expressions (anchored at the start by
    [testSymbol]). *)
Inductive Symbol : Type :=
| Lit (s : string)
| ReBreakPoint     (* /\/breakpoint\s*\|/ *)
| ReBreak          (* /\/break(\s|\||$)/ *)
| ReComment        (* /\/[/#]/ *)
| ReSpace.         (* /\s/ *)

Definition isPipe (c : ascii) : bool := Ascii.eqb c "|".

Definition matches (sym : Symbol) (t : string) : bool :=
  match sym with
  | Lit s => Js.startsWith t s
  | ReBreakPoint =>
      Js.startsWith t "/breakpoint"
      && match Js.trimStart (Js.drop 11 t) with
         | String c _ => isPipe c
         | EmptyString => false
         end
  | ReBreak =>
      Js.startsWith t "/break"
      && match Js.drop 6 t with
         | String c _ => Js.isSpace c || isPipe c
         | EmptyString => true
         end
  | ReComment =>
      match t with
      | String a (String b _) =>
          Ascii.eqb a "/" && (Ascii.eqb b "/" || Ascii.eqb b "#")
      | _ => false
      end
  | ReSpace =>
      match t with
      | String c _ => Js.isSpace c
      | EmptyString => false
      end
  end.

(** The common end of both modes of [testSymbol], once the number of
    escaping backslashes is known. *)
Definition testEscaped (sequence : Symbol) (offset escapeOffset escapes : Z)
    : M bool :=
  fun p =>
    if matches sequence
         (Js.sliceFrom (text p) (index p + offset + escapeOffset + escapes))
    then
      if escapes =? 0 then Ok true p
      else if negb (jumpedEscapeSequence p) && (offset =? 0)
      then Ok false (setJumpedEscapeSequence true (setIndex (index p + 1) p))
      else Ok false p
    else Ok false p.

Definition escapeOffset (p : Parser) : Z :=
  if jumpedEscapeSequence p then -1 else 0.

Definition testSymbolLooseyGoosey (sequence : Symbol) (offset : Z) : M bool :=
  fun p =>
    let escapes :=
      match Js.charAt (text p) (index p + offset + escapeOffset p) with
      | Some c => if Ascii.eqb c "\" then 1 else 0
      | None => 0
      end in
    testEscaped sequence offset (escapeOffset p) escapes p.

Definition testSymbol (sequence : Symbol) (offset : Z) : M bool :=
  fun p =>
    if negb (strict p)
    then testSymbolLooseyGoosey sequence offset p
    else
      let escapes :=
        Js.leadingBackslashes
          (Js.sliceFrom (text p) (index p + offset + escapeOffset p)) in
      testEscaped sequence offset (escapeOffset p) escapes p.

(* ===================================================================== *)
(** ** Macro index and legacy rewrite *)
(* ===================================================================== *)

Definition isAt (t : string) (i : Z) (c : ascii) : bool :=
  match Js.charAt t i with
  | Some a => Ascii.eqb a c
  | None => false
  end.

Definition opensAt (t : string) (i : Z) : bool :=
  isAt t i "{" && isAt t (i + 1) "{".
Definition closesAt (t : string) (i : Z) : bool :=
  isAt t i "}" && isAt t (i + 1) "}".

(** The inner loop of [indexMacros] that looks for the end of the macro
    opened last, counting nested braces.  Returns the cursor and the end
    found.  Each round advances the cursor. *)
Fixpoint findMacroEnd (fuel : nat) (t : string) (i depth macroEnd : Z)
    : Z * Z :=
  match fuel with
  | O => (i, macroEnd)
  | S n =>
      if (i <? Js.len t - 1) && (0 <? depth) then
        if opensAt t i then findMacroEnd n t (i + 2) (depth + 1) macroEnd
        else if closesAt t i then
          findMacroEnd n t (i + 2) (depth - 1)
            (if depth - 1 =? 0 then i + 2 else macroEnd)
        else findMacroEnd n t (i + 1) depth macroEnd
      else (i, macroEnd)
  end.

(** The loop that looks for a macro nested in the content. *)
Fixpoint findNested (fuel : nat) (t : string) (i contentEnd : Z) : Z :=
  match fuel with
  | O => i
  | S n =>
      if i <? contentEnd then
        if isAt t i "{" && (i + 1 <? Js.len t) && isAt t (i + 1) "{" then i
        else findNested n t (i + 1) contentEnd
      else i
  end.

Fixpoint indexMacrosFrom (fuel : nat) (env : Env) (offset : Z) (t : string)
    (i : Z) : list MacroSpan.t :=
  match fuel with
  | O => []
  | S n =>
      if i <? Js.len t - 1 then
        if opensAt t i then
          let macroStart := i in
          let macroEnd :=
            snd (findMacroEnd (S (String.length t)) t (i + 2) 1 (Js.len t)) in
          let contentEnd :=
            if macroEnd =? Js.len t then macroEnd else macroEnd - 2 in
          let macroContent := Js.slice t (macroStart + 2) contentEnd in
          let entry :=
            MacroSpan.mk (offset + macroStart) (offset + macroEnd)
              (macroIdentifier env macroContent) in
          let j := findNested (S (String.length t)) t (macroStart + 2)
                     contentEnd in
          entry :: indexMacrosFrom n env offset t
                     (if contentEnd <=? j then macroEnd else j)
        else indexMacrosFrom n env offset t (i + 1)
      else []
  end.

(** [indexMacros(offset, text)] *)
Definition indexMacros (env : Env) (offset : Z) (t : string) : M unit :=
  modify (fun p =>
    setMacroIndex
      (macroIndex p ++ indexMacrosFrom (S (String.length t)) env offset t 0)%list
      p).

(** Matching without regard to case against a lower-case pattern. *)
Fixpoint stripPrefixCI (pre s : string) : option string :=
  match pre with
  | EmptyString => Some s
  | String a pre' =>
      match s with
      | String b s' =>
          if Ascii.eqb (Js.lowerChar b) a then stripPrefixCI pre' s' else None
      | EmptyString => None
      end
  end.

(** The longest run of characters other than a closing brace. *)
Fixpoint spanNotBrace (s : string) : string * string :=
  match s with
  | String c r =>
      if Ascii.eqb c "}" then (EmptyString, s)
      else let (a, b) := spanNotBrace r in (String c a, b)
  | EmptyString => (EmptyString, EmptyString)
  end.

(** Does the legacy getter pattern, [{{getvar::name}}] or
    [{{getglobalvar::name}}] in any letter case, match at the start of
    [s]?  Returns the getter as written, the name as written and the
    length of the match. *)
Definition matchGetvar (s : string) : option (string * string * nat) :=
  let tail (cmdLen : nat) (r : string) :=
    match stripPrefixCI "var::" r with
    | Some r' =>
        let (nm, rest) := spanNotBrace r' in
        if negb (String.length nm =? 0)%nat && Js.startsWith rest "}}"
        then Some (Js.keep cmdLen (Js.drop 2 s), nm,
                   (2 + cmdLen + 2 + String.length nm + 2)%nat)
        else None
    | None => None
    end in
  match stripPrefixCI "{{get" s with
  | Some r1 =>
      match match stripPrefixCI "global" r1 with
            | Some r2 => tail 12%nat r2
            | None => None
            end with
      | Some m => Some m
      | None => tail 6%nat r1
      end
  | None => None
  end.

Section Rewrite.
Variable env : Env.

(** [new SlashCommandExecutor(startIdx)] filled in by the rewrite and
    appended to the current closure. *)
Definition pushSynthetic (startIdx endIdx : Z) (name : string)
    (args : list string) : M unit :=
  e <- newExecutor PlainExecutor (Some startIdx) ;;
  modifyExec e (Exec.setEnd endIdx) ;;
  modifyExec e (Exec.setCommand (commands env name)) ;;
  modifyExec e (Exec.setName name) ;;
  modifyExec e (Exec.setUnnamedArgumentList
    (map (fun s => Unnamed.setValue (VString s) Unnamed.fresh) args)) ;;
  pushToCurrentClosure e.

(** The replacement callback of [replaceGetvar], for a match of length
    [mlen] at [idx] in the value. *)
Definition rewriteGetvar (valueLen : Z) (cmd name : string) (idx : Z)
    (mlen : nat) : M string :=
  let name := Js.trim name in
  let cmd := Js.toLowerCase cmd in
  i <- gets index ;;
  let startIdx := i - valueLen + idx in
  let endIdx := i - valueLen + idx + Z.of_nat mlen in
  u1 <- drawUuid env ;;
  let pipeName := "_PARSER_PIPE_" ++ u1 in
  pushSynthetic startIdx endIdx "let" [pipeName; "{{pipe}}"] ;;
  pushSynthetic startIdx endIdx cmd [name] ;;
  u2 <- drawUuid env ;;
  let varName := "_PARSER_VAR_" ++ u2 in
  pushSynthetic startIdx endIdx "let" [varName; "{{pipe}}"] ;;
  pushSynthetic startIdx endIdx "return" ["{{var::" ++ pipeName ++ "}}"] ;;
  ret ("{{var::" ++ varName ++ "}}").

(** The global replacement: scan the value from left to right; after a
    match, resume behind it ([skip] counts the characters of the match
    still to pass over). *)
Fixpoint replaceGetvarFrom (valueLen : Z) (s : string) (skip : nat) (idx : Z)
    : M string :=
  match s with
  | EmptyString => ret EmptyString
  | String c r =>
      match skip with
      | S k => replaceGetvarFrom valueLen r k (idx + 1)
      | O =>
          match matchGetvar s with
          | Some (cmd, name, mlen) =>
              repl <- rewriteGetvar valueLen cmd name idx mlen ;;
              rest <- replaceGetvarFrom valueLen r (mlen - 1) (idx + 1) ;;
              ret (repl ++ rest)
          | None =>
              rest <- replaceGetvarFrom valueLen r O (idx + 1) ;;
              ret (String c rest)
          end
      end
  end.

Definition replaceGetvar (value : string) : M string :=
  if experimental_macro_engine env then ret value
  else replaceGetvarFrom (Js.len value) value O 0.

(** The common tail of the value parsers:
    [if (this.flags[PARSER_FLAG.REPLACE_GETVAR]) value = this.replaceGetvar(value)]. *)
Definition replaceIfFlag (value : string) : M string :=
  f <- gets flags ;;
  if REPLACE_GETVAR f then replaceGetvar value else ret value.

End Rewrite.

(* ===================================================================== *)
(** ** The parser *)
(* ===================================================================== *)

(** The local variables of [parseUnnamedArgument]. *)
Record ArgState : Type := mkArgState {
  a_split : bool;
  a_isList : bool;
  a_value : string;
  a_listValues : list Unnamed.t;
  a_listQuoted : list bool;
  a_assignment : Unnamed.t
}.

Definition isNone {A} (o : option A) : bool :=
  match o with None => true | Some _ => false end.

(** Truth of a number that may be missing: [undefined], [null] and 0 are
    false. *)
Definition truthyCount (n : option nat) : bool :=
  match n with Some (S _) => true | _ => false end.

Definition countOr0 (n : option nat) : nat :=
  match n with Some k => k | None => O end.

Definition isStringValue (v : Value) : bool :=
  match v with VString _ => true | _ => false end.

Definition mapStringValue (f : string -> string) (v : Value) : Value :=
  match v with VString s => VString (f s) | _ => v end.

Definition isEmptyStringValue (v : Value) : bool :=
  match v with VString EmptyString => true | _ => false end.

(** [l.slice(-1)[0]] *)
Definition lastOf {A} (l : list A) : option A := List.last (map Some l) None.

Section Body.

Variable env : Env.

(** Fuel of the loops of one closure level, and the closure parser one
    level down. *)
Variable fuel : nat.
Variable parseClosure : bool -> M nat.

Definition testClosure : M bool := testSymbol (Lit "{:") 0.

Definition testClosureEnd : M bool :=
  cur <- gets scope ;;
  par <- getScopeParent cur ;;
  verify <- gets verifyCommandNames ;;
  done <- gets atEnd ;;
  none <- gets nothingAhead ;;
  i <- gets index ;;
  if isNone par then
    (* the root closure has no markers *)
    ret done
  else if negb verify && done then ret true
  else if verify && none then throw (ParserError UnclosedClosure (Some i))
  else testSymbol (Lit ":}") 0.

Definition testCommandEnd : M bool :=
  e <- testClosureEnd ;;
  if e then ret true else testSymbol (Lit "|") 0.

(** *** Values *)

Definition testQuotedValue : M bool := testSymbol (Lit Js.quote) 0.

Definition testQuotedValueEnd : M bool :=
  verify <- gets verifyCommandNames ;;
  strict <- gets strict ;;
  eot <- gets endOfText ;;
  i <- gets index ;;
  if eot then
    if verify then throw (ParserError UnterminatedQuote (Some i))
    else ret true
  else
    c1 <- (if negb verify then testClosureEnd else ret false) ;;
    if c1 then ret true
    else
      c2 <- (if verify && negb strict then testCommandEnd else ret false) ;;
      if c2 then
        i <- gets index ;;
        throw (ParserError UnterminatedQuote (Some i))
      else
        q <- testSymbol (Lit Js.quote) 0 ;;
        if q then ret true
        else if negb strict then testCommandEnd else ret false.

(** [while (!test()) value += this.take()] *)
Definition takeUntil (test : M bool) (value : string) : M string :=
  while fuel (fun _ => e <- test ;; ret (negb e))
    (fun v => c <- take 1 ;; ret (Js.appendChar v c)) value.

Definition parseQuotedValue : M string :=
  _ <- take 1 ;;
  value <- takeUntil testQuotedValueEnd EmptyString ;;
  _ <- take 1 ;;
  value <- replaceIfFlag env value ;;
  i <- gets index ;;
  indexMacros env (i - Js.len value) value ;;
  ret value.

Definition testListValue : M bool := testSymbol (Lit "[") 0.

Definition testListValueEnd : M bool :=
  eot <- gets endOfText ;;
  i <- gets index ;;
  if eot then throw (ParserError UnterminatedList (Some i))
  else testSymbol (Lit "]") 0.

Definition parseListValue : M string :=
  c <- take 1 ;;
  value <- takeUntil testListValueEnd (Js.appendChar EmptyString c) ;;
  c' <- take 1 ;;
  value <- replaceIfFlag env (Js.appendChar value c') ;;
  i <- gets index ;;
  indexMacros env (i - Js.len value) value ;;
  ret value.

Definition testValue : M bool :=
  s <- testSymbol ReSpace 0 ;; ret (negb s).

Definition testValueEnd : M bool :=
  s <- testSymbol ReSpace 0 ;;
  if s then ret true else testCommandEnd.

(** [this.jumpedEscapeSequence ? this.take() : ''] *)
Definition takeEscaped : M string :=
  j <- gets jumpedEscapeSequence ;;
  if j then (c <- take 1 ;; ret (Js.appendChar EmptyString c))
  else ret EmptyString.

Definition parseValue : M string :=
  value <- takeEscaped ;;
  value <- takeUntil testValueEnd value ;;
  value <- replaceIfFlag env value ;;
  i <- gets index ;;
  indexMacros env (i - Js.len value) value ;;
  ret value.

(** *** Named arguments *)

(** [/^(\w+)=/.test(`${this.char}${this.ahead}`)] *)
Definition namedArgumentAhead (p : Parser) : bool :=
  let fix go (seen : bool) (s : string) : bool :=
    match s with
    | String c r =>
        if Js.isWord c then go true r else seen && Ascii.eqb c "="
    | EmptyString => false
    end in
  match char p with
  | Some c => go false (String c (ahead p))
  | None => go false ("undefined" ++ ahead p)
  end.

Definition testNamedArgument : M bool := gets namedArgumentAhead.

Definition parseNamedArgument : M Named.t :=
  start <- gets index ;;
  key <- while fuel (fun _ => gets wordHere)
           (fun k => c <- take 1 ;; ret (Js.appendChar k c)) EmptyString ;;
  _ <- take 1 ;;
  c <- testClosure ;;
  value <-
    (if c then (r <- parseClosure false ;; ret (VClosure r))
     else
       q <- testQuotedValue ;;
       if q then (v <- parseQuotedValue ;; ret (VString v))
       else
         l <- testListValue ;;
         if l then (v <- parseListValue ;; ret (VString v))
         else
           t <- testValue ;;
           if t then (v <- parseValue ;; ret (VString v))
           else ret VUndefined) ;;
  e <- gets index ;;
  ret (Named.mk (Some start) (Some e) key value).

(** *** Unnamed arguments *)

Definition testUnnamedArgument : M bool :=
  e <- testCommandEnd ;; ret (negb e).
Definition testUnnamedArgumentEnd : M bool := testCommandEnd.

(** [listValues.push(assignment); listQuoted.push(q)] followed by a new
    assignment. *)
Definition pushValue (q : option bool) (next : Unnamed.t) (st : ArgState)
    : ArgState :=
  mkArgState (a_split st) (a_isList st) (a_value st)
    (a_listValues st ++ [a_assignment st])%list
    (match q with
     | Some b => (a_listQuoted st ++ [b])%list
     | None => a_listQuoted st
     end)
    next.

Definition withAssignment (f : Unnamed.t -> Unnamed.t) (st : ArgState)
    : ArgState :=
  mkArgState (a_split st) (a_isList st) (a_value st) (a_listValues st)
    (a_listQuoted st) (f (a_assignment st)).
Definition withSplit (b : bool) (st : ArgState) : ArgState :=
  mkArgState b (a_isList st) (a_value st) (a_listValues st)
    (a_listQuoted st) (a_assignment st).
Definition withIsList (b : bool) (st : ArgState) : ArgState :=
  mkArgState (a_split st) b (a_value st) (a_listValues st)
    (a_listQuoted st) (a_assignment st).
Definition withValue (v : string) (st : ArgState) : ArgState :=
  mkArgState (a_split st) (a_isList st) v (a_listValues st)
    (a_listQuoted st) (a_assignment st).

(** The block, repeated three times in the source, that takes a whole
    quoted value as one list element and opens a new assignment starting
    at the cursor. *)
Definition takeQuotedElement (st : ArgState) : M ArgState :=
  v <- parseQuotedValue ;;
  i <- gets index ;;
  let st := withAssignment
              (fun a => Unnamed.setEnd i (Unnamed.setValue (VString v) a))
              st in
  ret (pushValue (Some true) (Unnamed.setStart i Unnamed.fresh) st).

(** One element in split mode: set start, parse, set end, push. *)
Definition takeSplitElement (parse : M string) (quoted : bool)
    (st : ArgState) : M ArgState :=
  i <- gets index ;;
  v <- parse ;;
  j <- gets index ;;
  let st := withAssignment
              (fun a => Unnamed.setEnd j
                          (Unnamed.setValue (VString v) (Unnamed.setStart i a)))
              st in
  ret (pushValue (Some quoted) Unnamed.fresh st).

(** The body of the scanning loop of [parseUnnamedArgument]. *)
Definition unnamedStep (splitCount : option nat) (st : ArgState)
    : M ArgState :=
  (* the split count has just been reached: the rest is one value *)
  st <-
    (if a_split st && truthyCount splitCount
        && (countOr0 splitCount <=? List.length (a_listValues st))%nat
     then
       let st := withSplit false st in
       q <- testQuotedValue ;;
       if q then takeQuotedElement st else ret st
     else ret st) ;;
  c <- testClosure ;;
  if c then
    let st := withIsList true st in
    st <-
      (if (0 <? String.length (a_value st))%nat then
         i <- gets index ;;
         indexMacros env (i - Js.len (a_value st)) (a_value st) ;;
         let st := withAssignment
                     (Unnamed.setValue (VString (a_value st))) st in
         let st := pushValue (Some false) (Unnamed.setStart i Unnamed.fresh)
                     st in
         q <- (if negb (a_split st) then testQuotedValue else ret false) ;;
         if q then takeQuotedElement st
         else ret (withValue EmptyString st)
       else ret st) ;;
    i <- gets index ;;
    r <- parseClosure false ;;
    j <- gets index ;;
    let st := withAssignment
                (fun a => Unnamed.setEnd j
                            (Unnamed.setValue (VClosure r)
                               (Unnamed.setStart i a))) st in
    let st := pushValue None (Unnamed.setStart j Unnamed.fresh) st in
    (if a_split st then discardWhitespace else ret tt) ;;
    ret st
  else if a_split st then
    st <-
      (q <- testQuotedValue ;;
       if q then takeSplitElement parseQuotedValue true st
       else
         l <- testListValue ;;
         if l then takeSplitElement parseListValue false st
         else
           t <- testValue ;;
           if t then takeSplitElement parseValue false st
           else throw (ParserError UnexpectedArgumentEnd None)) ;;
    discardWhitespace ;;
    ret st
  else
    ch <- take 1 ;;
    i <- gets index ;;
    ret (withAssignment (Unnamed.setEnd i)
           (withValue (Js.appendChar (a_value st) ch) st)).

(** The scanning part of [parseUnnamedArgument]: everything up to the
    end of the [while] loop. *)
Definition scanUnnamedArgument (split : bool) (splitCount : option nat)
    (rawQuotes : bool) : M ArgState :=
  value <- takeEscaped ;;
  i <- gets index ;;
  let st := mkArgState split split value [] []
              (Unnamed.setStart i Unnamed.fresh) in
  st <-
    (if negb split && negb rawQuotes then
       q <- testQuotedValue ;;
       if q then
         st <- takeQuotedElement st ;;
         ret (withIsList true st)
       else ret st
     else ret st) ;;
  while fuel (fun _ => e <- testUnnamedArgumentEnd ;; ret (negb e))
    (unnamedStep splitCount) st.

(** Trimming of the first element: [listValues[0]], [listQuoted[0]]. *)
Definition trimFirst (lv : list Unnamed.t) (lq : list bool)
    : list Unnamed.t * list bool :=
  match lv with
  | first :: rest =>
      if isStringValue (Unnamed.value first) then
        let v := if negb (hd false lq)
                 then mapStringValue Js.trimStart (Unnamed.value first)
                 else Unnamed.value first in
        if isEmptyStringValue v then (rest, tl lq)
        else (Unnamed.setValue v first :: rest, lq)
      else (lv, lq)
  | [] => (lv, lq)
  end.

(** Trimming of the last element. *)
Definition trimLast (lv : list Unnamed.t) (lq : list bool)
    : list Unnamed.t * list bool :=
  match lastOf lv with
  | Some lastVal =>
      if isStringValue (Unnamed.value lastVal) then
        let v := if negb (match lastOf lq with Some b => b | None => false end)
                 then mapStringValue Js.trimEnd (Unnamed.value lastVal)
                 else Unnamed.value lastVal in
        if isEmptyStringValue v then (removelast lv, removelast lq)
        else ((removelast lv ++ [Unnamed.setValue v lastVal])%list, lq)
      else (lv, lq)
  | None => (lv, lq)
  end.

(** Joining the elements from [splitCount] on into one, with the quotes
    of the quoted ones put back. *)
Definition rejoin (splitCount : nat) (lv : list Unnamed.t) (lq : list bool)
    : list Unnamed.t :=
  let fix join (vs : list Unnamed.t) (i : nat) : string :=
    match vs with
    | [] => EmptyString
    | v :: r =>
        (if nth i lq false
         then Js.quote ++ valueToString env (Unnamed.value v) ++ Js.quote
         else valueToString env (Unnamed.value v))
        ++ join r (S i)
    end in
  let joined :=
    Unnamed.mk
      (match nth_error lv splitCount with
       | Some v => Unnamed.start v
       | None => None
       end)
      (match lastOf lv with Some v => Unnamed.end_ v | None => None end)
      (VString (join (skipn splitCount lv) splitCount)) in
  (firstn splitCount lv ++ [joined])%list.

Definition parseUnnamedArgument (split : bool) (splitCount : option nat)
    (rawQuotes : bool) : M (list Unnamed.t) :=
  let wasSplit := split in
  st <- scanUnnamedArgument split splitCount rawQuotes ;;
  let st :=
    if a_isList st && (0 <? String.length (a_value st))%nat
    then pushValue (Some false) (a_assignment st)
           (withAssignment (Unnamed.setValue (VString (a_value st))) st)
    else st in
  if a_isList st then
    let '(lv, lq) := trimFirst (a_listValues st) (a_listQuoted st) in
    let '(lv, lq) := trimLast lv lq in
    if wasSplit && truthyCount splitCount
       && (countOr0 splitCount + 1 <? List.length lv)%nat
    then ret (rejoin (countOr0 splitCount) lv lq)
    else ret lv
  else
    i <- gets index ;;
    indexMacros env (i - Js.len (a_value st)) (a_value st) ;;
    value <- replaceIfFlag env (Js.trim (a_value st)) ;;
    ret [Unnamed.setValue (VString value) (a_assignment st)].

(** *** Statements *)

Definition testBreakPoint : M bool := testSymbol ReBreakPoint 0.

Definition parseBreakPoint : M nat :=
  cmd <- newExecutor BreakPoint None ;;
  modifyExec cmd (Exec.setName "breakpoint") ;;
  modifyExec cmd (Exec.setCommand (commands env "breakpoint")) ;;
  i <- gets index ;;
  modifyExec cmd (Exec.setStart (i + 1)) ;;
  _ <- take 11 ;;
  i <- gets index ;;
  modifyExec cmd (Exec.setEnd i) ;;
  pushCommandIndex cmd ;;
  pushScopeIndex ;;
  ret cmd.

Definition testBreak : M bool := testSymbol ReBreak 0.

Definition parseBreak : M nat :=
  cmd <- newExecutor Break None ;;
  modifyExec cmd (Exec.setName "break") ;;
  modifyExec cmd (Exec.setCommand (commands env "break")) ;;
  i <- gets index ;;
  modifyExec cmd (Exec.setStart (i + 1)) ;;
  _ <- take 6 ;;
  discardWhitespace ;;
  u <- testUnnamedArgument ;;
  (if u then
     args <- parseUnnamedArgument false None false ;;
     modifyExec cmd (fun e =>
       Exec.setUnnamedArgumentList
         (Exec.unnamedArgumentList e ++ args)%list e)
   else ret tt) ;;
  i <- gets index ;;
  modifyExec cmd (Exec.setEnd i) ;;
  pushCommandIndex cmd ;;
  pushScopeIndex ;;
  ret cmd.

Definition testBlockComment : M bool := testSymbol (Lit "/*") 0.

Definition testBlockCommentEnd : M bool :=
  verify <- gets verifyCommandNames ;;
  done <- gets atEnd ;;
  none <- gets nothingAhead ;;
  i <- gets index ;;
  if negb verify && done then ret true
  else if verify && none then
    throw (ParserError UnclosedBlockComment (Some i))
  else testSymbol (Lit "*|") 0.

(** [parseBlockComment()] calls itself on a nested comment; [n] bounds
    both the nesting and the rounds of the loop. *)
Fixpoint parseBlockComment (n : nat) : M unit :=
  match n with
  | O => outOfFuel
  | S n' =>
      i <- gets index ;;
      cmd <- newExecutor PlainExecutor (Some (i + 1)) ;;
      modifyExec cmd (Exec.setCommand (commands env "*")) ;;
      pushCommandIndex cmd ;;
      pushScopeIndex ;;
      _ <- take 1 ;;
      c <- take 1 ;;
      modifyExec cmd (Exec.setName (Js.appendChar EmptyString c)) ;;
      _ <- while n' (fun _ => e <- testBlockCommentEnd ;; ret (negb e))
             (fun _ =>
                b <- testBlockComment ;;
                (if b then parseBlockComment n' else ret tt) ;;
                _ <- take 1 ;;
                ret tt) tt ;;
      _ <- take 2 ;;
      i <- gets index ;;
      modifyExec cmd (Exec.setEnd (i - 1))
  end.

Definition testComment : M bool := testSymbol ReComment 0.

Definition testCommentEnd : M bool :=
  verify <- gets verifyCommandNames ;;
  done <- gets atEnd ;;
  eot <- gets endOfText ;;
  i <- gets index ;;
  if negb verify && done then ret true
  else if verify && eot then throw (ParserError UnclosedComment (Some i))
  else testSymbol (Lit "|") 0.

Definition parseComment : M unit :=
  i <- gets index ;;
  cmd <- newExecutor PlainExecutor (Some (i + 1)) ;;
  modifyExec cmd (Exec.setCommand (commands env "/")) ;;
  pushCommandIndex cmd ;;
  pushScopeIndex ;;
  _ <- take 1 ;;
  c <- take 1 ;;
  modifyExec cmd (Exec.setName (Js.appendChar EmptyString c)) ;;
  _ <- while fuel (fun _ => e <- testCommentEnd ;; ret (negb e))
         (fun _ => _ <- take 1 ;; ret tt) tt ;;
  i <- gets index ;;
  modifyExec cmd (Exec.setEnd i).

Definition testParserFlag : M bool := testSymbol (Lit "/parser-flag ") 0.

(** [this.flags[PARSER_FLAG[key]] = state] when [key] names a flag. *)
Definition setFlag (key : string) (state : bool) (f : ParserFlags)
    : option ParserFlags :=
  if String.eqb key "STRICT_ESCAPING" then Some (mkFlags state (REPLACE_GETVAR f))
  else if String.eqb key "REPLACE_GETVAR"
  then Some (mkFlags (STRICT_ESCAPING f) state)
  else None.

Definition parseParserFlag : M unit :=
  i <- gets index ;;
  cmd <- newExecutor PlainExecutor (Some (i + 1)) ;;
  modifyExec cmd (Exec.setName "parser-flag") ;;
  modifyExec cmd (Exec.setUnnamedArgumentList []) ;;
  modifyExec cmd (Exec.setCommand (commands env "parser-flag")) ;;
  pushCommandIndex cmd ;;
  pushScopeIndex ;;
  _ <- take 13 ;;
  i <- gets index ;;
  modifyExec cmd (fun e =>
    Exec.mk (Exec.class e) (Exec.injectPipe e) (Exec.start e) (Exec.end_ e)
      (Some (-1)) (Some (-1)) (Some i) (Exec.endUnnamedArgs e) (Exec.name e)
      (Exec.command e) (Exec.namedArgumentList e)
      (Exec.unnamedArgumentList e) (Exec.parserFlags e)) ;;
  args <- parseUnnamedArgument true None false ;;
  modifyExec cmd (Exec.setUnnamedArgumentList args) ;;
  i <- gets index ;;
  modifyExec cmd (Exec.setEndUnnamedArgs i) ;;
  match args with
  | [] => throw TypeError
  | flag :: rest =>
      key <- toStringOf env (Unnamed.value flag) ;;
      f <- gets flags ;;
      (if isNone (setFlag key true f) then ret tt
       else
         state <- match rest with
                  | [] => ret "on"
                  | st :: _ => toStringOf env (Unnamed.value st)
                  end ;;
         match setFlag key (isTrueBoolean env state) f with
         | Some f' => modify (setFlags f')
         | None => ret tt
         end) ;;
      i <- gets index ;;
      modifyExec cmd (Exec.setEnd i)
  end.

Definition testRunShorthand : M bool :=
  a <- testSymbol (Lit "/:") 0 ;;
  if a then (b <- testSymbol (Lit ":}") 1 ;; ret (negb b)) else ret false.

Definition testRunShorthandEnd : M bool := testCommandEnd.

Definition parseRunShorthand : M nat :=
  i <- gets index ;;
  cmd <- newExecutor PlainExecutor (Some (i + 2)) ;;
  modifyExec cmd (Exec.setName ":") ;;
  modifyExec cmd (Exec.setUnnamedArgumentList []) ;;
  modifyExec cmd (Exec.setCommand (commands env "run")) ;;
  pushCommandIndex cmd ;;
  pushScopeIndex ;;
  _ <- take 2 ;;
  q <- testQuotedValue ;;
  v <- (if q then parseQuotedValue else parseValue) ;;
  modifyExec cmd (Exec.setUnnamedArgumentList
                    [Unnamed.setValue (VString v) Unnamed.fresh]) ;;
  discardWhitespace ;;
  i <- gets index ;;
  modifyExec cmd (Exec.setStartNamedArgs i) ;;
  _ <- while fuel (fun _ => testNamedArgument)
         (fun _ =>
            arg <- parseNamedArgument ;;
            modifyExec cmd (fun e =>
              Exec.setNamedArgumentList
                (Exec.namedArgumentList e ++ [arg])%list e) ;;
            discardWhitespace) tt ;;
  i <- gets index ;;
  modifyExec cmd (Exec.setEndNamedArgs i) ;;
  discardWhitespace ;;
  e <- testRunShorthandEnd ;;
  i <- gets index ;;
  if e then (modifyExec cmd (Exec.setEnd i) ;; ret cmd)
  else throw (ParserError UnexpectedCommandEnd (Some i)).

Definition testCommand : M bool := testSymbol (Lit "/") 0.

(** The registration of the names a [/let] or [/import] declares. *)
Definition registerLet (e : Exec.t) : M unit :=
  match find (fun a => String.eqb (Named.name a) "key")
             (Exec.namedArgumentList e) with
  | Some keyArg =>
      k <- toStringOf env (Named.value keyArg) ;;
      pushVariableName (VString k)
  | None =>
      match Exec.unnamedArgumentList e with
      | first :: _ =>
          if isStringValue (Unnamed.value first)
          then pushVariableName (Unnamed.value first)
          else ret tt
      | [] => ret tt
      end
  end.

(** The loop over the values of an [/import]: [src as dst] registers
    [dst], a lone [src] registers itself.  [n] is the number of values
    left, which bounds the rounds. *)
Fixpoint registerImport (n : nat) (value : list Value) : M unit :=
  match n with
  | O => ret tt
  | S n' =>
      match value with
      | [] => ret tt
      | srcName :: rest =>
          match rest with
          | kw :: dstName :: rest' =>
              if String.eqb (valueToString env kw) "as"
                 && negb (match kw with VUndefined => true | _ => false end)
              then (pushVariableName dstName ;; registerImport n' rest')
              else (pushVariableName srcName ;; registerImport n' rest)
          | _ => pushVariableName srcName ;; registerImport n' rest
          end
      end
  end.

Definition parseCommand : M nat :=
  i <- gets index ;;
  cmd <- newExecutor PlainExecutor (Some (i + 1)) ;;
  f <- gets flags ;;
  modifyExec cmd (Exec.setParserFlags f) ;;
  pushCommandIndex cmd ;;
  pushScopeIndex ;;
  _ <- take 1 ;;
  _ <- while fuel
         (fun _ =>
            sp <- gets spaceHere ;;
            if sp then ret false
            else (e <- testCommandEnd ;; ret (negb e)))
         (fun _ =>
            c <- take 1 ;;
            modifyExec cmd (fun e =>
              Exec.setName (Js.appendChar (Exec.name e) c) e)) tt ;;
  discardWhitespace ;;
  e <- getExec cmd ;;
  let name := Exec.name e in
  verify <- gets verifyCommandNames ;;
  i <- gets index ;;
  if verify && isNone (commands env name) then
    throw (ParserError UnknownCommand (Some (i - Js.len name)))
  else
    modifyExec cmd (Exec.setCommand (commands env name)) ;;
    modifyExec cmd (Exec.setStartNamedArgs i) ;;
    modifyExec cmd (Exec.setEndNamedArgs i) ;;
    _ <- while fuel (fun _ => testNamedArgument)
           (fun _ =>
              arg <- parseNamedArgument ;;
              modifyExec cmd (fun e =>
                Exec.setNamedArgumentList
                  (Exec.namedArgumentList e ++ [arg])%list e) ;;
              i <- gets index ;;
              modifyExec cmd (Exec.setEndNamedArgs i) ;;
              discardWhitespace) tt ;;
    discardWhitespace ;;
    i <- gets index ;;
    before <- gets behind ;;
    modifyExec cmd (Exec.setStartUnnamedArgs
      (i - Z.of_nat (Nat.pred (Js.trailingSpaces before)))) ;;
    modifyExec cmd (Exec.setEndUnnamedArgs i) ;;
    u <- testUnnamedArgument ;;
    (if u then
       e <- getExec cmd ;;
       let rawQuotesArg :=
         find (fun a => String.eqb (Named.name a) "raw")
              (Exec.namedArgumentList e) in
       let commandRaw :=
         match Exec.command e with Some c => rawQuotes c | None => false end in
       let raw :=
         match rawQuotesArg with
         | Some a =>
             if commandRaw then negb (isFalseBoolean env (Named.value a))
             else commandRaw
         | None => commandRaw
         end in
       let split :=
         match Exec.command e with
         | Some c =>
             (0 <? unnamedArgumentListLength c)%nat && splitUnnamedArgument c
         | None => false
         end in
       let splitCount :=
         match Exec.command e with
         | Some c => splitUnnamedArgumentCount c
         | None => None
         end in
       args <- parseUnnamedArgument split splitCount raw ;;
       modifyExec cmd (Exec.setUnnamedArgumentList args) ;;
       i <- gets index ;;
       modifyExec cmd (Exec.setEndUnnamedArgs i) ;;
       e <- getExec cmd ;;
       if String.eqb (Exec.name e) "let" then registerLet e
       else if String.eqb (Exec.name e) "import" then
         registerImport (List.length args) (map Unnamed.value args)
       else ret tt
     else ret tt) ;;
    e <- testCommandEnd ;;
    i <- gets index ;;
    if e then (modifyExec cmd (Exec.setEnd i) ;; ret cmd)
    else throw (ParserError UnexpectedCommandEnd (Some i)).

(** *** Closures *)

(** The pipes between two statements: the first ends the statement, a
    second one right behind it switches pipe injection off for the next
    command.  Returns the new value of the local [injectPipe]. *)
Definition parsePipes (injectPipe : bool) : M bool :=
  discardWhitespace ;;
  p1 <- testSymbol (Lit "|") 0 ;;
  inject <-
    (if p1 then
       _ <- take 1 ;;
       p2 <- testSymbol (Lit "|") 0 ;;
       if p2 then (_ <- take 1 ;; ret false) else ret injectPipe
     else ret injectPipe) ;;
  discardWhitespace ;;
  ret inject.

(** One round of the statement loop of [parseClosure]; the loop variable
    is the local [injectPipe]. *)
Definition parseStatement (closure : nat) (injectPipe : bool) : M bool :=
  inject <-
    (b <- testBlockComment ;;
     if b then (parseBlockComment fuel ;; ret injectPipe)
     else
       b <- testComment ;;
       if b then (parseComment ;; ret injectPipe)
       else
         b <- testParserFlag ;;
         if b then (parseParserFlag ;; ret injectPipe)
         else
           b <- testRunShorthand ;;
           if b then
             cmd <- parseRunShorthand ;;
             modifyClosure closure (Closure.pushExecutor cmd) ;;
             ret true
           else
             b <- testBreakPoint ;;
             if b then
               bp <- parseBreakPoint ;;
               dbg <- gets debugController ;;
               (if dbg then modifyClosure closure (Closure.pushExecutor bp)
                else ret tt) ;;
               ret injectPipe
             else
               b <- testBreak ;;
               if b then
                 br <- parseBreak ;;
                 modifyClosure closure (Closure.pushExecutor br) ;;
                 ret injectPipe
               else
                 b <- testCommand ;;
                 if b then
                   cmd <- parseCommand ;;
                   modifyExec cmd (Exec.setInjectPipe injectPipe) ;;
                   modifyClosure closure (Closure.pushExecutor cmd) ;;
                   ret true
                 else
                   (* discard plain text and comments *)
                   _ <- while fuel
                          (fun _ => e <- testCommandEnd ;; ret (negb e))
                          (fun _ => _ <- take 1 ;; ret tt) tt ;;
                   ret injectPipe) ;;
  parsePipes inject.

Definition parseClosureBody (isRoot : bool) : M nat :=
  entry <- gets (fun p => List.length (closureIndex p)) ;;
  modify (fun p =>
    setClosureIndex (closureIndex p ++ [Span.mk (index p + 1) None])%list p) ;;
  (if isRoot then ret tt else (_ <- take 2 ;; ret tt)) ;;
  textStart <- gets index ;;
  cur <- gets scope ;;
  cl <- newClosure cur ;;
  initClosure cl ;;
  sc <- getClosureScope cl ;;
  modify (setScope (Some sc)) ;;
  oldClosure <- gets closure ;;
  modify (setClosure (Some cl)) ;;
  discardWhitespace ;;
  _ <- while fuel (fun _ => testNamedArgument)
         (fun _ =>
            arg <- parseNamedArgument ;;
            modifyClosure cl (Closure.pushArgument arg) ;;
            pushVariableName (VString (Named.name arg)) ;;
            discardWhitespace) tt ;;
  _ <- while fuel (fun _ => e <- testClosureEnd ;; ret (negb e))
         (parseStatement cl) true ;;
  full <- gets text ;;
  i <- gets index ;;
  modifyClosure cl (Closure.setRawText (Js.slice full textStart i)) ;;
  (if isRoot then ret tt else (_ <- take 2 ;; ret tt)) ;;
  now <- testSymbol (Lit "()") 0 ;;
  (if now then
     _ <- take 2 ;;
     modifyClosure cl (Closure.setExecuteNow true)
   else ret tt) ;;
  i <- gets index ;;
  modify (fun p =>
    setClosureIndex (updNth entry (Span.setEnd (i - 1)) (closureIndex p)) p) ;;
  sc <- getClosureScope cl ;;
  par <- getScopeParent (Some sc) ;;
  modify (setScope par) ;;
  modify (setClosure (match oldClosure with
                      | Some o => Some o
                      | None => Some cl
                      end)) ;;
  ret cl.

End Body.

(** [parseClosure(isRoot)]: [fuel] bounds the nesting of closures and,
    at each level, the rounds of every loop. *)
Fixpoint parseClosure (env : Env) (fuel : nat) (isRoot : bool) : M nat :=
  match fuel with
  | O => outOfFuel
  | S n => parseClosureBody env n (parseClosure env n) isRoot
  end.

(** [flags?.[key] ?? power_user.stscript.parser.flags[key] ?? false] *)
Definition resolveFlag (given ambient : option bool) : bool :=
  match given with
  | Some b => b
  | None => match ambient with Some b => b | None => false end
  end.

(** [parse(text, verifyCommandNames, flags, abortController,
    debugController)].  The abort controller is a handle the parser only
    passes on; [debug] tells whether a debug controller is attached. *)
Definition parse (env : Env) (fuel : nat) (txt : string)
    (verify : bool) (given : option bool * option bool) (debug : bool)
    : M nat :=
  modify (setVerifyCommandNames verify) ;;
  modify (setFlags
    (mkFlags (resolveFlag (fst given) (fst (defaultFlags env)))
             (resolveFlag (snd given) (snd (defaultFlags env))))) ;;
  modify (setDebugController debug) ;;
  modify (setText txt) ;;
  modify (setIndex 0) ;;
  modify (setScope None) ;;
  modify (setClosureIndex []) ;;
  modify (setCommandIndex []) ;;
  modify (setScopeIndex []) ;;
  modify (setMacroIndex []) ;;
  ctx <- drawUuid env ;;
  modify (setParserContext ctx) ;;
  parseClosure env fuel true.

(** A parser instance as the constructor leaves it. *)
Definition newParser : Parser :=
  mkParser true EmptyString 0 false None None (mkFlags false false) false
    [] [] [] [] EmptyString [] [] [] O.

(* ===================================================================== *)
(** ** Reading a parse result *)
(* ===================================================================== *)

(** The executors of the closure [cl], in order. *)
Definition executorsOf (p : Parser) (cl : nat) : list Exec.t :=
  match nth_error (closures p) cl with
  | Some c =>
      flat_map (fun r => match nth_error (executors p) r with
                         | Some e => [e]
                         | None => []
                         end) (Closure.executorList c)
  | None => []
  end.

(** The values of the unnamed arguments of an executor. *)
Definition unnamedValues (e : Exec.t) : list Value :=
  map Unnamed.value (Exec.unnamedArgumentList e).


(** A parser positioned at the start of [txt] inside a root closure: the
    instance as [parseClosure(true)] has set it up when it reaches its
    first statement. *)
Definition atRoot (txt : string) (verify : bool) (f : ParserFlags) : Parser :=
  mkParser verify txt 0 false (Some O) (Some O) f false
    [Span.mk 1 None] [] [] [] EmptyString
    [Scope.new None] [Closure.new O] [] O.

(** A registry that answers [v] for the name [k] and as [f] otherwise. *)
Definition override {A} (f : string -> A) (k : string) (v : A)
    : string -> A :=
  fun s => if String.eqb s k then v else f s.

Lemma override_same {A} (f : string -> A) (k : string) (v : A) :
  f k = v -> f = override f k v.
Proof.
  intros H. apply functional_extensionality. intros s. unfold override.
  destruct (String.eqb_spec s k) as [->|]; [exact H | reflexivity].
Qed.

(** Replace the registry of [env] by the one a hypothesis
    [commands env k = v] describes at [k], so that a lookup of [k]
    computes. *)
Ltac registered H :=
  match type of H with
  | commands ?env ?k = ?v =>
      let E := fresh "E" in
      pose proof (override_same (commands env) k v H) as E;
      destruct env as [?cmds ?uu ?xme ?dfl ?itb ?ifb ?cts ?mid];
      cbn [commands] in E; rewrite E; clear E
  end.

(** One more known answer of the registry or of the boolean reader,
    once [env] has been destructed. *)
Ltac registered_also H :=
  cbn [commands isTrueBoolean] in H;
  match type of H with
  | ?c ?k = ?v =>
      let E := fresh "E" in
      pose proof (override_same c k v H) as E;
      rewrite E; clear E
  end.

(* ===================================================================== *)
(** ** Reasoning about runs that return *)
(* ===================================================================== *)

(** [keeps R m]: whenever [m] returns, the parser before and the parser
    after are related by [R]. *)
Definition keeps (R : Parser -> Parser -> Prop) {A} (m : M A) : Prop :=
  forall p a q, m p = Ok a q -> R p q.


Lemma bind_Ok {A B} (m : M A) (k : A -> M B) p b q :
  bind m k p = Ok b q -> exists a p', m p = Ok a p' /\ k a p' = Ok b q.
Proof.
  unfold bind. destruct (m p) as [a p'| |]; try discriminate. eauto.
Qed.

Section Keeps.
Variable R : Parser -> Parser -> Prop.
Hypothesis R_refl : forall p, R p p.
Hypothesis R_trans : forall p q r, R p q -> R q r -> R p r.

Lemma keeps_ret {A} (a : A) : keeps R (ret a).
Proof. intros p b q H. inversion H; subst. apply R_refl. Qed.

Lemma keeps_gets {A} (f : Parser -> A) : keeps R (gets f).
Proof. intros p b q H. inversion H; subst. apply R_refl. Qed.

Lemma keeps_throw {A} e : keeps R (@throw A e).
Proof. intros p b q H. discriminate. Qed.

Lemma keeps_outOfFuel {A} : keeps R (@outOfFuel A).
Proof. intros p b q H. discriminate. Qed.

Lemma keeps_bind {A B} (m : M A) (k : A -> M B) :
  keeps R m -> (forall a, keeps R (k a)) -> keeps R (bind m k).
Proof.
  intros Hm Hk p b q H. apply bind_Ok in H as (a & p' & H1 & H2).
  eapply R_trans; [eapply Hm | eapply Hk]; eassumption.
Qed.

Lemma keeps_while {A} (n : nat) (cond : A -> M bool) (body : A -> M A) :
  (forall a, keeps R (cond a)) -> (forall a, keeps R (body a)) ->
  forall a, keeps R (while n cond body a).
Proof.
  intros Hc Hb. induction n as [|n IH]; intros a; cbn [while].
  - apply keeps_outOfFuel.
  - apply keeps_bind; [apply Hc |]. intros [|].
    + apply keeps_bind; [apply Hb | apply IH].
    + apply keeps_ret.
Qed.

(** A loop that returned did so when its condition failed, in an
    instance the rounds before had led to. *)
Lemma while_exit {A} (n : nat) (cond : A -> M bool) (body : A -> M A) :
  (forall a, keeps R (cond a)) -> (forall a, keeps R (body a)) ->
  forall a p b q,
    while n cond body a p = Ok b q ->
    exists p', R p p' /\ cond b p' = Ok false q.
Proof.
  intros Hc Hb. induction n as [|n IH]; intros a p b q H; cbn [while] in H.
  - discriminate.
  - apply bind_Ok in H as (c & p1 & Ec & H). destruct c.
    + apply bind_Ok in H as (a' & p2 & Eb & H).
      apply IH in H as (p' & Hp' & H). exists p'. split; [| exact H].
      eapply R_trans; [eapply Hc; exact Ec |].
      eapply R_trans; [eapply Hb; exact Eb | exact Hp'].
    + inversion H; subst. eauto.
Qed.

End Keeps.





(** *** Lists as stores *)

Lemma length_updNth {A} (n : nat) (f : A -> A) (l : list A) :
  List.length (updNth n f l) = List.length l.
Proof.
  revert n; induction l as [|x l IH]; intros [|n]; cbn; auto.
Qed.

Lemma nth_error_updNth {A} (n : nat) (f : A -> A) (l : list A) (r : nat) :
  nth_error (updNth n f l) r
  = if Nat.eqb r n then option_map f (nth_error l r) else nth_error l r.
Proof.
  revert n r; induction l as [|x l IH]; intros [|n] [|r]; cbn; auto;
    destruct (Nat.eqb r n); reflexivity.
Qed.

Lemma nth_error_snoc {A} (l : list A) (y : A) (r : nat) :
  nth_error (l ++ [y])%list r
  = if Nat.eqb r (List.length l) then Some y else nth_error l r.
Proof.
  destruct (Nat.eqb_spec r (List.length l)) as [->|Hne].
  - rewrite nth_error_app2, Nat.sub_diag by lia. reflexivity.
  - destruct (Nat.lt_ge_cases r (List.length l)).
    + apply nth_error_app1; assumption.
    + rewrite nth_error_app2 by lia.
      destruct (r - List.length l)%nat as [|[|k]] eqn:E; cbn; try lia;
        symmetry; apply nth_error_None; lia.
Qed.

(** [preserved proj l l']: every position of the store [l] is still
    there in [l'], with the same [proj]. *)
Definition preserved {A B} (proj : A -> B) (l l' : list A) : Prop :=
  forall r x, nth_error l r = Some x ->
    exists x', nth_error l' r = Some x' /\ proj x' = proj x.

Lemma preserved_refl {A B} (proj : A -> B) l : preserved proj l l.
Proof. intros r x H. eauto. Qed.

Lemma preserved_trans {A B} (proj : A -> B) l1 l2 l3 :
  preserved proj l1 l2 -> preserved proj l2 l3 -> preserved proj l1 l3.
Proof.
  intros H12 H23 r x H. apply H12 in H as (y & Hy & Ey).
  apply H23 in Hy as (z & Hz & Ez). exists z. split; [assumption | congruence].
Qed.

Lemma preserved_snoc {A B} (proj : A -> B) l y :
  preserved proj l (l ++ [y])%list.
Proof.
  intros r x H. exists x. split; [| reflexivity].
  rewrite nth_error_app1; [assumption |]. apply nth_error_Some. congruence.
Qed.

Lemma preserved_updNth {A B} (proj : A -> B) l n f :
  (forall x, proj (f x) = proj x) -> preserved proj l (updNth n f l).
Proof.
  intros Hf r x H. rewrite nth_error_updNth, H.
  destruct (Nat.eqb r n); cbn; eauto.
Qed.

Lemma preserved_length {A B} (proj : A -> B) l l' :
  preserved proj l l' -> (List.length l <= List.length l')%nat.
Proof.
  intros H. destruct l as [|x0 l0] eqn:E; [cbn; lia |]. rewrite <- E in *.
  destruct (nth_error l (List.length l - 1)) as [x|] eqn:Hx.
  - apply H in Hx as (x' & Hx' & _).
    assert (List.length l - 1 < List.length l')%nat
      by (apply nth_error_Some; congruence).
    lia.
  - apply nth_error_None in Hx. subst l. cbn in Hx. lia.
Qed.

(** A span whose end is set and not before its start. *)
Definition closedSpan (s : Span.t) : Prop :=
  exists e, Span.end_ s = Some e /\ Span.start s <= e.

(** What every method of the parser guarantees between the instance it
    is called on and the instance it returns: the text is the same, the
    cursor has not moved back, the current scope is the same and so is
    the current closure when there was one; the stores have only grown,
    scopes keep their parent, closures their scope and executors their
    flag snapshot; the closure-span index has grown by one entry per new
    closure, its old entries are untouched and its new ones are
    closed; the count of identifiers drawn has not gone down. *)
Record Extends (p q : Parser) : Prop := mkExtends {
  ext_text : text q = text p;
  ext_index : index p <= index q;
  ext_scope : scope q = scope p;
  ext_closure : closure p <> None -> closure q = closure p;
  ext_closures : preserved Closure.scope (closures p) (closures q);
  ext_scopes : preserved Scope.parent (scopes p) (scopes q);
  ext_executors : preserved Exec.parserFlags (executors p) (executors q);
  ext_balance :
    (List.length (closures q) + List.length (closureIndex p)
     = List.length (closures p) + List.length (closureIndex q))%nat;
  ext_spans_old :
    forall k s, nth_error (closureIndex p) k = Some s ->
                nth_error (closureIndex q) k = Some s;
  ext_spans_new :
    forall k s, (List.length (closureIndex p) <= k)%nat ->
                nth_error (closureIndex q) k = Some s -> closedSpan s;
  ext_uuid : (uuidCount p <= uuidCount q)%nat
}.

Lemma Extends_refl p : Extends p p.
Proof.
  constructor; auto using preserved_refl; try lia.
  intros k s Hk H.
  assert (k < List.length (closureIndex p))%nat
    by (apply nth_error_Some; congruence).
  lia.
Qed.

Lemma Extends_trans p q r : Extends p q -> Extends q r -> Extends p r.
Proof.
  intros [t1 i1 s1 c1 cs1 ss1 es1 b1 o1 n1 u1]
         [t2 i2 s2 c2 cs2 ss2 es2 b2 o2 n2 u2].
  constructor; try congruence; try lia; eauto using preserved_trans.
  - intros H. rewrite c2; [auto |]. rewrite c1; assumption.
  - intros k s Hk H.
    destruct (nth_error (closureIndex q) k) as [s'|] eqn:E.
    + pose proof (o2 _ _ E) as E'. rewrite E' in H. inversion H; subst.
      eapply n1; eassumption.
    + apply nth_error_None in E. eapply n2; eassumption.
Qed.

(** A method that touches neither the current scope and closure nor
    the closures and the span index extends the instance as soon as it
    keeps the remaining clauses. *)
Lemma Extends_leaf p q :
  text q = text p -> index p <= index q -> scope q = scope p ->
  closure q = closure p -> closureIndex q = closureIndex p ->
  preserved Closure.scope (closures p) (closures q) ->
  List.length (closures q) = List.length (closures p) ->
  preserved Scope.parent (scopes p) (scopes q) ->
  preserved Exec.parserFlags (executors p) (executors q) ->
  (uuidCount p <= uuidCount q)%nat ->
  Extends p q.
Proof.
  intros Ht Hi Hs Hc Hci Hcs Hl Hss Hes Hu.
  constructor; auto; try lia.
  - rewrite Hci. lia.
  - rewrite Hci. auto.
  - rewrite Hci. intros k s Hk H.
    assert (k < List.length (closureIndex p))%nat
      by (apply nth_error_Some; congruence).
    lia.
Qed.

(** *** The primitive steps extend the instance *)

Lemma ext_ret {A} (a : A) : keeps Extends (ret a).
Proof. apply keeps_ret, Extends_refl. Qed.

Lemma ext_gets {A} (f : Parser -> A) : keeps Extends (gets f).
Proof. apply keeps_gets, Extends_refl. Qed.

Lemma ext_throw {A} e : keeps Extends (@throw A e).
Proof. apply keeps_throw. Qed.

Lemma ext_outOfFuel {A} : keeps Extends (@outOfFuel A).
Proof. apply keeps_outOfFuel. Qed.

Lemma ext_bind {A B} (m : M A) (k : A -> M B) :
  keeps Extends m -> (forall a, keeps Extends (k a)) ->
  keeps Extends (bind m k).
Proof. apply keeps_bind, Extends_trans. Qed.

Lemma ext_while {A} (n : nat) (cond : A -> M bool) (body : A -> M A) :
  (forall a, keeps Extends (cond a)) -> (forall a, keeps Extends (body a)) ->
  forall a, keeps Extends (while n cond body a).
Proof. apply keeps_while; [apply Extends_refl | apply Extends_trans]. Qed.

Lemma ext_modify (f : Parser -> Parser) :
  (forall p, Extends p (f p)) -> keeps Extends (modify f).
Proof. intros Hf p a q H. inversion H; subst. apply Hf. Qed.

Ltac leaf :=
  intros; apply Extends_leaf; cbn; rewrite ?length_updNth;
  auto using preserved_refl, preserved_snoc, preserved_updNth; try lia.

Lemma ext_deref {A} (store : Parser -> list A) r :
  keeps Extends (deref store r).
Proof.
  intros p a q H. unfold deref in H. destruct r as [n|]; [| discriminate].
  destruct (nth_error (store p) n); inversion H; subst. apply Extends_refl.
Qed.

Lemma ext_take1 : keeps Extends take1.
Proof. intros p a q H. inversion H; subst. leaf. Qed.

Lemma ext_take n : keeps Extends (take n).
Proof.
  destruct n as [|n]; [apply ext_take1 |].
  induction n as [|n IH]; [apply ext_take1 |].
  cbn [take]. apply ext_bind; [apply ext_take1 | intros _; exact IH].
Qed.

Lemma ext_setJumped b : keeps Extends (modify (setJumpedEscapeSequence b)).
Proof. apply ext_modify. leaf. Qed.

Lemma ext_setFlags f : keeps Extends (modify (setFlags f)).
Proof. apply ext_modify. leaf. Qed.

Lemma ext_testEscaped s o eo es : keeps Extends (testEscaped s o eo es).
Proof.
  intros p a q H. unfold testEscaped in H.
  repeat match type of H with
         | (if ?c then _ else _) = _ => destruct c
         end; inversion H; subst; try apply Extends_refl; leaf.
Qed.

Lemma ext_testSymbol s o : keeps Extends (testSymbol s o).
Proof.
  intros p a q H. unfold testSymbol, testSymbolLooseyGoosey in H.
  destruct (negb (strict p)); eapply ext_testEscaped; eassumption.
Qed.

Lemma ext_newExecutor c st : keeps Extends (newExecutor c st).
Proof. intros p a q H. inversion H; subst. leaf. Qed.

Lemma ext_modifyExec r f :
  (forall e, Exec.parserFlags (f e) = Exec.parserFlags e) ->
  keeps Extends (modifyExec r f).
Proof. intros Hf. apply ext_modify. leaf. Qed.

Lemma ext_modifyClosure r f :
  (forall c, Closure.scope (f c) = Closure.scope c) ->
  keeps Extends (modifyClosure r f).
Proof. intros Hf. apply ext_modify. leaf. Qed.

Lemma ext_modifyScope r f :
  (forall s, Scope.parent (f s) = Scope.parent s) ->
  keeps Extends (modifyScope r f).
Proof. intros Hf. apply ext_modify. leaf. Qed.

Lemma ext_pushCommandIndex c : keeps Extends (pushCommandIndex c).
Proof. apply ext_modify. leaf. Qed.

Lemma ext_drawUuid env : keeps Extends (drawUuid env).
Proof. intros p a q H. inversion H; subst. leaf. Qed.

Lemma ext_indexMacros env o t : keeps Extends (indexMacros env o t).
Proof. apply ext_modify. leaf. Qed.

Create HintDb keeps.
#[local] Hint Resolve ext_ret ext_gets ext_throw ext_outOfFuel ext_deref
  ext_take1 ext_take ext_setJumped ext_setFlags ext_testEscaped
  ext_testSymbol ext_newExecutor ext_pushCommandIndex ext_drawUuid
  ext_indexMacros : keeps.
#[local] Hint Extern 1 (keeps Extends (modifyExec _ _)) =>
  apply ext_modifyExec; intros; reflexivity : keeps.
#[local] Hint Extern 1 (keeps Extends (modifyClosure _ _)) =>
  apply ext_modifyClosure; intros; reflexivity : keeps.
#[local] Hint Extern 1 (keeps Extends (modifyScope _ _)) =>
  apply ext_modifyScope; intros; reflexivity : keeps.

(** Walk through a method built from [bind], the conditionals and
    [while], leaving to the hints what the methods it calls keep. *)
Ltac keeps_step :=
  lazymatch goal with
  | |- keeps _ (bind _ _) => apply ext_bind; [| intro]
  | |- keeps _ (while _ _ _ _) => apply ext_while; intro
  | |- keeps _ (if ?b then _ else _) => destruct b
  | |- keeps _ (match ?x with _ => _ end) => destruct x
  | |- keeps _ _ => solve [auto with keeps]
  end.
Ltac keeps_walk := repeat keeps_step.


Lemma ext_discardWhitespace : keeps Extends discardWhitespace.
Proof. unfold discardWhitespace. keeps_walk. Qed.
#[local] Hint Resolve ext_discardWhitespace : keeps.

Lemma ext_getClosureScope r : keeps Extends (getClosureScope r).
Proof. unfold getClosureScope. keeps_walk. Qed.

Lemma ext_getScopeParent r : keeps Extends (getScopeParent r).
Proof. unfold getScopeParent. keeps_walk. Qed.

Lemma ext_getExec r : keeps Extends (getExec r).
Proof. unfold getExec. keeps_walk. Qed.

Lemma ext_pushVariableName v : keeps Extends (pushVariableName v).
Proof. unfold pushVariableName. keeps_walk. Qed.

Lemma ext_pushScopeIndex : keeps Extends pushScopeIndex.
Proof.
  unfold pushScopeIndex. keeps_walk. apply ext_modify. leaf.
Qed.

Lemma ext_pushToCurrentClosure e : keeps Extends (pushToCurrentClosure e).
Proof. unfold pushToCurrentClosure. keeps_walk. Qed.

Lemma ext_toStringOf env v : keeps Extends (toStringOf env v).
Proof. unfold toStringOf. keeps_walk. Qed.

#[local] Hint Resolve ext_getClosureScope ext_getScopeParent ext_getExec
  ext_pushVariableName ext_pushScopeIndex ext_pushToCurrentClosure
  ext_toStringOf : keeps.

Lemma ext_pushSynthetic env s e n args :
  keeps Extends (pushSynthetic env s e n args).
Proof. unfold pushSynthetic. keeps_walk. Qed.
#[local] Hint Resolve ext_pushSynthetic : keeps.

Lemma ext_rewriteGetvar env l c n i m :
  keeps Extends (rewriteGetvar env l c n i m).
Proof. unfold rewriteGetvar. keeps_walk. Qed.
#[local] Hint Resolve ext_rewriteGetvar : keeps.

Lemma ext_replaceGetvarFrom env l s :
  forall skip idx, keeps Extends (replaceGetvarFrom env l s skip idx).
Proof.
  induction s as [|c s IH]; intros skip idx; cbn [replaceGetvarFrom].
  - keeps_walk.
  - destruct skip; [| apply IH].
    destruct (matchGetvar (String c s)) as [[[cmd name] mlen]|];
      keeps_walk; apply IH.
Qed.
#[local] Hint Resolve ext_replaceGetvarFrom : keeps.

Lemma ext_replaceIfFlag env v : keeps Extends (replaceIfFlag env v).
Proof. unfold replaceIfFlag, replaceGetvar. keeps_walk. Qed.
#[local] Hint Resolve ext_replaceIfFlag : keeps.

(** *** The methods of the parser extend the instance *)

Lemma ext_testClosure : keeps Extends testClosure.
Proof. unfold testClosure. keeps_walk. Qed.

Lemma ext_testClosureEnd : keeps Extends testClosureEnd.
Proof. unfold testClosureEnd. keeps_walk. Qed.
#[local] Hint Resolve ext_testClosure ext_testClosureEnd : keeps.

Lemma ext_testCommandEnd : keeps Extends testCommandEnd.
Proof. unfold testCommandEnd. keeps_walk. Qed.
#[local] Hint Resolve ext_testCommandEnd : keeps.

Lemma ext_testQuotedValue : keeps Extends testQuotedValue.
Proof. unfold testQuotedValue. keeps_walk. Qed.

Lemma ext_testQuotedValueEnd : keeps Extends testQuotedValueEnd.
Proof. unfold testQuotedValueEnd. keeps_walk. Qed.

Lemma ext_testListValue : keeps Extends testListValue.
Proof. unfold testListValue. keeps_walk. Qed.

Lemma ext_testListValueEnd : keeps Extends testListValueEnd.
Proof. unfold testListValueEnd. keeps_walk. Qed.

Lemma ext_testValue : keeps Extends testValue.
Proof. unfold testValue. keeps_walk. Qed.

Lemma ext_testValueEnd : keeps Extends testValueEnd.
Proof. unfold testValueEnd. keeps_walk. Qed.

Lemma ext_takeEscaped : keeps Extends takeEscaped.
Proof. unfold takeEscaped. keeps_walk. Qed.

Lemma ext_testNamedArgument : keeps Extends testNamedArgument.
Proof. unfold testNamedArgument. keeps_walk. Qed.

Lemma ext_testUnnamedArgument : keeps Extends testUnnamedArgument.
Proof. unfold testUnnamedArgument. keeps_walk. Qed.

Lemma ext_testUnnamedArgumentEnd : keeps Extends testUnnamedArgumentEnd.
Proof. unfold testUnnamedArgumentEnd. keeps_walk. Qed.

#[local] Hint Resolve ext_testQuotedValue ext_testQuotedValueEnd
  ext_testListValue ext_testListValueEnd ext_testValue ext_testValueEnd
  ext_takeEscaped ext_testNamedArgument ext_testUnnamedArgument
  ext_testUnnamedArgumentEnd : keeps.

Lemma ext_testBreakPoint : keeps Extends testBreakPoint.
Proof. unfold testBreakPoint. keeps_walk. Qed.
Lemma ext_testBreak : keeps Extends testBreak.
Proof. unfold testBreak. keeps_walk. Qed.
Lemma ext_testBlockComment : keeps Extends testBlockComment.
Proof. unfold testBlockComment. keeps_walk. Qed.
Lemma ext_testBlockCommentEnd : keeps Extends testBlockCommentEnd.
Proof. unfold testBlockCommentEnd. keeps_walk. Qed.
Lemma ext_testComment : keeps Extends testComment.
Proof. unfold testComment. keeps_walk. Qed.
Lemma ext_testCommentEnd : keeps Extends testCommentEnd.
Proof. unfold testCommentEnd. keeps_walk. Qed.
Lemma ext_testParserFlag : keeps Extends testParserFlag.
Proof. unfold testParserFlag. keeps_walk. Qed.
Lemma ext_testRunShorthand : keeps Extends testRunShorthand.
Proof. unfold testRunShorthand. keeps_walk. Qed.
Lemma ext_testRunShorthandEnd : keeps Extends testRunShorthandEnd.
Proof. unfold testRunShorthandEnd. keeps_walk. Qed.
Lemma ext_testCommand : keeps Extends testCommand.
Proof. unfold testCommand. keeps_walk. Qed.

#[local] Hint Resolve ext_testBreakPoint ext_testBreak ext_testBlockComment
  ext_testBlockCommentEnd ext_testComment ext_testCommentEnd
  ext_testParserFlag ext_testRunShorthand ext_testRunShorthandEnd
  ext_testCommand : keeps.

(** A fresh executor may receive its flag snapshot: no older executor
    changes. *)
Lemma ext_newExecutor_snapshot {A} c st (k : nat -> M A) :
  (forall cmd, keeps Extends (k cmd)) ->
  keeps Extends
    (bind (newExecutor c st) (fun cmd =>
     bind (gets flags) (fun f =>
     bind (modifyExec cmd (Exec.setParserFlags f)) (fun _ => k cmd)))).
Proof.
  intros Hk p a q H. cbn in H.
  eapply Extends_trans; [| eapply Hk; exact H].
  leaf. intros r x Hx. rewrite nth_error_updNth, nth_error_snoc.
  assert (r < List.length (executors p))%nat
    by (apply nth_error_Some; congruence).
  destruct (Nat.eqb_spec r (List.length (executors p))); [lia |].
  eauto.
Qed.

(** What [parseClosure] guarantees between the instance it is called on
    and the one it returns, [cl] being the closure it returns: beyond
    what [Extends] says, the closure is new, its scope is a child of the
    scope current at the call, the current scope is that scope again,
    and the entry the call appended to the closure-span index runs from
    one past the cursor at the call to one before the cursor at the
    return. *)
Record ClosureRun (isRoot : bool) (p : Parser) (cl : nat) (q : Parser)
    : Prop := mkClosureRun {
  run_text : text q = text p;
  run_index : index p + (if isRoot then 0 else 4) <= index q;
  run_scope : scope q = scope p;
  run_closure :
    closure q = match closure p with Some o => Some o | None => Some cl end;
  run_new : cl = List.length (closures p);
  run_child :
    exists c s,
      nth_error (closures q) cl = Some c
      /\ nth_error (scopes q) (Closure.scope c) = Some s
      /\ Scope.parent s = scope p;
  run_closures : preserved Closure.scope (closures p) (closures q);
  run_scopes : preserved Scope.parent (scopes p) (scopes q);
  run_executors : preserved Exec.parserFlags (executors p) (executors q);
  run_balance :
    (List.length (closures q) + List.length (closureIndex p)
     = List.length (closures p) + List.length (closureIndex q))%nat;
  run_spans_old :
    forall k s, nth_error (closureIndex p) k = Some s ->
                nth_error (closureIndex q) k = Some s;
  run_span_own :
    nth_error (closureIndex q) (List.length (closureIndex p))
    = Some (Span.mk (index p + 1) (Some (index q - 1)));
  run_spans_new :
    forall k s, (List.length (closureIndex p) < k)%nat ->
                nth_error (closureIndex q) k = Some s -> closedSpan s;
  run_root : scope p = None -> Js.len (text q) <= index q;
  run_uuid : (uuidCount p <= uuidCount q)%nat
}.

Lemma ClosureRun_extends p cl q : ClosureRun false p cl q -> Extends p q.
Proof.
  intros [t i s c n ch cs ss es b o own nw _ u].
  constructor; auto.
  - lia.
  - intros Hc. rewrite c. destruct (closure p); congruence.
  - intros k sp Hk H.
    destruct (Nat.eq_dec k (List.length (closureIndex p))) as [->|Hne].
    + rewrite own in H. inversion H; subst. eexists; split; [reflexivity |].
      cbn. lia.
    + apply (nw k); [lia | assumption].
Qed.

(** The discarded marker: two characters, except for the root; nothing
    but the cursor moves. *)
Lemma skipMarker_Ok (isRoot : bool) p a q :
  (if isRoot then ret tt else (_ <- take 2 ;; ret tt)) p = Ok a q ->
  index p + (if isRoot then 0 else 2) <= index q
  /\ text q = text p /\ scope q = scope p /\ closure q = closure p
  /\ closures q = closures p /\ scopes q = scopes p
  /\ executors q = executors p /\ closureIndex q = closureIndex p
  /\ uuidCount q = uuidCount p.
Proof.
  destruct isRoot; intros H; inversion H; subst; cbn; repeat split; lia.
Qed.

Lemma getClosureScope_Ok r p sc q :
  getClosureScope r p = Ok sc q ->
  q = p /\ exists c, nth_error (closures p) r = Some c /\ sc = Closure.scope c.
Proof.
  unfold getClosureScope, deref, bind, ret.
  destruct (nth_error (closures p) r) as [c|]; [| discriminate].
  intros H. inversion H; subst. eauto.
Qed.

Lemma getScopeParent_Ok r p par q :
  getScopeParent (Some r) p = Ok par q ->
  q = p /\ exists s, nth_error (scopes p) r = Some s /\ par = Scope.parent s.
Proof.
  unfold getScopeParent, deref, bind, ret.
  destruct (nth_error (scopes p) r) as [s|]; [| discriminate].
  intros H. inversion H; subst. eauto.
Qed.

(** At the root, where the scope has no parent, the end test of a
    closure succeeds at the end of the text only. *)
Lemma testClosureEnd_root p q r s :
  testClosureEnd p = Ok true q ->
  scope p = Some r -> nth_error (scopes p) r = Some s ->
  Scope.parent s = None ->
  q = p /\ Js.len (text p) <= index p.
Proof.
  intros H Hr Hs Hp.
  unfold testClosureEnd, getScopeParent, deref, bind, gets, ret in H.
  rewrite Hr, Hs, Hp in H. cbn in H. inversion H as [[Hd Hq]].
  split; [reflexivity |]. unfold atEnd in Hd. apply Z.leb_le.
  rewrite <- Hq. exact Hd.
Qed.

(** One step forward in a run that returned: name the instance [q]
    the step returns and record in [E] that the step extends the
    instance. *)
Ltac forward H E q :=
  let a := fresh "a" in
  apply bind_Ok in H as (a & q & E & H);
  match type of E with
  | ?m _ = Ok _ _ =>
      let K := fresh "K" in
      assert (K : keeps Extends m)
        by (first [solve [auto with keeps] | solve [keeps_walk]]);
      apply K in E; clear K
  end.

(** Run the steps that only read or write fields of the instance. *)
Ltac run_fields H :=
  cbn [bind gets modify ret newClosure newScope modifyClosure modifyExec
       modifyScope initClosure
       verifyCommandNames text index debugController scope closure
       flags jumpedEscapeSequence closureIndex macroIndex commandIndex scopeIndex
       parserContext scopes closures executors uuidCount
       setVerifyCommandNames setText setIndex setDebugController setScope
       setClosure setFlags setJumpedEscapeSequence setClosureIndex
       setMacroIndex setCommandIndex setScopeIndex setParserContext
       setScopes setClosures setExecutors setUuidCount] in H.

(** Run the steps that only read fields of the instance. *)
Ltac run_reads H :=
  cbn [bind gets ret
       verifyCommandNames text index debugController scope closure
       flags jumpedEscapeSequence closureIndex macroIndex commandIndex scopeIndex
       parserContext scopes closures executors uuidCount
       setVerifyCommandNames setText setIndex setDebugController setScope
       setClosure setFlags setJumpedEscapeSequence setClosureIndex
       setMacroIndex setCommandIndex setScopeIndex setParserContext
       setScopes setClosures setExecutors setUuidCount] in H.

Section BodyKeeps.
Variable env : Env.
Variable fuel : nat.
Variable rec : bool -> M nat.
Hypothesis rec_extends : keeps Extends (rec false).
#[local] Hint Resolve rec_extends : keeps.

Lemma ext_takeUntil test v :
  keeps Extends test -> keeps Extends (takeUntil fuel test v).
Proof. intros H. unfold takeUntil. keeps_walk. Qed.
#[local] Hint Resolve ext_takeUntil : keeps.

Lemma ext_parseQuotedValue : keeps Extends (parseQuotedValue env fuel).
Proof. unfold parseQuotedValue. keeps_walk. Qed.

Lemma ext_parseListValue : keeps Extends (parseListValue env fuel).
Proof. unfold parseListValue. keeps_walk. Qed.

Lemma ext_parseValue : keeps Extends (parseValue env fuel).
Proof. unfold parseValue. keeps_walk. Qed.
#[local] Hint Resolve ext_parseQuotedValue ext_parseListValue ext_parseValue
  : keeps.

Lemma ext_parseNamedArgument :
  keeps Extends (parseNamedArgument env fuel rec).
Proof. unfold parseNamedArgument. keeps_walk. Qed.
#[local] Hint Resolve ext_parseNamedArgument : keeps.

Lemma ext_takeQuotedElement st :
  keeps Extends (takeQuotedElement env fuel st).
Proof. unfold takeQuotedElement. keeps_walk. Qed.

Lemma ext_takeSplitElement parse q st :
  keeps Extends parse -> keeps Extends (takeSplitElement parse q st).
Proof. intros H. unfold takeSplitElement. keeps_walk. Qed.
#[local] Hint Resolve ext_takeQuotedElement ext_takeSplitElement : keeps.

Lemma ext_unnamedStep sc st : keeps Extends (unnamedStep env fuel rec sc st).
Proof. unfold unnamedStep. keeps_walk. Qed.
#[local] Hint Resolve ext_unnamedStep : keeps.

Lemma ext_scanUnnamedArgument s sc r :
  keeps Extends (scanUnnamedArgument env fuel rec s sc r).
Proof. unfold scanUnnamedArgument. keeps_walk. Qed.
#[local] Hint Resolve ext_scanUnnamedArgument : keeps.

Lemma ext_parseUnnamedArgument s sc r :
  keeps Extends (parseUnnamedArgument env fuel rec s sc r).
Proof. unfold parseUnnamedArgument. keeps_walk. Qed.
#[local] Hint Resolve ext_parseUnnamedArgument : keeps.

Lemma ext_parseBreakPoint : keeps Extends (parseBreakPoint env).
Proof. unfold parseBreakPoint. keeps_walk. Qed.

Lemma ext_parseBreak : keeps Extends (parseBreak env fuel rec).
Proof. unfold parseBreak. keeps_walk. Qed.

Lemma ext_parseBlockComment n : keeps Extends (parseBlockComment env n).
Proof.
  induction n as [|n IH]; cbn [parseBlockComment]; keeps_walk.
Qed.

Lemma ext_parseComment : keeps Extends (parseComment env fuel).
Proof. unfold parseComment. keeps_walk. Qed.

Lemma ext_parseParserFlag : keeps Extends (parseParserFlag env fuel rec).
Proof. unfold parseParserFlag. keeps_walk. Qed.

Lemma ext_parseRunShorthand : keeps Extends (parseRunShorthand env fuel rec).
Proof. unfold parseRunShorthand. keeps_walk. Qed.

Lemma ext_registerLet e : keeps Extends (registerLet env e).
Proof. unfold registerLet. keeps_walk. Qed.

Lemma ext_registerImport n :
  forall value, keeps Extends (registerImport env n value).
Proof.
  induction n as [|n IH]; intros value; cbn [registerImport]; keeps_walk;
    apply IH.
Qed.
#[local] Hint Resolve ext_registerLet ext_registerImport : keeps.

Lemma ext_parseCommand : keeps Extends (parseCommand env fuel rec).
Proof.
  unfold parseCommand. apply ext_bind; [auto with keeps | intros i].
  apply ext_newExecutor_snapshot. intros cmd. keeps_walk.
Qed.

#[local] Hint Resolve ext_parseBreakPoint ext_parseBreak
  ext_parseBlockComment ext_parseComment ext_parseParserFlag
  ext_parseRunShorthand ext_parseCommand : keeps.

Lemma ext_parsePipes b : keeps Extends (parsePipes b).
Proof. unfold parsePipes. keeps_walk. Qed.
#[local] Hint Resolve ext_parsePipes : keeps.

Lemma ext_parseStatement cl b :
  keeps Extends (parseStatement env fuel rec cl b).
Proof. unfold parseStatement. keeps_walk. Qed.
#[local] Hint Resolve ext_parseStatement : keeps.


Lemma parseClosureBody_run isRoot p cl q :
  parseClosureBody env fuel rec isRoot p = Ok cl q -> ClosureRun isRoot p cl q.
Proof.
  intros H. unfold parseClosureBody in H.
  run_fields H.
  apply bind_Ok in H as (u1 & p2 & HA & H).
  apply skipMarker_Ok
    in HA as (IA & At & As & Ac & Acs & Ass & Aes & Aci & Au).
  cbn in IA, At, As, Ac, Acs, Ass, Aes, Aci, Au. run_fields H.
  apply bind_Ok in H as (sc & p5 & HS & H).
  apply getClosureScope_Ok in HS as (-> & c0 & Hc0 & ->).
  run_fields Hc0.
  rewrite nth_error_updNth, nth_error_snoc, Nat.eqb_refl in Hc0.
  cbn in Hc0. inversion Hc0; subst c0; clear Hc0.
  cbn [Closure.scope Closure.init Closure.new] in H.
  run_fields H.
  match type of H with _ ?st = _ => remember st as p5 eqn:Ep5 end.
  assert (B5 : text p5 = text p /\ index p5 = index p2
               /\ closureIndex p5 = closureIndex p2
               /\ executors p5 = executors p2
               /\ nth_error (closures p5) (List.length (closures p2))
                  = Some (Closure.init (parserContext p2) (text p2)
                            (debugController p2)
                            (Closure.new (List.length (scopes p2))))
               /\ nth_error (scopes p5) (List.length (scopes p2))
                  = Some (Scope.new (scope p2))
               /\ preserved Closure.scope (closures p2) (closures p5)
               /\ preserved Scope.parent (scopes p2) (scopes p5)
               /\ List.length (closures p5) = S (List.length (closures p2))
               /\ uuidCount p5 = uuidCount p2).
  { subst p5. cbn. rewrite nth_error_updNth, !nth_error_snoc, !Nat.eqb_refl.
    rewrite length_updNth, length_app. cbn.
    repeat split; auto using preserved_snoc; try lia.
    eapply preserved_trans; [apply preserved_snoc |].
    apply preserved_updNth. reflexivity. }
  destruct B5
    as (B5t & B5i & B5ci & B5e & B5c & B5s & B5cs & B5ss & B5l & B5u).
  assert (B5sc : scope p5 = Some (List.length (scopes p2)))
    by (subst p5; reflexivity).
  clear Ep5.
  forward H E1 p6. forward H E2 p7.
  apply bind_Ok in H as (b3 & p8 & E3 & H).
  apply (while_exit Extends Extends_refl Extends_trans) in E3
    as (p8' & E3 & Hexit);
    [| intro; keeps_walk | intro; auto with keeps].
  apply bind_Ok in Hexit as (e3 & p8'' & Hend & Hexit).
  destruct e3; [| discriminate]. inversion Hexit; subst p8''; clear Hexit.
  assert (Hroot : scope p = None -> p8 = p8' /\ Js.len (text p8') <= index p8').
  { intros Hnone.
    pose proof (Extends_trans _ _ _ (Extends_trans _ _ _ E1 E2) E3) as X.
    destruct X as [_ _ Xs _ _ Xss _ _ _ _ _].
    apply Xss in B5s as (s' & Hs' & Es').
    eapply testClosureEnd_root; [exact Hend | | exact Hs' |].
    - rewrite Xs. exact B5sc.
    - rewrite Es'. cbn. congruence. }
  assert (E3' : Extends p8' p8) by (eapply ext_testClosureEnd; exact Hend).
  pose proof (Extends_trans _ _ _ E3 E3') as E38. clear E3 E3'.
  run_reads H. forward H E4 p9.
  pose proof (Extends_trans _ _ _ (Extends_trans _ _ _ E1 E2)
                (Extends_trans _ _ _ E38 E4)) as X1.
  assert (I89 : text p8 = text p9 /\ index p8 <= index p9)
    by (destruct E4; split; [congruence | lia]).
  clear E1 E2 E38 E4 Hend.
  apply bind_Ok in H as (u2 & p10 & HB & H).
  apply skipMarker_Ok
    in HB as (IB & Bt & Bs & Bc & Bcs & Bss & Bes & Bci & Bu).
  forward H E5 p11. forward H E6 p12.
  pose proof (Extends_trans _ _ _ E5 E6) as X2. clear E5 E6 p11.
  run_reads H.
  apply bind_Ok in H as (u3 & p13 & HM & H).
  inversion HM; subst u3 p13; clear HM.
  apply bind_Ok in H as (sc & p14 & HS & H).
  apply getClosureScope_Ok in HS as (-> & c1 & Hc1 & ->).
  apply bind_Ok in H as (par & p15 & HP & H).
  apply getScopeParent_Ok in HP as (-> & s1 & Hs1 & ->).
  run_fields H. inversion H; subst cl q; clear H.
  run_fields Hc1. run_fields Hs1.
  destruct X1 as [t1 i1 s1' c1' cs1 ss1 es1 b1 o1 n1 u1'].
  destruct X2 as [t2 i2 s2' c2' cs2 ss2 es2 b2 o2 n2 u2'].
  (* the closure and its scope, as the stores hold them at the end *)
  assert (Hcl : Closure.scope c1 = List.length (scopes p2)).
  { apply cs1 in B5c as (c' & Hc' & Ec').
    rewrite <- Bcs in Hc'. apply cs2 in Hc' as (c'' & Hc'' & Ec'').
    rewrite Hc'' in Hc1. inversion Hc1; subst c''. rewrite Ec'', Ec'.
    reflexivity. }
  assert (Hpar : Scope.parent s1 = scope p).
  { rewrite Hcl in Hs1.
    apply ss1 in B5s as (s' & Hs' & Es').
    rewrite <- Bss in Hs'. apply ss2 in Hs' as (s'' & Hs'' & Es'').
    rewrite Hs'' in Hs1. inversion Hs1; subst s''. rewrite Es'', Es'.
    cbn. congruence. }
  assert (Hown : nth_error (closureIndex p12) (List.length (closureIndex p))
                 = Some (Span.mk (index p + 1) None)).
  { apply o2. rewrite Bci. apply o1. rewrite B5ci, Aci, nth_error_snoc.
    rewrite Nat.eqb_refl. reflexivity. }
  assert (Hlen : List.length (closureIndex p5)
                 = S (List.length (closureIndex p))).
  { rewrite B5ci, Aci, length_app. cbn. lia. }
  constructor; run_fields Hs1; cbn.
  - congruence.
  - destruct isRoot; lia.
  - assumption.
  - rewrite Ac. reflexivity.
  - congruence.
  - exists c1, s1. auto.
  - rewrite <- Acs. eapply preserved_trans; [exact B5cs |].
    eapply preserved_trans; [exact cs1 |]. rewrite <- Bcs. exact cs2.
  - rewrite <- Ass. eapply preserved_trans; [exact B5ss |].
    eapply preserved_trans; [exact ss1 |]. rewrite <- Bss. exact ss2.
  - rewrite <- Aes, <- B5e. eapply preserved_trans; [exact es1 |].
    rewrite <- Bes. exact es2.
  - rewrite length_updNth. rewrite Bcs, Bci in b2. rewrite <- Acs. lia.
  - intros k s Hk. rewrite nth_error_updNth.
    assert (k < List.length (closureIndex p))%nat
      by (apply nth_error_Some; congruence).
    destruct (Nat.eqb_spec k (List.length (closureIndex p))); [lia |].
    apply o2. rewrite Bci. apply o1. rewrite B5ci, Aci.
    rewrite nth_error_app1 by assumption. assumption.
  - rewrite nth_error_updNth, Nat.eqb_refl, Hown. reflexivity.
  - intros k s Hk. rewrite nth_error_updNth.
    destruct (Nat.eqb_spec k (List.length (closureIndex p))); [lia |].
    intros Hs.
    destruct (nth_error (closureIndex p10) k) as [s'|] eqn:E10.
    + pose proof (o2 _ _ E10) as E12. rewrite E12 in Hs.
      inversion Hs; subst s'. rewrite Bci in E10.
      apply (n1 k); [lia | assumption].
    + apply nth_error_None in E10. apply (n2 k); assumption.
  - intros Hnone. destruct (Hroot Hnone) as (-> & Hlen8).
    destruct I89 as (T89 & I89). rewrite t2, Bt, <- T89.
    destruct isRoot; lia.
  - lia.
Qed.

(** A nested closure extends the instance. *)
Lemma ext_parseClosureBody :
  keeps Extends (parseClosureBody env fuel rec false).
Proof.
  intros p cl q H. eapply ClosureRun_extends, parseClosureBody_run, H.
Qed.


End BodyKeeps.

Lemma parseClosure_extends env fuel :
  keeps Extends (parseClosure env fuel false).
Proof.
  induction fuel as [|n IH]; cbn [parseClosure].
  - apply ext_outOfFuel.
  - apply ext_parseClosureBody. exact IH.
Qed.

Lemma parseClosure_run env fuel isRoot p cl q :
  parseClosure env fuel isRoot p = Ok cl q -> ClosureRun isRoot p cl q.
Proof.
  destruct fuel as [|n]; [discriminate |]. cbn [parseClosure].
  apply parseClosureBody_run, parseClosure_extends.
Qed.

(* ===================================================================== *)
(** ** Worked parses *)
(* ===================================================================== *)

(** A registry and surroundings to run the parser on: [echo] and [cmd]
    take one unsplit argument, [two] splits two arguments, [cap] splits
    with a cap of one, [let] and [import] split; the experimental macro
    engine is off and the identifier generator numbers its draws. *)
Definition exampleCommands (n : string) : option SlashCommand :=
  if String.eqb n "echo" then Some (mkCommand 1 false None false)
  else if String.eqb n "cmd" then Some (mkCommand 1 false None false)
  else if String.eqb n "cmd1" then Some (mkCommand 0 false None false)
  else if String.eqb n "cmd2" then Some (mkCommand 0 false None false)
  else if String.eqb n "two" then Some (mkCommand 2 true None false)
  else if String.eqb n "cap" then Some (mkCommand 2 true (Some 1%nat) false)
  else if String.eqb n "let" then Some (mkCommand 2 true (Some 1%nat) false)
  else if String.eqb n "import" then Some (mkCommand 1 true None false)
  else None.

Definition exampleUuid (n : nat) : string :=
  String (ascii_of_nat (97 + n)) EmptyString.

Definition exampleEnv : Env :=
  mkEnv exampleCommands exampleUuid false (None, None)
    (fun s => String.eqb s "on" || String.eqb s "true")
    (fun v => match v with
              | VString s => String.eqb s "off" || String.eqb s "false"
              | _ => false
              end)
    "[Closure]" (fun s => s).

(** Fuel that covers every worked parse below. *)
Definition ample : nat := 40.

(** The unnamed-argument parser run on [txt] from its first character,
    in a root closure, with strict escaping. *)
Definition unnamedOf (env : Env) (txt : string) (verify rewrite : bool)
    : Outcome (list Unnamed.t) :=
  parseUnnamedArgument env ample (parseClosure env ample) false None false
    (atRoot txt verify (mkFlags true rewrite)).

(** C1.  Under strict escaping the pipe of [abc \| def] is escaped: the
    unnamed-argument parser takes the whole text as the one value
    [abc | def], and [/echo abc \| def] is a single statement with that
    value.  In [abc \\| def] the first backslash escapes the second: the
    value is [abc \], the parser stops on the pipe with [ def] behind it,
    and [/echo abc \\| /echo def] is two statements with the values
    [abc \] and [def]. *)
Theorem C1_strict_escaping_of_pipe :
  forall (env : Env) (echo : SlashCommand) (verify rewrite debug : bool),
    commands env "echo" = Some echo ->
    splitUnnamedArgument echo = false ->
    (exists p,
        unnamedOf env "abc \| def" verify rewrite
        = Ok [Unnamed.mk (Some 0) (Some 10) (VString "abc | def")] p
        /\ atEnd p = true)
    /\ (exists p,
        unnamedOf env "abc \\| def" verify rewrite
        = Ok [Unnamed.mk (Some 0) (Some 6) (VString "abc \")] p
        /\ char p = Some "|"%char /\ ahead p = " def")
    /\ (exists root p e,
        parse env ample "/echo abc \| def" verify (Some true, Some rewrite)
          debug newParser = Ok root p
        /\ executorsOf p root = [e]
        /\ Exec.name e = "echo"
        /\ unnamedValues e = [VString "abc | def"])
    /\ (exists root p e1 e2,
        parse env ample "/echo abc \\| /echo def" verify
          (Some true, Some rewrite) debug newParser = Ok root p
        /\ executorsOf p root = [e1; e2]
        /\ unnamedValues e1 = [VString "abc \"]
        /\ unnamedValues e2 = [VString "def"]).
Proof.
  intros env echo verify rewrite debug Hreg Hsplit.
  destruct echo as [n sp sc rq]; cbn in Hsplit; subst sp.
  registered Hreg.
  repeat split.
  - destruct xme, verify, rewrite;
      (eexists; split; [vm_compute; reflexivity | reflexivity]).
  - destruct xme, verify, rewrite;
      (eexists; split; [vm_compute; reflexivity | split; reflexivity]).
  - destruct xme, verify, rewrite, debug, rq, n;
      (do 3 eexists; split; [vm_compute; reflexivity | repeat split]).
  - destruct xme, verify, rewrite, debug, rq, n;
      (do 4 eexists; split; [vm_compute; reflexivity | repeat split]).
Qed.

Lemma C1_strict_escaping_of_pipe_witness :
  commands exampleEnv "echo" = Some (mkCommand 1 false None false)
  /\ exists root p e,
       parse exampleEnv ample "/echo abc \| def" true (Some true, Some false)
         false newParser = Ok root p
       /\ executorsOf p root = [e]
       /\ Exec.name e = "echo"
       /\ unnamedValues e = [VString "abc | def"].
Proof.
  split; [reflexivity |].
  exact (proj1 (proj2 (proj2
    (C1_strict_escaping_of_pipe exampleEnv (mkCommand 1 false None false)
       true false false eq_refl eq_refl)))).
Defined.

(* ===================================================================== *)
(** ** Runs that return *)
(* ===================================================================== *)

(** [runs m p P]: from the instance [p] the method [m] returns, with a
    value and an instance that satisfy [P]. *)
Definition runs {A} (m : M A) (p : Parser) (P : A -> Parser -> Prop) : Prop :=
  exists a q, m p = Ok a q /\ P a q.

Lemma runs_Ok {A} (m : M A) p a q (P : A -> Parser -> Prop) :
  m p = Ok a q -> P a q -> runs m p P.
Proof. intros H HP. exists a, q. auto. Qed.

Lemma runs_bind {A B} (m : M A) (k : A -> M B) p (P : B -> Parser -> Prop) :
  runs m p (fun a p' => runs (k a) p' P) -> runs (bind m k) p P.
Proof.
  intros (a & p' & H & b & q & H' & HP). exists b, q. split; [| exact HP].
  unfold bind. rewrite H. exact H'.
Qed.

Lemma runs_ret {A} (a : A) p (P : A -> Parser -> Prop) :
  P a p -> runs (ret a) p P.
Proof. intros H. exists a, p. auto. Qed.

Lemma runs_gets {A} (f : Parser -> A) p (P : A -> Parser -> Prop) :
  P (f p) p -> runs (gets f) p P.
Proof. intros H. exists (f p), p. auto. Qed.

Lemma runs_modify (f : Parser -> Parser) p (P : unit -> Parser -> Prop) :
  P tt (f p) -> runs (modify f) p P.
Proof. intros H. exists tt, (f p). auto. Qed.

Lemma runs_weaken {A} (m : M A) p (P Q : A -> Parser -> Prop) :
  runs m p P -> (forall a q, P a q -> Q a q) -> runs m p Q.
Proof. intros (a & q & H & HP) HQ. exists a, q. auto. Qed.

Lemma runs_deref {A} (store : Parser -> list A) n x p
    (P : A -> Parser -> Prop) :
  nth_error (store p) n = Some x -> P x p -> runs (deref store (Some n)) p P.
Proof.
  intros H HP. exists x, p. split; [| exact HP]. unfold deref. now rewrite H.
Qed.

(** *** The text around the cursor *)

(** [zip t i pre suf]: the cursor [i] splits the text [t] into what is
    behind it and what is at and ahead of it. *)
Definition zip (t : string) (i : Z) (pre suf : string) : Prop :=
  t = pre ++ suf /\ i = Js.len pre.

Definition headOf (s : string) : option ascii :=
  match s with String c _ => Some c | EmptyString => None end.

Definition tailOf (s : string) : string :=
  match s with String _ r => r | EmptyString => EmptyString end.

Definition isEmpty (s : string) : bool :=
  match s with EmptyString => true | _ => false end.

Lemma append_assoc (a b c : string) : (a ++ b) ++ c = a ++ (b ++ c).
Proof. induction a as [|x a IH]; cbn; [reflexivity | now rewrite IH]. Qed.

Lemma length_append (a b : string) :
  String.length (a ++ b) = (String.length a + String.length b)%nat.
Proof. induction a as [|x a IH]; cbn; [reflexivity | now rewrite IH]. Qed.

Lemma len_append (a b : string) : Js.len (a ++ b) = Js.len a + Js.len b.
Proof. unfold Js.len. rewrite length_append. lia. Qed.

Lemma len_nonneg (a : string) : 0 <= Js.len a.
Proof. unfold Js.len. lia. Qed.

Lemma drop_append (a b : string) : Js.drop (String.length a) (a ++ b) = b.
Proof. induction a as [|x a IH]; cbn; [destruct b; reflexivity | exact IH]. Qed.

Lemma drop_all (a : string) (n : nat) :
  (String.length a <= n)%nat -> Js.drop n a = EmptyString.
Proof.
  revert n. induction a as [|x a IH]; intros [|n] H; cbn in *;
    try reflexivity; try lia.
  apply IH. lia.
Qed.

Lemma get_append (a b : string) :
  String.get (String.length a) (a ++ b) = headOf b.
Proof.
  induction a as [|x a IH]; cbn; [destruct b; reflexivity | exact IH].
Qed.

Lemma zip_start t : zip t 0 EmptyString t.
Proof. split; reflexivity. Qed.

Lemma zip_next t i pre c suf :
  zip t i pre (String c suf) ->
  zip t (i + 1) (pre ++ String c EmptyString) suf.
Proof.
  intros [-> ->]. split.
  - rewrite append_assoc. reflexivity.
  - rewrite len_append. reflexivity.
Qed.

Lemma zip_charAt t i pre suf : zip t i pre suf -> Js.charAt t i = headOf suf.
Proof.
  intros [-> ->]. unfold Js.charAt, Js.len.
  destruct (Z.ltb_spec (Z.of_nat (String.length pre)) 0); [lia |].
  rewrite Nat2Z.id. apply get_append.
Qed.

Lemma zip_sliceFrom t i pre suf : zip t i pre suf -> Js.sliceFrom t i = suf.
Proof.
  intros [-> ->]. unfold Js.sliceFrom, Js.relIndex.
  pose proof (len_nonneg pre). pose proof (len_nonneg suf).
  destruct (Z.ltb_spec (Js.len pre) 0); [lia |].
  rewrite len_append, Z.min_l by lia. unfold Js.len. rewrite Nat2Z.id.
  apply drop_append.
Qed.

Lemma zip_ahead t i pre suf :
  zip t i pre suf -> Js.sliceFrom t (i + 1) = tailOf suf.
Proof.
  intros H. destruct suf as [|c suf].
  - destruct H as [-> ->]. unfold Js.sliceFrom, Js.relIndex.
    pose proof (len_nonneg pre).
    destruct (Z.ltb_spec (Js.len pre + 1) 0); [lia |].
    rewrite len_append. cbn [Js.len String.length Z.of_nat].
    rewrite Z.min_r by (unfold Js.len; lia).
    apply drop_all. rewrite length_append. unfold Js.len. cbn. lia.
  - apply zip_next in H. apply (zip_sliceFrom _ _ _ _ H).
Qed.

Lemma zip_atEnd t i pre suf : zip t i pre suf -> (Js.len t <=? i) = isEmpty suf.
Proof.
  intros [-> ->]. rewrite len_append. destruct suf as [|c suf]; cbn [isEmpty].
  - apply Z.leb_le. cbn. lia.
  - apply Z.leb_gt. unfold Js.len. cbn [String.length]. lia.
Qed.

(** The observations of the scanner, by what is at the cursor. *)
Section Observations.
Variables (p : Parser) (pre suf : string).
Hypothesis Hz : zip (text p) (index p) pre suf.

Lemma char_zip : char p = headOf suf.
Proof. apply (zip_charAt _ _ _ _ Hz). Qed.

Lemma ahead_zip : ahead p = tailOf suf.
Proof. apply (zip_ahead _ _ _ _ Hz). Qed.

Lemma atEnd_zip : atEnd p = isEmpty suf.
Proof. apply (zip_atEnd _ _ _ _ Hz). Qed.

Lemma spaceHere_zip : spaceHere p = Js.testSpace (headOf suf).
Proof. unfold spaceHere. now rewrite char_zip. Qed.

Lemma wordHere_zip : wordHere p = Js.testWord (headOf suf).
Proof. unfold wordHere. now rewrite char_zip. Qed.

Lemma nothingAhead_zip : nothingAhead p = isEmpty (tailOf suf).
Proof.
  unfold nothingAhead. rewrite ahead_zip.
  destruct (tailOf suf) as [|c r]; cbn [isEmpty]; [reflexivity |].
  apply Z.ltb_ge. unfold Js.len. cbn [String.length]. lia.
Qed.

(** A symbol tested at a cursor that is not on a backslash, no escape
    sequence having been jumped: the test is the match, and the
    instance stays. *)
Definition noEscape (s : string) : bool :=
  match s with
  | String c _ => negb (Ascii.eqb c "\")
  | EmptyString => true
  end.

Lemma testSymbol_zip sym :
  jumpedEscapeSequence p = false -> noEscape suf = true ->
  testSymbol sym 0 p = Ok (matches sym suf) p.
Proof.
  intros Hj Hn.
  unfold testSymbol, testSymbolLooseyGoosey, testEscaped, escapeOffset.
  rewrite Hj, !Z.add_0_r, (zip_charAt _ _ _ _ Hz), (zip_sliceFrom _ _ _ _ Hz).
  assert (E1 : match headOf suf with
               | Some c => if Ascii.eqb c "\" then 1 else 0
               | None => 0
               end = 0).
  { destruct suf as [|c r]; cbn in *; [reflexivity |].
    destruct (Ascii.eqb c "\"); [discriminate | reflexivity]. }
  assert (E2 : Js.leadingBackslashes suf = 0).
  { destruct suf as [|c r]; cbn in *; [reflexivity |].
    destruct (Ascii.eqb c "\"); [discriminate | reflexivity]. }
  rewrite E1, E2.
  destruct (negb (strict p)); cbn [Z.eqb];
    rewrite ?Z.add_0_r, (zip_sliceFrom _ _ _ _ Hz);
    destruct (matches sym suf); reflexivity.
Qed.

End Observations.

(** *** Command names *)

Fixpoint allWord (s : string) : bool :=
  match s with
  | EmptyString => true
  | String c r => Js.isWord c && allWord r
  end.

(** A name the statement loop hands to the generic command parser
    whatever follows it: word characters only, at least one, and neither
    of the two names the loop treats before. *)
Definition plainName (n : string) : bool :=
  negb (isEmpty n) && allWord n
  && negb (String.eqb n "break") && negb (String.eqb n "breakpoint").

(** What follows a name: nothing, white space or a pipe. *)
Definition stops (rest : string) : bool :=
  match rest with
  | EmptyString => true
  | String c _ => Js.isSpace c || isPipe c
  end.

Lemma word_facts c :
  Js.isWord c = true ->
  Js.isSpace c = false /\ isPipe c = false /\ Ascii.eqb c "\" = false
  /\ c <> "/"%char /\ c <> "#"%char /\ c <> "*"%char /\ c <> ":"%char
  /\ c <> "-"%char.
Proof.
  destruct c as [[] [] [] [] [] [] [] []]; intros H;
    try (vm_compute in H; discriminate H);
    repeat split; try reflexivity; discriminate.
Qed.

Lemma stop_facts c :
  Js.isSpace c || isPipe c = true ->
  Js.isWord c = false /\ c <> "/"%char /\ c <> "#"%char /\ c <> "*"%char
  /\ c <> ":"%char /\ c <> "-"%char.
Proof.
  destruct c as [[] [] [] [] [] [] [] []]; intros H;
    try (vm_compute in H; discriminate H);
    repeat split; try reflexivity; discriminate.
Qed.

Lemma prefix_cons a s1 b s2 :
  String.prefix (String a s1) (String b s2)
  = if Ascii.eqb a b then String.prefix s1 s2 else false.
Proof.
  cbn [String.prefix]. destruct (ascii_dec a b) as [->|Hne].
  - now rewrite Ascii.eqb_refl.
  - apply Ascii.eqb_neq in Hne. now rewrite Hne.
Qed.

(** A pattern of word characters that begins a name followed by
    something that stops it begins the name itself. *)
Lemma prefix_word w : forall n rest,
  allWord w = true -> allWord n = true -> stops rest = true ->
  String.prefix w (n ++ rest) = true -> exists n', n = w ++ n'.
Proof.
  induction w as [|a w IH]; intros n rest Hw Hn Hr H;
    [exists n; reflexivity |].
  cbn [allWord] in Hw. apply andb_prop in Hw as [Ha Hw].
  destruct n as [|c n].
  - exfalso. cbn [append] in H. destruct rest as [|r0 rest]; [discriminate |].
    rewrite prefix_cons in H.
    destruct (Ascii.eqb_spec a r0) as [->|]; [| discriminate].
    cbn [stops] in Hr. apply stop_facts in Hr. destruct Hr as [Hr _].
    congruence.
  - cbn [append] in H. rewrite prefix_cons in H.
    destruct (Ascii.eqb_spec a c) as [->|]; [| discriminate].
    cbn [allWord] in Hn. apply andb_prop in Hn as [_ Hn].
    destruct (IH n rest Hw Hn Hr H) as (n' & ->). exists n'. reflexivity.
Qed.

(** A pattern with a character [x] that is no word character behind
    word characters does not begin a name followed by something else
    than [x]. *)
Lemma prefix_break w x pat : forall n rest,
  allWord w = true -> Js.isWord x = false ->
  allWord n = true -> stops rest = true -> headOf rest <> Some x ->
  String.prefix (w ++ String x pat) (n ++ rest) = false.
Proof.
  induction w as [|a w IH]; intros n rest Hw Hx Hn Hr Hh.
  - cbn [append]. destruct n as [|c n]; cbn [append].
    + destruct rest as [|r0 rest]; [reflexivity |]. rewrite prefix_cons.
      destruct (Ascii.eqb_spec x r0) as [->|]; [| reflexivity].
      cbn in Hh. congruence.
    + rewrite prefix_cons.
      destruct (Ascii.eqb_spec x c) as [->|]; [| reflexivity].
      cbn [allWord] in Hn. apply andb_prop in Hn as [Hc _]. congruence.
  - cbn [allWord] in Hw. apply andb_prop in Hw as [Ha Hw].
    cbn [append]. destruct n as [|c n]; cbn [append].
    + destruct rest as [|r0 rest]; [reflexivity |]. rewrite prefix_cons.
      destruct (Ascii.eqb_spec a r0) as [->|]; [| reflexivity].
      cbn [stops] in Hr. apply stop_facts in Hr. destruct Hr as [Hr _].
      congruence.
    + rewrite prefix_cons.
      destruct (Ascii.eqb_spec a c) as [->|]; [| reflexivity].
      cbn [allWord] in Hn. apply andb_prop in Hn as [_ Hn].
      apply IH; assumption.
Qed.

Section PlainNames.
Variables (n rest : string).
Hypothesis Hn : plainName n = true.
Hypothesis Hr : stops rest = true.

Lemma plain_allWord : allWord n = true.
Proof.
  unfold plainName in Hn. repeat (apply andb_prop in Hn as [Hn ?]).
  assumption.
Qed.

Lemma plain_cons : exists c n', n = String c n' /\ Js.isWord c = true.
Proof.
  pose proof plain_allWord as Hw. destruct n as [|c n'].
  - discriminate.
  - cbn [allWord] in Hw. apply andb_prop in Hw as [Hc _]. eauto.
Qed.

Lemma stops_head x : Js.isWord x = false -> x <> " "%char -> x <> "|"%char ->
  (rest = EmptyString \/ exists r, rest = String " " (String "|" r)) ->
  headOf rest <> Some x.
Proof.
  intros _ Hs Hp [-> | (r & ->)]; cbn; congruence.
Qed.

(** The statement loop tests, in this order, for a block comment, a
    line comment, a parser flag, the run shorthand, a breakpoint and a
    break before it takes a statement for a command.  None of them
    matches at a plain name. *)
Lemma plain_not_blockComment :
  matches (Lit "/*") (String "/" (n ++ rest)) = false.
Proof.
  cbn [matches]. unfold Js.startsWith. rewrite prefix_cons.
  cbn [Ascii.eqb Bool.eqb].
  destruct plain_cons as (c & n' & E & Hc). rewrite E. cbn [append].
  rewrite prefix_cons. apply word_facts in Hc.
  destruct (Ascii.eqb_spec "*" c) as [<-|]; [| reflexivity].
  exfalso. intuition congruence.
Qed.

Lemma plain_not_comment :
  matches ReComment (String "/" (n ++ rest)) = false.
Proof.
  destruct plain_cons as (c & n' & E & Hc). rewrite E. cbn [append matches].
  apply word_facts in Hc. cbn [Ascii.eqb Bool.eqb].
  destruct (Ascii.eqb_spec c "/") as [->|];
    [exfalso; intuition congruence |].
  destruct (Ascii.eqb_spec c "#") as [->|];
    [exfalso; intuition congruence | reflexivity].
Qed.

Lemma plain_not_runShorthand :
  matches (Lit "/:") (String "/" (n ++ rest)) = false.
Proof.
  cbn [matches]. unfold Js.startsWith. rewrite prefix_cons.
  cbn [Ascii.eqb Bool.eqb].
  destruct plain_cons as (c & n' & E & Hc). rewrite E. cbn [append].
  rewrite prefix_cons. apply word_facts in Hc.
  destruct (Ascii.eqb_spec ":" c) as [<-|]; [| reflexivity].
  exfalso. intuition congruence.
Qed.

Lemma plain_not_parserFlag :
  headOf rest <> Some "-"%char ->
  matches (Lit "/parser-flag ") (String "/" (n ++ rest)) = false.
Proof.
  intros Hh. cbn [matches]. unfold Js.startsWith. rewrite prefix_cons.
  cbn [Ascii.eqb Bool.eqb].
  apply (prefix_break "parser" "-" "flag "); auto using plain_allWord.
Qed.

Lemma plain_not_breakPoint :
  matches ReBreakPoint (String "/" (n ++ rest)) = false.
Proof.
  cbn [matches]. unfold Js.startsWith.
  destruct (String.prefix "/breakpoint" (String "/" (n ++ rest))) eqn:E;
    [| reflexivity].
  rewrite prefix_cons in E. cbn [Ascii.eqb Bool.eqb] in E.
  pose proof plain_allWord as Hw. pose proof Hn as Hn'.
  apply prefix_word in E as (n' & E); auto.
  cbn [andb]. rewrite E in Hw, Hn' |- *. cbn [append Js.drop].
  destruct n' as [|c n'].
  - exfalso. unfold plainName in Hn'. cbn in Hn'. discriminate.
  - cbn [append allWord] in Hw.
    assert (Hc : Js.isWord c = true)
      by (repeat (apply andb_prop in Hw as [? Hw]); assumption).
    apply word_facts in Hc. destruct Hc as (Hs & Hp & _).
    cbn [append Js.trimStart]. rewrite Hs. exact Hp.
Qed.

Lemma plain_not_break :
  matches ReBreak (String "/" (n ++ rest)) = false.
Proof.
  cbn [matches]. unfold Js.startsWith.
  destruct (String.prefix "/break" (String "/" (n ++ rest))) eqn:E;
    [| reflexivity].
  rewrite prefix_cons in E. cbn [Ascii.eqb Bool.eqb] in E.
  pose proof plain_allWord as Hw. pose proof Hn as Hn'.
  apply prefix_word in E as (n' & E); auto.
  cbn [andb]. rewrite E in Hw, Hn' |- *. cbn [append Js.drop].
  destruct n' as [|c n'].
  - exfalso. unfold plainName in Hn'. cbn in Hn'. discriminate.
  - cbn [append allWord] in Hw.
    assert (Hc : Js.isWord c = true)
      by (repeat (apply andb_prop in Hw as [? Hw]); assumption).
    apply word_facts in Hc. destruct Hc as (Hs & Hp & _).
    cbn [append]. rewrite Hs, Hp. reflexivity.
Qed.

Lemma plain_command : matches (Lit "/") (String "/" (n ++ rest)) = true.
Proof.
  cbn [matches]. unfold Js.startsWith. rewrite prefix_cons.
  cbn [Ascii.eqb Bool.eqb]. destruct (n ++ rest); reflexivity.
Qed.

End PlainNames.

(** *** The tests and loops of a command, where the text is known *)

Lemma updNth_snoc {A} (l : list A) (f : A -> A) (x : A) :
  updNth (List.length l) f (l ++ [x])%list = (l ++ [f x])%list.
Proof. induction l as [|y l IH]; cbn; [reflexivity | now rewrite IH]. Qed.

Lemma nth_error_last {A} (l : list A) (x : A) :
  nth_error (l ++ [x])%list (List.length l) = Some x.
Proof. rewrite nth_error_snoc, Nat.eqb_refl. reflexivity. Qed.

(** The instance is in the root closure, not on an escape. *)
Record AtRoot (p : Parser) : Prop := mkAtRoot {
  root_scope : exists s sc,
      scope p = Some s /\ nth_error (scopes p) s = Some sc
      /\ Scope.parent sc = None;
  root_jumped : jumpedEscapeSequence p = false
}.

Section Known.
Variables (p : Parser) (pre suf : string).
Hypothesis Hz : zip (text p) (index p) pre suf.
Hypothesis Hroot : AtRoot p.

Lemma testClosureEnd_at : testClosureEnd p = Ok (isEmpty suf) p.
Proof.
  destruct Hroot as [(s & sc & Hs & Hsc & Hp) _].
  unfold testClosureEnd, getScopeParent, deref, bind, gets, ret.
  rewrite Hs, Hsc, Hp. cbn [isNone]. now rewrite (atEnd_zip _ _ _ Hz).
Qed.

Lemma testCommandEnd_at :
  noEscape suf = true ->
  testCommandEnd p = Ok (isEmpty suf || matches (Lit "|") suf) p.
Proof.
  intros Hn. unfold testCommandEnd, bind. rewrite testClosureEnd_at.
  destruct (isEmpty suf); [reflexivity |].
  apply (testSymbol_zip _ _ _ Hz); [apply Hroot | exact Hn].
Qed.

Lemma pushScopeIndex_at :
  exists sc, pushScopeIndex p
             = Ok tt (setScopeIndex (scopeIndex p ++ [sc])%list p).
Proof.
  destruct Hroot as [(s & sc & Hs & Hsc & Hp) _].
  exists (Scope.getCopy sc).
  unfold pushScopeIndex, deref, bind, gets, modify. now rewrite Hs, Hsc.
Qed.

Lemma discardWhitespace_none :
  Js.testSpace (headOf suf) = false -> discardWhitespace p = Ok tt p.
Proof.
  intros H. unfold discardWhitespace, bind, gets, ret. cbn [while].
  unfold bind, gets, ret. now rewrite (spaceHere_zip _ _ _ Hz), H.
Qed.

End Known.

(** The instance after [take()] and after one round of
    [discardWhitespace]. *)
Definition taken (p : Parser) : Parser :=
  setIndex (index p + 1) (setJumpedEscapeSequence false p).

Definition skipped (p : Parser) : Parser :=
  setJumpedEscapeSequence false (taken p).

Lemma take_one p : take 1 p = Ok (char p) (taken p).
Proof. reflexivity. Qed.

Lemma zip_taken p pre c suf :
  zip (text p) (index p) pre (String c suf) ->
  zip (text (taken p)) (index (taken p)) (pre ++ String c EmptyString) suf.
Proof. intros H. apply zip_next in H. exact H. Qed.

Lemma AtRoot_taken p : AtRoot p -> AtRoot (taken p).
Proof. intros [H _]. split; [exact H | reflexivity]. Qed.

Lemma discardWhitespace_one p pre c suf :
  zip (text p) (index p) pre (String c suf) ->
  Js.isSpace c = true -> Js.testSpace (headOf suf) = false ->
  discardWhitespace p = Ok tt (skipped p).
Proof.
  intros Hz Hc Hs.
  assert (L : (2 <= S (String.length (text p)))%nat).
  { destruct Hz as [-> _]. rewrite length_append. cbn. lia. }
  unfold discardWhitespace, bind at 1, gets at 1.
  destruct (S (String.length (text p))) as [|[|k]]; try lia.
  cbn [while]. unfold bind, gets, ret, modify.
  rewrite (spaceHere_zip _ _ _ Hz). cbn [headOf Js.testSpace]. rewrite Hc.
  rewrite take_one.
  pose proof (zip_taken _ _ _ _ Hz) as Hz'.
  assert (E : spaceHere (setJumpedEscapeSequence false (taken p)) = false).
  { rewrite <- Hs. apply (spaceHere_zip _ _ _ Hz'). }
  rewrite E. reflexivity.
Qed.

(** The name loop of [parseCommand]. *)
Section NameLoop.
Variable cmd : nat.

Definition nameCond : unit -> M bool :=
  fun _ =>
    sp <- gets spaceHere ;;
    if sp then ret false else (e <- testCommandEnd ;; ret (negb e)).

Definition nameBody : unit -> M unit :=
  fun _ =>
    c <- take 1 ;;
    modifyExec cmd (fun e => Exec.setName (Js.appendChar (Exec.name e) c) e).

(** The instance after one character of the name, and after the name. *)
Definition oneChar (c : ascii) (p : Parser) : Parser :=
  setExecutors
    (updNth cmd
       (fun e => Exec.setName (Js.appendChar (Exec.name e) (Some c)) e)
       (executors p))
    (taken p).

Fixpoint afterName (n : string) (p : Parser) : Parser :=
  match n with
  | EmptyString => p
  | String c n' => afterName n' (oneChar c p)
  end.

Lemma nameCond_stop p pre rest :
  zip (text p) (index p) pre rest -> AtRoot p -> stops rest = true ->
  nameCond tt p = Ok false p.
Proof.
  intros Hz Hroot Hr. unfold nameCond, bind, gets, ret.
  rewrite (spaceHere_zip _ _ _ Hz).
  destruct rest as [|c r]; cbn [headOf Js.testSpace].
  - rewrite (testCommandEnd_at _ _ _ Hz Hroot eq_refl). reflexivity.
  - destruct (Js.isSpace c) eqn:Es; [reflexivity |].
    cbn [stops] in Hr. rewrite Es in Hr. cbn [orb] in Hr.
    assert (Hn : noEscape (String c r) = true).
    { unfold isPipe in Hr. apply Ascii.eqb_eq in Hr. subst c. reflexivity. }
    rewrite (testCommandEnd_at _ _ _ Hz Hroot Hn).
    cbn [isEmpty orb matches]. unfold Js.startsWith. rewrite prefix_cons.
    unfold isPipe in Hr. rewrite Ascii.eqb_sym, Hr.
    destruct r; reflexivity.
Qed.

Lemma nameCond_go p pre c suf :
  zip (text p) (index p) pre (String c suf) -> AtRoot p ->
  Js.isWord c = true -> nameCond tt p = Ok true p.
Proof.
  intros Hz Hroot Hc. apply word_facts in Hc.
  destruct Hc as (Hs & Hp & Hb & _).
  unfold nameCond, bind, gets, ret.
  rewrite (spaceHere_zip _ _ _ Hz). cbn [headOf Js.testSpace]. rewrite Hs.
  assert (Hn : noEscape (String c suf) = true) by (cbn; now rewrite Hb).
  rewrite (testCommandEnd_at _ _ _ Hz Hroot Hn).
  cbn [isEmpty orb matches]. unfold Js.startsWith. rewrite prefix_cons.
  unfold isPipe in Hp. rewrite Ascii.eqb_sym, Hp. reflexivity.
Qed.

Lemma AtRoot_oneChar c p : AtRoot p -> AtRoot (oneChar c p).
Proof. intros [H _]. split; [exact H | reflexivity]. Qed.

Lemma nameLoop n : forall fuel p pre rest,
  (String.length n < fuel)%nat ->
  allWord n = true -> stops rest = true ->
  zip (text p) (index p) pre (n ++ rest) -> AtRoot p ->
  while fuel nameCond nameBody tt p = Ok tt (afterName n p).
Proof.
  induction n as [|c n IH]; intros fuel p pre rest Hf Hw Hr Hz Hroot;
    (destruct fuel as [|fuel]; [cbn in Hf; lia |]); cbn [while afterName].
  - unfold bind. cbn [append] in Hz.
    rewrite (nameCond_stop _ _ _ Hz Hroot Hr). reflexivity.
  - cbn [allWord] in Hw. apply andb_prop in Hw as [Hc Hw].
    cbn [append] in Hz. unfold bind at 1.
    rewrite (nameCond_go _ _ _ _ Hz Hroot Hc).
    unfold bind at 1.
    assert (Eb : nameBody tt p = Ok tt (oneChar c p)).
    { unfold nameBody, bind. rewrite take_one.
      rewrite (char_zip _ _ _ Hz). reflexivity. }
    rewrite Eb.
    apply (IH fuel (oneChar c p) (pre ++ String c EmptyString) rest);
      [cbn in Hf; lia | exact Hw | exact Hr | | apply AtRoot_oneChar, Hroot].
    apply (zip_taken _ _ _ _ Hz).
Qed.

(** What the name loop leaves. *)
Lemma afterName_frame n : forall p,
  text (afterName n p) = text p
  /\ index (afterName n p) = index p + Js.len n
  /\ verifyCommandNames (afterName n p) = verifyCommandNames p
  /\ debugController (afterName n p) = debugController p
  /\ scope (afterName n p) = scope p
  /\ closure (afterName n p) = closure p
  /\ flags (afterName n p) = flags p
  /\ closureIndex (afterName n p) = closureIndex p
  /\ macroIndex (afterName n p) = macroIndex p
  /\ commandIndex (afterName n p) = commandIndex p
  /\ scopeIndex (afterName n p) = scopeIndex p
  /\ parserContext (afterName n p) = parserContext p
  /\ scopes (afterName n p) = scopes p
  /\ closures (afterName n p) = closures p
  /\ uuidCount (afterName n p) = uuidCount p.
Proof.
  induction n as [|c n IH]; intros p; cbn [afterName].
  - repeat split. cbn. lia.
  - destruct (IH (oneChar c p))
      as (H1 & H2 & H3 & H4 & H5 & H6 & H7 & H8 & H9 & H10 & H11 & H12
          & H13 & H14 & H15).
    rewrite H1, H2, H3, H4, H5, H6, H7, H8, H9, H10, H11, H12, H13, H14,
      H15.
    repeat split. cbn [index oneChar taken setExecutors setIndex].
    unfold Js.len. cbn [String.length]. lia.
Qed.

Lemma afterName_jumped n p :
  jumpedEscapeSequence p = false ->
  jumpedEscapeSequence (afterName n p) = false.
Proof.
  revert p. induction n as [|c n IH]; intros p H; cbn [afterName];
    [exact H | apply IH; reflexivity].
Qed.

Lemma afterName_executors n : forall p l e,
  cmd = List.length l -> executors p = (l ++ [e])%list ->
  executors (afterName n p)
  = (l ++ [Exec.setName (Exec.name e ++ n) e])%list.
Proof.
  induction n as [|c n IH]; intros p l e Hc He; cbn [afterName].
  - rewrite He. destruct e. cbn.
    replace (name ++ EmptyString) with name; [reflexivity |].
    clear. induction name as [|x s IH]; cbn; [reflexivity | now rewrite <- IH].
  - rewrite (IH (oneChar c p) l
               (Exec.setName (Js.appendChar (Exec.name e) (Some c)) e) Hc).
    + destruct e. cbn. rewrite append_assoc. reflexivity.
    + cbn [oneChar taken executors setExecutors setIndex
           setJumpedEscapeSequence].
      rewrite He, Hc, updNth_snoc. reflexivity.
Qed.

Lemma afterName_zip n p pre rest :
  zip (text p) (index p) pre (n ++ rest) ->
  zip (text (afterName n p)) (index (afterName n p)) (pre ++ n) rest.
Proof.
  intros [Ht Hi]. destruct (afterName_frame n p) as (H1 & H2 & _).
  rewrite H1, H2. split.
  - rewrite Ht. symmetry. apply append_assoc.
  - rewrite Hi, len_append. reflexivity.
Qed.

Lemma afterName_root n p : AtRoot p -> AtRoot (afterName n p).
Proof.
  intros [(s & sc & Hs & Hsc & Hp) Hj].
  destruct (afterName_frame n p)
    as (H1 & H2 & H3 & H4 & H5 & H6 & H7 & H8 & H9 & H10 & H11 & H12
        & H13 & H14 & H15).
  split; [| apply afterName_jumped, Hj].
  exists s, sc. rewrite H5, H13. auto.
Qed.

End NameLoop.

Lemma afterName_eq cmd n p l e :
  jumpedEscapeSequence p = false ->
  cmd = List.length l -> executors p = (l ++ [e])%list ->
  afterName cmd n p
  = setExecutors (l ++ [Exec.setName (Exec.name e ++ n) e])%list
      (setIndex (index p + Js.len n) p).
Proof.
  intros Hj Hc He.
  destruct (afterName_frame cmd n p)
    as (H1 & H2 & H3 & H4 & H5 & H6 & H7 & H8 & H9 & H10 & H11 & H12
        & H13 & H14 & H15).
  pose proof (afterName_jumped cmd n p Hj) as H16.
  pose proof (afterName_executors cmd n p l e Hc He) as H17.
  destruct (afterName cmd n p). cbn in *. subst.
  unfold setExecutors, setIndex. cbn. rewrite Hj. reflexivity.
Qed.

Lemma namedArgumentAhead_stop p pre suf :
  zip (text p) (index p) pre suf ->
  match suf with
  | EmptyString => True
  | String c _ => Js.isWord c = false
  end ->
  namedArgumentAhead p = false.
Proof.
  intros Hz H. unfold namedArgumentAhead.
  rewrite (char_zip _ _ _ Hz), (ahead_zip _ _ _ Hz).
  destruct suf as [|c r]; cbn [headOf tailOf].
  - reflexivity.
  - now rewrite H.
Qed.

(** Fields a command leaves untouched. *)
Record Kept (p q : Parser) : Prop := mkKept {
  kept_text : text q = text p;
  kept_scope : scope q = scope p;
  kept_closure : closure q = closure p;
  kept_scopes : scopes q = scopes p;
  kept_closures : closures q = closures p;
  kept_closureIndex : closureIndex q = closureIndex p;
  kept_verify : verifyCommandNames q = verifyCommandNames p;
  kept_debug : debugController q = debugController p;
  kept_context : parserContext q = parserContext p;
  kept_flags : flags q = flags p
}.

(** The separator behind a command: the end of the text, one pipe or
    two, with a blank on either side. *)
Inductive Sep : Type := SepPipe | SepPipes.

Definition sepText (s : Sep) : string :=
  match s with SepPipe => " | " | SepPipes => " || " end.

(** What may follow a command here: nothing, or a separator and the
    next statement. *)
Definition follows (rest : string) : Prop :=
  rest = EmptyString
  \/ exists s r, rest = sepText s ++ String "/" r.

Lemma follows_stops rest : follows rest -> stops rest = true.
Proof. intros [-> | ([] & r & ->)]; reflexivity. Qed.

(** Where the command parser stops: behind the blank. *)
Definition afterBlank (rest : string) : string :=
  match rest with
  | String _ r => r
  | EmptyString => EmptyString
  end.

Lemma zip_skip t i pre n rest :
  zip t i pre (n ++ rest) -> zip t (i + Js.len n) (pre ++ n) rest.
Proof.
  intros [-> ->]. split.
  - symmetry. apply append_assoc.
  - rewrite len_append. reflexivity.
Qed.

Ltac norm :=
  cbv beta delta
    [setVerifyCommandNames setText setIndex setDebugController setScope
     setClosure setFlags setJumpedEscapeSequence setClosureIndex
     setMacroIndex setCommandIndex setScopeIndex setParserContext
     setScopes setClosures setExecutors setUuidCount taken skipped];
  cbn [verifyCommandNames text index debugController scope closure flags
       jumpedEscapeSequence closureIndex macroIndex commandIndex scopeIndex
       parserContext scopes closures executors uuidCount];
  rewrite ?updNth_snoc.

(** Steps that compute their result from the instance. *)
Ltac go_direct := eapply runs_Ok; [reflexivity |]; norm.
Ltac go := apply runs_bind; go_direct.
Ltac look := apply runs_bind, runs_gets; norm.


(** Steps on a cursor whose surroundings [Hz] tells, in the root
    closure. *)
Ltac no_blank Hz :=
  lazymatch goal with
  | |- runs discardWhitespace ?s _ =>
      eapply runs_Ok;
      [apply (discardWhitespace_none s _ _ Hz); reflexivity |]
  end.

Ltac one_blank Hz :=
  lazymatch goal with
  | |- runs discardWhitespace ?s _ =>
      eapply runs_Ok;
      [apply (discardWhitespace_one s _ _ _ Hz); reflexivity |]; norm
  end.

Ltac rooted Hroot :=
  split; [exact (root_scope _ Hroot)
         | first [reflexivity | exact (root_jumped _ Hroot)]].

Ltac eval_match :=
  match goal with
  | |- context [matches ?sym ?t] =>
      first [replace (matches sym t) with true by reflexivity
            | replace (matches sym t) with false by reflexivity]
  end.

Ltac test_here Hz Hroot :=
  lazymatch goal with
  | |- runs (testSymbol ?sym 0) ?s _ =>
      eapply runs_Ok;
      [apply (testSymbol_zip s _ _ Hz sym);
       [first [reflexivity | exact (root_jumped _ Hroot)] | reflexivity] |];
      cbv beta
  end.

Ltac command_end Hz Hroot :=
  lazymatch goal with
  | |- runs testCommandEnd ?s _ =>
      eapply runs_Ok;
      [apply (testCommandEnd_at s _ _ Hz); [rooted Hroot | reflexivity] |];
      cbv beta;
      try match goal with
          | |- context [matches (Lit "|") ?t] =>
              replace (matches (Lit "|") t) with true by reflexivity
          end;
      cbn [isEmpty orb negb]
  end.

(** The part of [parseCommand] behind the name and the blank, on a
    cursor that is on a pipe or at the end. *)
Ltac command_tail Hz Hroot Hreg :=
  apply runs_bind; eapply runs_deref; [norm; apply nth_error_last |];
  cbv beta; cbn [Exec.name Exec.setName Exec.setParserFlags Exec.new append];
  look; look; rewrite Hreg; cbn [isNone]; rewrite andb_false_r;
  go; go; go;
  apply runs_bind; cbn [while]; apply runs_bind;
  unfold testNamedArgument; apply runs_gets;
  match goal with
  | |- context [namedArgumentAhead ?s] =>
      rewrite (namedArgumentAhead_stop s _ _ Hz); [| reflexivity]
  end;
  apply runs_ret;
  apply runs_bind; no_blank Hz;
  look; look; go; go;
  apply runs_bind; unfold testUnnamedArgument; apply runs_bind;
  command_end Hz Hroot;
  apply runs_ret; cbv beta; cbn [negb];
  apply runs_bind, runs_ret;
  apply runs_bind; command_end Hz Hroot;
  look; go; apply runs_ret.

Ltac norm_in H :=
  cbv beta delta
    [setVerifyCommandNames setText setIndex setDebugController setScope
     setClosure setFlags setJumpedEscapeSequence setClosureIndex
     setMacroIndex setCommandIndex setScopeIndex setParserContext
     setScopes setClosures setExecutors setUuidCount taken skipped] in H;
  cbn [verifyCommandNames text index debugController scope closure flags
       jumpedEscapeSequence closureIndex macroIndex commandIndex scopeIndex
       parserContext scopes closures executors uuidCount] in H.

Ltac command_post Hz Hroot :=
  split; [reflexivity |];
  split; [eexists; split; [reflexivity | repeat split] |];
  split; [eexists; exact Hz |];
  split; [rooted Hroot |];
  split; [constructor; reflexivity | reflexivity].

Section Command.

Variable env : Env.
Variable fuel : nat.
Variable rec : bool -> M nat.

Lemma parseCommand_plain p pre n rest c0 :
  zip (text p) (index p) pre (String "/" (n ++ rest)) ->
  AtRoot p ->
  plainName n = true -> follows rest ->
  commands env n = Some c0 ->
  (String.length n < fuel)%nat ->
  runs (parseCommand env fuel rec) p (fun cmd q =>
    cmd = List.length (executors p)
    /\ (exists e, executors q = (executors p ++ [e])%list
                  /\ Exec.name e = n /\ Exec.command e = Some c0
                  /\ Exec.parserFlags e = Some (flags p))
    /\ (exists pre', zip (text q) (index q) pre' (afterBlank rest))
    /\ AtRoot q /\ Kept p q
    /\ commandIndex q = (commandIndex p ++ [List.length (executors p)])%list).
Proof.
  intros Hz Hroot Hn Hf Hreg Hfuel.
  pose proof (plain_allWord _ Hn) as Hw.
  pose proof (follows_stops _ Hf) as Hstop.
  unfold parseCommand.
  look. go. look. go. go.
  apply runs_bind.
  match goal with
  | |- runs pushScopeIndex ?s _ =>
      destruct (pushScopeIndex_at s) as (sc0 & Epush);
        [split; [exact (root_scope _ Hroot) | exact (root_jumped _ Hroot)] |]
  end.
  eapply runs_Ok; [exact Epush |]; norm. clear Epush.
  go.
  apply runs_bind.
  match goal with
  | |- runs _ ?s _ =>
      assert (Hz1 : zip (text s) (index s) (pre ++ String "/" EmptyString)
                      (n ++ rest)) by apply (zip_next _ _ _ _ _ Hz);
      assert (Hr1 : AtRoot s) by rooted Hroot;
      eapply runs_Ok;
        [apply (nameLoop _ n fuel s _ rest Hfuel Hw Hstop Hz1 Hr1) |];
      rewrite (afterName_eq _ n s (executors p) _ (root_jumped _ Hr1)
                 eq_refl eq_refl)
  end.
  norm. clear Hr1.
  apply zip_skip in Hz1. norm_in Hz1.
  destruct fuel as [|fuel']; [lia |].
  destruct Hf as [-> | ([] & r & ->)]; cbn [sepText append] in *.
  - apply runs_bind. no_blank Hz1.
    command_tail Hz1 Hroot Hreg. command_post Hz1 Hroot.
  - apply runs_bind. one_blank Hz1. apply zip_next in Hz1.
    command_tail Hz1 Hroot Hreg. command_post Hz1 Hroot.
  - apply runs_bind. one_blank Hz1. apply zip_next in Hz1.
    command_tail Hz1 Hroot Hreg. command_post Hz1 Hroot.
Qed.

(** What follows a command: the end of the text, or a separator and
    the text [next] of the statements behind it. *)
Definition restOf (sep : option Sep) (next : string) : string :=
  match sep with
  | None => EmptyString
  | Some s => sepText s ++ next
  end.

(** Pipe injection for the statement behind the separator. *)
Definition injectBehind (sep : option Sep) : bool :=
  match sep with
  | Some SepPipes => false
  | _ => true
  end.

Lemma restOf_follows sep r : follows (restOf sep (String "/" r)).
Proof.
  destruct sep as [s|]; [right; exists s, r; reflexivity | left; reflexivity].
Qed.

Ltac statement_post :=
  lazymatch goal with
  | Hz' : zip _ _ _ _, Hr' : AtRoot _, Hname : Exec.name _ = _,
    Hcom : Exec.command _ = _, Hfl : Exec.parserFlags _ = _ |- _ =>
      split; [reflexivity |];
      split; [eexists; split; [reflexivity |];
              split; [exact Hname |];
              split; [exact Hcom |];
              split; [reflexivity | exact Hfl] |];
      split; [cbn [closures]; congruence |];
      split; [eexists; exact Hz' |];
      split; [rooted Hr' |];
      repeat split; assumption
  end.

(** One round of the statement loop on a plain command: the executor
    appended gets the pipe injection of the round, and the next round
    gets injection unless two pipes separate the statements. *)
Lemma parseStatement_plain p pre n sep r c0 cl inj :
  zip (text p) (index p) pre
    (String "/" (n ++ restOf sep (String "/" r))) ->
  AtRoot p ->
  plainName n = true ->
  commands env n = Some c0 ->
  (String.length n < fuel)%nat ->
  runs (parseStatement env fuel rec cl inj) p (fun b q =>
    b = injectBehind sep
    /\ (exists e, executors q = (executors p ++ [e])%list
                  /\ Exec.name e = n /\ Exec.command e = Some c0
                  /\ Exec.injectPipe e = Some inj
                  /\ Exec.parserFlags e = Some (flags p))
    /\ closures q
       = updNth cl (Closure.pushExecutor (List.length (executors p)))
           (closures p)
    /\ (exists pre',
          zip (text q) (index q) pre'
            (match sep with Some _ => String "/" r | None => EmptyString end))
    /\ AtRoot q
    /\ text q = text p /\ scope q = scope p /\ scopes q = scopes p
    /\ closure q = closure p /\ closureIndex q = closureIndex p
    /\ verifyCommandNames q = verifyCommandNames p
    /\ flags q = flags p
    /\ debugController q = debugController p
    /\ parserContext q = parserContext p).
Proof.
  intros Hz Hroot Hn Hreg Hfuel.
  pose proof (restOf_follows sep r) as Hf.
  pose proof (follows_stops _ Hf) as Hstop.
  unfold parseStatement.
  apply runs_bind. apply runs_bind.
  unfold testBlockComment. test_here Hz Hroot.
  rewrite (plain_not_blockComment _ _ Hn).
  apply runs_bind. unfold testComment. test_here Hz Hroot.
  rewrite (plain_not_comment _ _ Hn).
  apply runs_bind. unfold testParserFlag. test_here Hz Hroot.
  rewrite (plain_not_parserFlag _ _ Hn Hstop)
    by (destruct sep as [[]|]; discriminate).
  apply runs_bind. unfold testRunShorthand. apply runs_bind.
  test_here Hz Hroot. rewrite (plain_not_runShorthand _ _ Hn).
  apply runs_ret.
  apply runs_bind. unfold testBreakPoint. test_here Hz Hroot.
  rewrite (plain_not_breakPoint _ _ Hn Hstop).
  apply runs_bind. unfold testBreak. test_here Hz Hroot.
  rewrite (plain_not_break _ _ Hn Hstop).
  apply runs_bind. unfold testCommand. test_here Hz Hroot.
  rewrite (plain_command n).
  apply runs_bind.
  eapply runs_weaken;
    [apply (parseCommand_plain p pre n _ c0 Hz Hroot Hn Hf Hreg Hfuel) |].
  intros cmd q (Hc & (e & He & Hname & Hcom & Hfl) & (pre' & Hz') & Hr'
                & Hk & _).
  cbv beta. subst cmd.
  go. rewrite He. norm.
  go. apply runs_ret.
  destruct Hk as [K1 K2 K3 K4 K5 K6 K7 K8 K9 K10].
  unfold parsePipes.
  destruct sep as [[]|]; cbn [restOf sepText append afterBlank] in Hz';
    cbn [injectBehind].
  - apply runs_bind. no_blank Hz'.
    apply runs_bind. test_here Hz' Hr'. eval_match.
    apply runs_bind. go. apply zip_next in Hz'.
    apply runs_bind. test_here Hz' Hr'. eval_match.
    apply runs_ret.
    apply runs_bind. one_blank Hz'. apply zip_next in Hz'.
    apply runs_ret. statement_post.
  - apply runs_bind. no_blank Hz'.
    apply runs_bind. test_here Hz' Hr'. eval_match.
    apply runs_bind. go. apply zip_next in Hz'.
    apply runs_bind. test_here Hz' Hr'. eval_match.
    go. apply zip_next in Hz'. apply runs_ret.
    apply runs_bind. one_blank Hz'. apply zip_next in Hz'.
    apply runs_ret. statement_post.
  - apply runs_bind. no_blank Hz'.
    apply runs_bind. test_here Hz' Hr'. eval_match.
    apply runs_bind, runs_ret.
    apply runs_bind. no_blank Hz'.
    apply runs_ret. statement_post.
Qed.

End Command.

(** *** Scripts of plain commands *)

(** The text of a script: a command, and behind it any number of
    commands, each behind one pipe or two. *)
Fixpoint scriptTail (rest : list (Sep * string)) : string :=
  match rest with
  | [] => EmptyString
  | (s, m) :: rest' => sepText s ++ String "/" (m ++ scriptTail rest')
  end.

Definition scriptText (n : string) (rest : list (Sep * string)) : string :=
  String "/" (n ++ scriptTail rest).

(** The pipe injection of the commands of a script: on for the first,
    and for each of the others on behind one pipe, off behind two. *)
Definition injections (rest : list (Sep * string)) : list (option bool) :=
  Some true :: map (fun sm => Some (injectBehind (Some (fst sm)))) rest.

Lemma scriptText_length n rest :
  (String.length n + 1 <= String.length (scriptText n rest))%nat
  /\ (List.length rest + 1 <= String.length (scriptText n rest))%nat.
Proof.
  unfold scriptText. cbn [String.length]. rewrite length_append.
  assert (H : (List.length rest <= String.length (scriptTail rest))%nat).
  { induction rest as [|[s m] rest IH]; cbn [scriptTail List.length];
      [lia |].
    rewrite length_append. cbn [String.length]. rewrite length_append.
    destruct s; cbn [sepText String.length]; lia. }
  lia.
Qed.

(** The closure [cl] has received the executors [es], in order, and
    nothing else of it has changed. *)
Definition received (cl : nat) (p q : Parser) (es : list Exec.t) : Prop :=
  List.length (closures q) = List.length (closures p)
  /\ forall c, nth_error (closures p) cl = Some c ->
       exists c',
         nth_error (closures q) cl = Some c'
         /\ Closure.executorList c'
            = (Closure.executorList c
               ++ seq (List.length (executors p)) (List.length es))%list
         /\ Closure.scope c' = Closure.scope c.

Section Script.

Variable env : Env.
Variable fuel : nat.
Variable rec : bool -> M nat.
Variable cl : nat.

(** The statement loop of [parseClosure] over a script. *)
Lemma statements_plain rest : forall n p pre inj k,
  zip (text p) (index p) pre (scriptText n rest) ->
  AtRoot p ->
  Forall (fun m => plainName m = true /\ commands env m <> None
                   /\ (String.length m < fuel)%nat)
    (n :: map snd rest) ->
  (List.length rest + 1 < k)%nat ->
  runs (while k (fun _ => e <- testClosureEnd ;; ret (negb e))
          (parseStatement env fuel rec cl) inj) p
    (fun _ q =>
       (exists es,
           executors q = (executors p ++ es)%list
           /\ map Exec.name es = n :: map snd rest
           /\ map Exec.injectPipe es
              = Some inj
                :: map (fun sm => Some (injectBehind (Some (fst sm)))) rest
           /\ received cl p q es)
       /\ (exists pre', zip (text q) (index q) pre' EmptyString)
       /\ AtRoot q
       /\ text q = text p /\ scope q = scope p /\ scopes q = scopes p
       /\ closure q = closure p /\ closureIndex q = closureIndex p
       /\ parserContext q = parserContext p).
Proof.
  induction rest as [|[s m] rest IH]; intros n p pre inj k Hz Hroot Hall Hk.
  - inversion Hall as [|? ? (Hn & Hreg & Hfuel) _]; subst.
    destruct (commands env n) as [c0|] eqn:Ec; [| congruence].
    destruct k as [|[|k]]; try (cbn in Hk; lia).
    cbn [while]. apply runs_bind. apply runs_bind.
    eapply runs_Ok; [apply (testClosureEnd_at p _ _ Hz Hroot) |].
    apply runs_ret. cbn [isEmpty negb].
    apply runs_bind.
    eapply runs_weaken;
      [apply (parseStatement_plain env fuel rec p pre n None EmptyString c0
                cl inj Hz Hroot Hn Ec Hfuel) |].
    intros b q (_ & (e & He & Hname & _ & Hinj & _) & Hcl & (pre' & Hz')
                & Hr' & Ht & Hs & Hss & Hc & Hci & _ & _ & _ & Hctx).
    cbv beta. apply runs_bind. apply runs_bind.
    eapply runs_Ok; [apply (testClosureEnd_at q _ _ Hz' Hr') |].
    apply runs_ret. cbn [isEmpty negb]. apply runs_ret.
    split; [| split; [eauto | split; [exact Hr' | repeat split; assumption]]].
    exists [e]. split; [exact He |]. cbn [map]. rewrite Hname, Hinj.
    split; [reflexivity |]. split; [reflexivity |].
    split; [rewrite Hcl; apply length_updNth |].
    intros c Hcc. rewrite Hcl, nth_error_updNth, Nat.eqb_refl, Hcc.
    cbn [option_map]. eexists. split; [reflexivity |].
    split; reflexivity.
  - inversion Hall as [|? ? (Hn & Hreg & Hfuel) Hall']; subst.
    destruct (commands env n) as [c0|] eqn:Ec; [| congruence].
    cbn [map snd] in Hall'.
    destruct k as [|k]; [lia |].
    cbn [while]. apply runs_bind. apply runs_bind.
    eapply runs_Ok; [apply (testClosureEnd_at p _ _ Hz Hroot) |].
    apply runs_ret. cbn [isEmpty negb].
    apply runs_bind.
    eapply runs_weaken;
      [apply (parseStatement_plain env fuel rec p pre n (Some s)
                (m ++ scriptTail rest) c0 cl inj Hz Hroot Hn Ec Hfuel) |].
    intros b q (Hb & (e & He & Hname & _ & Hinj & _) & Hcl & (pre' & Hz')
                & Hr' & Ht & Hs & Hss & Hc & Hci & _ & _ & _ & Hctx).
    cbv beta. subst b.
    eapply runs_weaken;
      [apply (IH m q pre' (injectBehind (Some s)) k Hz' Hr' Hall');
       cbn [List.length] in Hk; lia |].
    intros _ q' ((es & Hes & Hnames & Hinjs & Hlen & Hrec) & Hz'' & Hr''
                 & Ht' & Hs' & Hss' & Hc' & Hci' & Hctx').
    split; [| split; [exact Hz'' | split; [exact Hr'' |]];
              repeat split; congruence].
    exists (e :: es). rewrite Hes, He, <- app_assoc. cbn [app map].
    rewrite Hname, Hinj, Hnames, Hinjs.
    split; [reflexivity |]. split; [reflexivity |]. split; [reflexivity |].
    split; [rewrite Hlen, Hcl; apply length_updNth |].
    intros c Hcc.
    destruct (Hrec (Closure.pushExecutor (List.length (executors p)) c))
      as (c' & Hc1 & Hc2 & Hc3).
    { rewrite Hcl, nth_error_updNth, Nat.eqb_refl, Hcc. reflexivity. }
    exists c'. split; [exact Hc1 |]. split; [| exact Hc3].
    rewrite Hc2, He, length_app. cbn [Closure.executorList
      Closure.pushExecutor List.length seq].
    rewrite <- app_assoc, Nat.add_1_r. reflexivity.
Qed.

End Script.

Lemma lookup_seq {A} (b : list A) : forall a,
  flat_map (fun r => match nth_error (a ++ b)%list r with
                     | Some e => [e]
                     | None => []
                     end) (seq (List.length a) (List.length b))
  = b.
Proof.
  induction b as [|x b IH]; intros a; cbn [List.length seq flat_map];
    [reflexivity |].
  rewrite nth_error_app2, Nat.sub_diag by lia. cbn [nth_error app].
  f_equal.
  replace (a ++ x :: b)%list with ((a ++ [x]) ++ b)%list
    by (rewrite <- app_assoc; reflexivity).
  replace (S (List.length a)) with (List.length (a ++ [x])%list)
    by (rewrite length_app; cbn; lia).
  apply IH.
Qed.

Lemma while_stop {A} (k : nat) (c : A -> M bool) (b : A -> M A) a p :
  (0 < k)%nat -> c a p = Ok false p -> while k c b a p = Ok a p.
Proof.
  intros Hk H. destruct k as [|k]; [lia |]. cbn [while]. unfold bind.
  rewrite H. reflexivity.
Qed.

(** The parse of a script of plain registered commands: one executor
    per command in the root closure, in order, under the names of the
    script, with the pipe injection the separators tell. *)
Lemma parse_script env fuel n rest verify given debug :
  Forall (fun m => plainName m = true /\ commands env m <> None)
    (n :: map snd rest) ->
  (String.length (scriptText n rest) < fuel)%nat ->
  runs (parse env fuel (scriptText n rest) verify given debug) newParser
    (fun root q =>
       map Exec.name (executorsOf q root) = n :: map snd rest
       /\ map Exec.injectPipe (executorsOf q root) = injections rest).
Proof.
  intros Hall Hfuel.
  destruct fuel as [|f]; [lia |].
  assert (Hall' : Forall (fun m => plainName m = true
                                   /\ commands env m <> None
                                   /\ (String.length m < f)%nat)
                    (n :: map snd rest)).
  { assert (L : forall l k,
               (String.length (scriptTail l) <= k)%nat ->
               Forall (fun m => (String.length m < k)%nat) (map snd l)).
    { induction l as [|[s m] l IHl]; intros k Hk; cbn [map snd];
        constructor; cbn [scriptTail] in Hk;
        rewrite length_append in Hk; cbn [String.length] in Hk;
        rewrite length_append in Hk.
      - destruct s; cbn [sepText String.length] in Hk; lia.
      - apply IHl. lia. }
    unfold scriptText in Hfuel. cbn [String.length] in Hfuel.
    rewrite length_append in Hfuel.
    assert (Hlen : Forall (fun m => (String.length m < f)%nat)
                     (n :: map snd rest)).
    { constructor; [lia | apply L; lia]. }
    clear L. revert Hall Hlen. generalize (n :: map snd rest).
    induction l as [|x l IHl]; intros H1 H2; constructor;
      inversion H1; inversion H2; subst; [tauto | auto]. }
  assert (Hk : (List.length rest + 1 < f)%nat).
  { destruct (scriptText_length n rest) as [H1 H2].
    assert (1 <= String.length n)%nat.
    { inversion Hall as [|? ? (Hn & _) _]; subst.
      destruct n; [discriminate | cbn; lia]. }
    unfold scriptText in *. cbn [String.length] in *.
    rewrite length_append in *.
    assert (List.length rest + List.length rest
            <= String.length (scriptTail rest))%nat.
    { clear. induction rest as [|[s m] rest IH];
        cbn [scriptTail List.length]; [lia |].
      rewrite length_append. cbn [String.length]. rewrite length_append.
      destruct s; cbn [sepText String.length]; lia. }
    destruct rest as [|sm rest']; cbn [List.length] in *; lia. }
  unfold parse.
  do 10 go.
  go. go.
  cbn [parseClosure]. unfold parseClosureBody.
  unfold newParser. norm.
  look. go. apply runs_bind, runs_ret.
  look. look. go. go. go. go. look. go.
  cbn [List.length app Closure.scope Closure.init Closure.new].
  match goal with
  | |- runs _ ?s _ =>
      assert (Hz0 : zip (text s) (index s) EmptyString (scriptText n rest))
        by apply zip_start;
      assert (Hr0 : AtRoot s)
        by (split; [exists 0%nat, (Scope.new None); repeat split
                   | reflexivity])
  end.
  apply runs_bind. no_blank Hz0.
  apply runs_bind.
  eapply runs_Ok.
  { apply while_stop; [lia |]. unfold testNamedArgument, gets.
    match goal with
    | |- context [namedArgumentAhead ?s] =>
        rewrite (namedArgumentAhead_stop s _ _ Hz0); reflexivity
    end. }
  apply runs_bind.
  eapply runs_weaken;
    [apply (statements_plain env f (parseClosure env f) 0 rest n _
              EmptyString true f Hz0 Hr0 Hall' Hk) |].
  clear Hz0 Hr0.
  intros _ q ((es & Hes & Hnames & Hinjs & Hlen & Hrec) & (pre' & Hz')
              & Hr' & Ht & Hs & Hss & Hc & Hci & Hctx).
  norm_in Hes. norm_in Hss. norm_in Hrec. cbn [app List.length] in Hes, Hrec.
  destruct (Hrec _ eq_refl) as (c' & Hc1 & Hc2 & Hc3). clear Hrec.
  cbn [Closure.executorList Closure.scope Closure.init Closure.new app]
    in Hc2, Hc3.
  cbv beta.
  look. look. go. apply runs_bind, runs_ret.
  apply runs_bind. test_here Hz' Hr'. eval_match.
  apply runs_bind, runs_ret.
  look. go.
  apply runs_bind. unfold getClosureScope. apply runs_bind.
  eapply runs_deref;
    [norm; rewrite nth_error_updNth, Nat.eqb_refl, Hc1; reflexivity |].
  apply runs_ret. cbv beta. cbn [Closure.scope Closure.setRawText].
  rewrite Hc3.
  apply runs_bind. unfold getScopeParent. apply runs_bind.
  eapply runs_deref; [norm; rewrite Hss; reflexivity |].
  apply runs_ret. cbv beta.
  go. go. apply runs_ret.
  unfold executorsOf. norm.
  rewrite nth_error_updNth, Nat.eqb_refl, Hc1.
  cbn [option_map Closure.executorList Closure.setRawText].
  rewrite Hc2, Hes.
  pose proof (lookup_seq es []) as L. cbn [app List.length] in L.
  rewrite L. split; [exact Hnames | exact Hinjs].
Qed.

(** C2.  For every script of registered commands with plain names,
    separated by one pipe or by two, a parse with enough fuel returns;
    the root closure holds one executor per command, in order; the first
    has pipe injection on, and each of the others has it on behind one
    pipe and off behind two.  So in [/cmd1 | /cmd2] the second executor
    has pipe injection on, in [/cmd1 || /cmd2] it has it off, and in
    [/cmd1 || /cmd2 | /cmd3] the third has it on again: two pipes
    switch it off for the one statement behind them. *)
Theorem C2_pipe_injection :
  forall (env : Env) (n : string) (rest : list (Sep * string)) (fuel : nat)
         (verify : bool) (given : option bool * option bool) (debug : bool),
    Forall (fun m => plainName m = true /\ commands env m <> None)
      (n :: map snd rest) ->
    (String.length (scriptText n rest) < fuel)%nat ->
    exists root q,
      parse env fuel (scriptText n rest) verify given debug newParser
      = Ok root q
      /\ map Exec.name (executorsOf q root) = n :: map snd rest
      /\ map Exec.injectPipe (executorsOf q root) = injections rest.
Proof.
  intros env n rest fuel verify given debug Hall Hfuel.
  exact (parse_script env fuel n rest verify given debug Hall Hfuel).
Qed.

Lemma C2_pipe_injection_witness :
  exists root q,
    parse exampleEnv ample "/cmd1 || /cmd2 | /cmd1" true
      (Some false, Some false) false newParser = Ok root q
    /\ map Exec.name (executorsOf q root) = ["cmd1"; "cmd2"; "cmd1"]
    /\ map Exec.injectPipe (executorsOf q root)
       = [Some true; Some false; Some true].
Proof.
  apply (C2_pipe_injection exampleEnv "cmd1"
           [(SepPipes, "cmd2"); (SepPipe, "cmd1")] ample true
           (Some false, Some false) false).
  - repeat constructor; discriminate.
  - vm_compute. lia.
Defined.

(** The list-value parser run on [txt] from its first character. *)
Definition listValueOf (env : Env) (txt : string) (verify : bool)
    (f : ParserFlags) : Outcome string :=
  parseListValue env ample (atRoot txt verify f).

(** C3.  The end test of a list value throws at the end of the text
    whatever the verification setting.  So the unterminated list
    [[1,2,3] throws at offset 6, the length of the input, with
    verification on and off alike, and so does a script that holds it as
    a list value ([/cmd key=[1,2,3], offset 15). *)
Theorem C3_unterminated_list :
  forall (env : Env) (c : SlashCommand) (verify debug : bool)
         (f : ParserFlags),
    commands env "cmd" = Some c ->
    (forall p, endOfText p = true ->
       testListValueEnd p
       = Throw (ParserError UnterminatedList (Some (index p))))
    /\ listValueOf env "[1,2,3" verify f
       = Throw (ParserError UnterminatedList (Some (Js.len "[1,2,3")))
    /\ parse env ample "/cmd key=[1,2,3" verify
         (Some (STRICT_ESCAPING f), Some (REPLACE_GETVAR f)) debug newParser
       = Throw (ParserError UnterminatedList (Some (Js.len "/cmd key=[1,2,3"))).
Proof.
  intros env c verify debug [st rw] Hreg.
  repeat split.
  - intros p Hend. unfold testListValueEnd, bind, gets. now rewrite Hend.
  - destruct verify, st, rw; vm_compute; reflexivity.
  - registered Hreg. destruct verify, st, rw, debug; vm_compute; reflexivity.
Qed.

Lemma C3_unterminated_list_witness :
  commands exampleEnv "cmd" = Some (mkCommand 1 false None false)
  /\ parse exampleEnv ample "/cmd key=[1,2,3" false (Some false, Some false)
       false newParser
     = Throw (ParserError UnterminatedList (Some 15)).
Proof.
  split; [reflexivity |].
  exact (proj2 (proj2
    (C3_unterminated_list exampleEnv (mkCommand 1 false None false)
       false false (mkFlags false false) eq_refl))).
Defined.

(** C4.  [/bogus] with an unregistered name: with verification on, the
    parser throws the unknown-command error at offset 1, where the name
    starts; with verification off it returns one executor named [bogus]
    whose command definition is missing. *)
Theorem C4_unknown_command :
  forall (env : Env) (strictly rewrite debug : bool),
    commands env "bogus" = None ->
    parse env ample "/bogus" true (Some strictly, Some rewrite) debug
      newParser
    = Throw (ParserError UnknownCommand (Some 1))
    /\ Js.sliceFrom "/bogus" 1 = "bogus"
    /\ exists root p e,
         parse env ample "/bogus" false (Some strictly, Some rewrite) debug
           newParser = Ok root p
         /\ executorsOf p root = [e]
         /\ Exec.name e = "bogus"
         /\ Exec.command e = None.
Proof.
  intros env strictly rewrite debug Hreg.
  registered Hreg.
  repeat split.
  - destruct strictly, rewrite, debug; vm_compute; reflexivity.
  - destruct strictly, rewrite, debug;
      (do 3 eexists; split; [vm_compute; reflexivity | repeat split]).
Qed.

Lemma C4_unknown_command_witness :
  commands exampleEnv "bogus" = None
  /\ parse exampleEnv ample "/bogus" true (Some false, Some false) false
       newParser
     = Throw (ParserError UnknownCommand (Some 1)).
Proof.
  split; [reflexivity |].
  exact (proj1 (C4_unknown_command exampleEnv false false false eq_refl)).
Defined.

(** The scanning loop of the unnamed-argument parser run on [txt] from
    its first character, for a command that splits its arguments with
    the cap [cap]. *)
Definition splitScanOf (env : Env) (txt : string) (cap : option nat)
    : Outcome ArgState :=
  scanUnnamedArgument env ample (parseClosure env ample) true cap false
    (atRoot txt true (mkFlags false false)).

(** The texts of the claim about splitting; [Js.quote] is the double
    quote. *)
Definition helloWorldExtra : string :=
  Js.quote ++ "hello world" ++ Js.quote ++ " extra".
Definition quotedA_b_c : string := Js.quote ++ "a" ++ Js.quote ++ " b c".
Definition quotedA_quotedB_c : string :=
  Js.quote ++ "a" ++ Js.quote ++ " " ++ Js.quote ++ "b" ++ Js.quote ++ "c".

(** C5.  A command of arity 2 that splits its unnamed arguments takes
    ["hello world" extra] as exactly two elements, [hello world], which
    the scan marks as quoted, and [extra].  A command that splits with a
    cap of 1 takes ["a" b c] as exactly two elements, [a] and [b c]; and
    where the elements behind the cap are joined back into one, as for
    ["a" "b"c], the quoted one gets its quotes back. *)
Theorem C5_split_unnamed_arguments :
  forall (env : Env) (two cap : SlashCommand) (verify strictly debug : bool),
    commands env "two" = Some two ->
    unnamedArgumentListLength two = 2%nat ->
    splitUnnamedArgument two = true ->
    splitUnnamedArgumentCount two = None ->
    commands env "cap" = Some cap ->
    unnamedArgumentListLength cap <> O ->
    splitUnnamedArgument cap = true ->
    splitUnnamedArgumentCount cap = Some 1%nat ->
    (exists st p,
        splitScanOf env helloWorldExtra None = Ok st p
        /\ map Unnamed.value (a_listValues st)
           = [VString "hello world"; VString "extra"]
        /\ a_listQuoted st = [true; false])
    /\ (exists root p e,
        parse env ample ("/two " ++ helloWorldExtra) verify
          (Some strictly, Some false) debug newParser = Ok root p
        /\ executorsOf p root = [e]
        /\ unnamedValues e = [VString "hello world"; VString "extra"])
    /\ (exists root p e,
        parse env ample ("/cap " ++ quotedA_b_c) verify
          (Some strictly, Some false) debug newParser = Ok root p
        /\ executorsOf p root = [e]
        /\ unnamedValues e = [VString "a"; VString "b c"])
    /\ (exists root p e,
        parse env ample ("/cap " ++ quotedA_quotedB_c) verify
          (Some strictly, Some false) debug newParser = Ok root p
        /\ executorsOf p root = [e]
        /\ unnamedValues e
           = [VString "a"; VString (Js.quote ++ "b" ++ Js.quote ++ "c")]).
Proof.
  intros env two cap verify strictly debug Htwo Hn2 Hs2 Hc2 Hcap Hn1 Hs1 Hc1.
  destruct two as [n2 s2 c2 r2], cap as [n1 s1 c1 r1];
    cbn in Hn2, Hs2, Hc2, Hn1, Hs1, Hc1; subst.
  destruct n1 as [|n1]; [congruence |].
  registered Htwo. registered_also Hcap.
  repeat split.
  - do 2 eexists; split; [vm_compute; reflexivity | split; reflexivity].
  - destruct verify, strictly, debug, r2;
      (do 3 eexists; split; [vm_compute; reflexivity | repeat split]).
  - destruct verify, strictly, debug, r1;
      (do 3 eexists; split; [vm_compute; reflexivity | repeat split]).
  - destruct verify, strictly, debug, r1;
      (do 3 eexists; split; [vm_compute; reflexivity | repeat split]).
Qed.

Lemma C5_split_unnamed_arguments_witness :
  (commands exampleEnv "two" = Some (mkCommand 2 true None false)
   /\ commands exampleEnv "cap" = Some (mkCommand 2 true (Some 1%nat) false))
  /\ exists root p e,
       parse exampleEnv ample ("/cap " ++ quotedA_b_c) true
         (Some false, Some false) false newParser = Ok root p
       /\ executorsOf p root = [e]
       /\ unnamedValues e = [VString "a"; VString "b c"].
Proof.
  split; [split; reflexivity |].
  exact (proj1 (proj2 (proj2
    (C5_split_unnamed_arguments exampleEnv
       (mkCommand 2 true None false) (mkCommand 2 true (Some 1%nat) false)
       true false false eq_refl eq_refl eq_refl eq_refl eq_refl
       ltac:(discriminate) eq_refl eq_refl)))).
Defined.



(* ===================================================================== *)
(** ** The closure parser: scopes, spans and flag snapshots *)
(* ===================================================================== *)

(** C10.  A call of the closure parser that returns, for the root or a
    nested closure, leaves the current scope as it was at the call; the
    scope of the closure it returns is a child of that scope; and the
    current closure is the caller's again whenever the caller had one
    (without one, it is the closure returned). *)
Theorem C10_closure_parser_restores_scope :
  forall (env : Env) (fuel : nat) (isRoot : bool) (p : Parser) (cl : nat)
         (q : Parser),
    parseClosure env fuel isRoot p = Ok cl q ->
    scope q = scope p
    /\ (exists c s,
          nth_error (closures q) cl = Some c
          /\ nth_error (scopes q) (Closure.scope c) = Some s
          /\ Scope.parent s = scope p)
    /\ (forall o, closure p = Some o -> closure q = Some o)
    /\ (closure p = None -> closure q = Some cl).
Proof.
  intros env fuel isRoot p cl q H.
  apply parseClosure_run in H as [_ _ Hs Hc _ Hch _ _ _ _ _ _ _ _ _].
  repeat split; auto.
  - intros o Ho. rewrite Hc, Ho. reflexivity.
  - intros Ho. rewrite Hc, Ho. reflexivity.
Qed.

Lemma C10_closure_parser_restores_scope_witness :
  exists cl q,
    parseClosure exampleEnv ample false
      (atRoot "{: /echo a :}" true (mkFlags false false)) = Ok cl q
    /\ scope q = Some O.
Proof.
  do 2 eexists.
  assert (H : parseClosure exampleEnv ample false
                (atRoot "{: /echo a :}" true (mkFlags false false))
              = Ok _ _) by (vm_compute; reflexivity).
  split; [exact H |].
  exact (proj1 (C10_closure_parser_restores_scope _ _ _ _ _ _ H)).
Defined.

(** The claim about the closure-span index speaks of inputs whose
    closure markers are balanced: every [:}] closes an open [{:] and
    none stays open. *)
Fixpoint markerDepth (s : string) (depth : nat) : option nat :=
  match s with
  | String "{" (String ":" r) => markerDepth r (S depth)
  | String ":" (String "}" r) =>
      match depth with
      | S d => markerDepth r d
      | O => None
      end
  | String _ r => markerDepth r depth
  | EmptyString => Some depth
  end.

Definition balancedMarkers (txt : string) : bool :=
  match markerDepth txt O with
  | Some O => true
  | _ => false
  end.

(** C6, as stated, fails on the empty input: its markers are balanced
    and the parse succeeds, but the one entry of the index, the root's,
    starts at 1 and ends at -1. *)
Lemma C6_empty_input_counterexample :
  balancedMarkers EmptyString = true
  /\ exists root q,
       parse exampleEnv ample EmptyString true (None, None) false newParser
       = Ok root q
       /\ closureIndex q = [Span.mk 1 (Some (-1))]
       /\ -1 < 1.
Proof.
  split; [reflexivity |].
  do 2 eexists. split; [vm_compute; reflexivity |].
  split; [reflexivity | lia].
Qed.

(** C6, amended.  After a successful parse the closure-span index holds
    exactly one entry per closure the parse created, the root included.
    The entry of every nested closure has its end at or after its start.
    The entry of the root runs from 1 to one before the final cursor,
    which is at or behind the end of the text: its end is at or after
    its start as soon as the input has two characters. *)
Theorem C6_closure_span_index :
  forall (env : Env) (fuel : nat) (txt : string) (verify : bool)
         (given : option bool * option bool) (debug : bool)
         (p0 : Parser) (root : nat) (q : Parser),
    parse env fuel txt verify given debug p0 = Ok root q ->
    (List.length (closureIndex q) + List.length (closures p0)
     = List.length (closures q))%nat
    /\ nth_error (closureIndex q) O = Some (Span.mk 1 (Some (index q - 1)))
    /\ Js.len txt <= index q
    /\ (forall k s, (0 < k)%nat -> nth_error (closureIndex q) k = Some s ->
          closedSpan s)
    /\ (2 <= Js.len txt ->
        forall s, In s (closureIndex q) -> closedSpan s).
Proof.
  intros env fuel txt verify given debug p0 root q H.
  unfold parse in H. cbn [bind modify drawUuid] in H.
  apply parseClosure_run in H
    as [Ht _ _ _ _ _ _ _ _ Hb _ Hown Hnew Hroot _].
  run_fields Ht. run_fields Hb. run_fields Hown. run_fields Hnew.
  run_fields Hroot. cbn [List.length] in Hb, Hown, Hnew.
  specialize (Hroot eq_refl). rewrite Ht in Hroot.
  assert (Hnested : forall k s, (0 < k)%nat ->
            nth_error (closureIndex q) k = Some s -> closedSpan s)
    by (intros k s Hk; apply Hnew; exact Hk).
  repeat split; auto.
  - lia.
  - intros Hlen s Hin. apply In_nth_error in Hin as (k & Hk).
    destruct k as [|k]; [| apply (Hnested (S k)); [lia | exact Hk]].
    rewrite Hown in Hk. inversion Hk; subst s.
    eexists. split; [reflexivity |]. cbn. lia.
Qed.

Lemma C6_closure_span_index_witness :
  exists root q,
    parse exampleEnv ample "/echo {: /echo a :}" true (None, None) false
      newParser = Ok root q
    /\ (List.length (closureIndex q) + 0 = List.length (closures q))%nat.
Proof.
  do 2 eexists.
  assert (H : parse exampleEnv ample "/echo {: /echo a :}" true (None, None)
                false newParser = Ok _ _) by (vm_compute; reflexivity).
  split; [exact H |].
  exact (proj1 (C6_closure_span_index _ _ _ _ _ _ _ _ _ H)).
Defined.





(* ===================================================================== *)
(** ** Two parses that differ in the identifiers drawn *)
(* ===================================================================== *)

(** A closure without its parse context. *)
Definition eraseContext (c : Closure.t) : Closure.t :=
  Closure.mk (Closure.scope c) (Closure.argumentList c)
    (Closure.executorList c) (Closure.rawText c) (Closure.executeNow c)
    None (Closure.fullText c) (Closure.debugController c).

(** Two instances that agree on everything but the identifiers: the
    count of identifiers drawn, the parse context, and the parse context
    attached to each closure. *)
Record SameButIds (p1 p2 : Parser) : Prop := mkSameButIds {
  same_verify : verifyCommandNames p1 = verifyCommandNames p2;
  same_text : text p1 = text p2;
  same_index : index p1 = index p2;
  same_debug : debugController p1 = debugController p2;
  same_scope : scope p1 = scope p2;
  same_closure : closure p1 = closure p2;
  same_flags : flags p1 = flags p2;
  same_jumped : jumpedEscapeSequence p1 = jumpedEscapeSequence p2;
  same_closureIndex : closureIndex p1 = closureIndex p2;
  same_macroIndex : macroIndex p1 = macroIndex p2;
  same_commandIndex : commandIndex p1 = commandIndex p2;
  same_scopeIndex : scopeIndex p1 = scopeIndex p2;
  same_scopes : scopes p1 = scopes p2;
  same_closures :
    map eraseContext (closures p1) = map eraseContext (closures p2);
  same_executors : executors p1 = executors p2
}.

(** What a run does to the count of identifiers drawn: it does not go
    down, and under the condition [G] it stays. *)
Definition Draws (G : Prop) (p q : Parser) : Prop :=
  (uuidCount p <= uuidCount q)%nat /\ (G -> uuidCount q = uuidCount p).

Lemma Draws_refl G p : Draws G p p.
Proof. split; auto. Qed.

Lemma Draws_trans G p q r : Draws G p q -> Draws G q r -> Draws G p r.
Proof. intros [A B] [C D]. split; [lia |]. intros g. rewrite D, B; auto. Qed.

Lemma Draws_none G p q : uuidCount q = uuidCount p -> Draws G p q.
Proof. intros H. split; [lia | auto]. Qed.

Lemma draws_of_extends {A} (m : M A) :
  keeps Extends m -> keeps (Draws False) m.
Proof.
  intros H p a q E. apply H in E. split; [apply E | intros []].
Qed.

(** [sim G m1 m2]: under [G] the method [m1] draws no identifier, and a
    run of [m1] that returns without drawing an identifier is matched by
    [m2] from any instance that is the same but for the identifiers:
    same value, and instances the same but for the identifiers again. *)
Definition sim (G : Prop) {A} (m1 m2 : M A) : Prop :=
  keeps (Draws G) m1
  /\ forall p1 a q1 p2,
       m1 p1 = Ok a q1 -> uuidCount q1 = uuidCount p1 -> SameButIds p1 p2 ->
       exists q2, m2 p2 = Ok a q2 /\ SameButIds q1 q2.

(** The same for a step that never draws. *)
Definition stepwise {A} (m1 m2 : M A) : Prop :=
  forall p1 a q1,
    m1 p1 = Ok a q1 ->
    uuidCount q1 = uuidCount p1
    /\ forall p2, SameButIds p1 p2 ->
         exists q2, m2 p2 = Ok a q2 /\ SameButIds q1 q2.

Lemma sim_stepwise G {A} (m1 m2 : M A) : stepwise m1 m2 -> sim G m1 m2.
Proof.
  intros H. split.
  - intros p a q E. apply Draws_none. apply (H _ _ _ E).
  - intros p1 a q1 p2 E _ S. apply (H _ _ _ E). exact S.
Qed.

Lemma sim_weaken (G G' : Prop) {A} (m1 m2 : M A) :
  (G' -> G) -> sim G m1 m2 -> sim G' m1 m2.
Proof.
  intros HG [K H]. split; [| exact H].
  intros p a q E. destruct (K _ _ _ E) as [L N]. split; auto.
Qed.

Lemma sim_ret G {A} (a1 a2 : A) : a1 = a2 -> sim G (ret a1) (ret a2).
Proof.
  intros <-. apply sim_stepwise. intros p1 a q1 H. inversion H; subst.
  split; eauto.
Qed.

Lemma sim_gets G {A} (f : Parser -> A) :
  (forall p1 p2, SameButIds p1 p2 -> f p1 = f p2) ->
  sim G (gets f) (gets f).
Proof.
  intros Hf. apply sim_stepwise. intros p1 a q1 H. inversion H; subst.
  split; [reflexivity |]. intros p2 S. exists p2.
  unfold gets. rewrite (Hf _ _ S). auto.
Qed.

Lemma sim_throw G {A} e1 e2 : sim G (@throw A e1) (@throw A e2).
Proof. apply sim_stepwise. intros p1 a q1 H. discriminate. Qed.

Lemma sim_outOfFuel G {A} : sim G (@outOfFuel A) (@outOfFuel A).
Proof. apply sim_stepwise. intros p1 a q1 H. discriminate. Qed.

Lemma sim_bind G {A B} (m1 m2 : M A) (k1 k2 : A -> M B) :
  sim G m1 m2 -> (forall a, sim G (k1 a) (k2 a)) ->
  sim G (bind m1 k1) (bind m2 k2).
Proof.
  intros [Mm Sm] Hk. split.
  - apply keeps_bind;
      [apply Draws_trans | exact Mm | intros a; apply Hk].
  - intros p1 b q1 p2 H Hu S.
    apply bind_Ok in H as (a & p1' & H1 & H2).
    pose proof (proj1 (Mm _ _ _ H1)) as M1.
    pose proof (proj1 (proj1 (Hk a) _ _ _ H2)) as M2.
    destruct (Sm _ _ _ _ H1 ltac:(lia) S) as (p2' & E1 & S').
    destruct (proj2 (Hk a) _ _ _ _ H2 ltac:(lia) S') as (q2 & E2 & S'').
    exists q2. split; [| exact S'']. unfold bind. rewrite E1. exact E2.
Qed.

Lemma sim_while G {A} (n : nat) (c1 c2 : A -> M bool) (b1 b2 : A -> M A) :
  (forall a, sim G (c1 a) (c2 a)) -> (forall a, sim G (b1 a) (b2 a)) ->
  forall a, sim G (while n c1 b1 a) (while n c2 b2 a).
Proof.
  intros Hc Hb. induction n as [|n IH]; intros a; cbn [while].
  - apply sim_outOfFuel.
  - apply sim_bind; [apply Hc |]. intros [|].
    + apply sim_bind; [apply Hb | apply IH].
    + apply sim_ret. reflexivity.
Qed.

(** A step that computes its value and its instance from the fields of
    the instance. *)
Lemma sim_compute G {A} (g1 g2 : Parser -> A) (h1 h2 : Parser -> Parser) :
  (forall p, uuidCount (h1 p) = uuidCount p) ->
  (forall p1 p2, SameButIds p1 p2 ->
     g1 p1 = g2 p2 /\ SameButIds (h1 p1) (h2 p2)) ->
  sim G (fun p => Ok (g1 p) (h1 p)) (fun p => Ok (g2 p) (h2 p)).
Proof.
  intros Hu Hs. apply sim_stepwise. intros p1 a q1 H. inversion H; subst.
  split; [apply Hu |]. intros p2 S.
  destruct (Hs _ _ S) as (-> & S'). eauto.
Qed.

Lemma sim_modify G (h : Parser -> Parser) :
  (forall p, uuidCount (h p) = uuidCount p) ->
  (forall p1 p2, SameButIds p1 p2 -> SameButIds (h p1) (h p2)) ->
  sim G (modify h) (modify h).
Proof.
  intros Hu Hs. apply (sim_compute G (fun _ => tt) (fun _ => tt) h h); auto.
Qed.

(** Drawing an identifier is what the runs compared here do not do. *)
Lemma sim_drawUuid env1 env2 : sim False (drawUuid env1) (drawUuid env2).
Proof.
  split; [apply draws_of_extends, ext_drawUuid |].
  intros p1 a q1 p2 H Hu. inversion H; subst. cbn in Hu. lia.
Qed.

(** *** Stores under erasure *)

Lemma map_updNth_compat {A B} (e : A -> B) (g1 g2 : A -> A) n l1 l2 :
  (forall c1 c2, e c1 = e c2 -> e (g1 c1) = e (g2 c2)) ->
  map e l1 = map e l2 -> map e (updNth n g1 l1) = map e (updNth n g2 l2).
Proof.
  intros Hg. revert n l2.
  induction l1 as [|x l1 IH]; intros n [|y l2] H; try discriminate.
  - destruct n; reflexivity.
  - cbn in H. inversion H as [[Hx Hl]].
    destruct n as [|n]; cbn; f_equal; auto.
Qed.

Lemma same_closures_length p1 p2 :
  SameButIds p1 p2 ->
  List.length (closures p1) = List.length (closures p2).
Proof.
  intros S. pose proof (f_equal (@List.length _) (same_closures _ _ S)) as H.
  rewrite !length_map in H. exact H.
Qed.

Lemma same_closure_at p1 p2 r c1 :
  SameButIds p1 p2 -> nth_error (closures p1) r = Some c1 ->
  exists c2, nth_error (closures p2) r = Some c2
             /\ eraseContext c1 = eraseContext c2.
Proof.
  intros S H.
  pose proof (f_equal (fun l => nth_error l r) (same_closures _ _ S)) as E.
  cbv beta in E. rewrite !nth_error_map, H in E.
  destruct (nth_error (closures p2) r) as [c2|]; [| discriminate].
  exists c2. split; [reflexivity |].
  exact (f_equal (fun o => match o with
                           | Some x => x
                           | None => eraseContext c1
                           end) E).
Qed.

(** The way two instances that are the same but for the identifiers
    stay so under a common update of their fields. *)
Ltac same :=
  let S := fresh "S" in
  intros ? ? S;
  pose proof (same_closures_length _ _ S);
  destruct S; constructor; cbn;
  rewrite ?map_app; cbn; try congruence;
  try (apply map_updNth_compat;
       [intros [] [] E; inversion E; subst; reflexivity | assumption]).

(** What the methods read of the instance is the same in both. *)
Ltac obs :=
  let S := fresh "S" in
  intros ? ? S;
  unfold endOfText, atEnd, nothingAhead, spaceHere, wordHere, strict,
    namedArgumentAhead, escapeOffset, char, ahead, behind;
  rewrite ?(same_text _ _ S), ?(same_index _ _ S), ?(same_flags _ _ S),
    ?(same_jumped _ _ S), ?(same_verify _ _ S), ?(same_scope _ _ S),
    ?(same_closure _ _ S), ?(same_debug _ _ S), ?(same_closureIndex _ _ S);
  reflexivity.

Lemma sim_deref_scopes G r : sim G (deref scopes r) (deref scopes r).
Proof.
  apply sim_stepwise. intros p1 a q1 H. unfold deref in *.
  destruct r as [n|]; [| discriminate].
  destruct (nth_error (scopes p1) n) eqn:E; inversion H; subst.
  split; [reflexivity |]. intros p2 S.
  rewrite <- (same_scopes _ _ S), E. eauto.
Qed.

Lemma sim_deref_executors G r :
  sim G (deref executors r) (deref executors r).
Proof.
  apply sim_stepwise. intros p1 a q1 H. unfold deref in *.
  destruct r as [n|]; [| discriminate].
  destruct (nth_error (executors p1) n) eqn:E; inversion H; subst.
  split; [reflexivity |]. intros p2 S.
  rewrite <- (same_executors _ _ S), E. eauto.
Qed.

Lemma sim_newScope G par : sim G (newScope par) (newScope par).
Proof.
  unfold newScope. apply sim_compute; [reflexivity |]. split;
    [cbv beta; rewrite (same_scopes _ _ H); reflexivity
    | revert p1 p2 H; same].
Qed.

Lemma sim_newClosureEntry G sc :
  sim G (fun p => Ok (List.length (closures p))
                     (setClosures (closures p ++ [Closure.new sc])%list p))
        (fun p => Ok (List.length (closures p))
                     (setClosures (closures p ++ [Closure.new sc])%list p)).
Proof.
  apply sim_compute; [reflexivity |]. split;
    [apply same_closures_length; assumption | revert p1 p2 H; same].
Qed.

Lemma sim_newExecutor G c st : sim G (newExecutor c st) (newExecutor c st).
Proof.
  unfold newExecutor. apply sim_compute; [reflexivity |]. split;
    [cbv beta; rewrite (same_executors _ _ H); reflexivity
    | revert p1 p2 H; same].
Qed.

Lemma sim_modifyScope G r f : sim G (modifyScope r f) (modifyScope r f).
Proof. apply sim_modify; [reflexivity | same]. Qed.

Lemma sim_modifyExec G r f : sim G (modifyExec r f) (modifyExec r f).
Proof. apply sim_modify; [reflexivity | same]. Qed.

Lemma sim_modifyClosure G r f :
  (forall c1 c2, eraseContext c1 = eraseContext c2 ->
                 eraseContext (f c1) = eraseContext (f c2)) ->
  sim G (modifyClosure r f) (modifyClosure r f).
Proof.
  intros Hf. apply sim_modify; [reflexivity |].
  intros p1 p2 S. destruct S; constructor; cbn; try congruence.
  apply map_updNth_compat; assumption.
Qed.

Lemma sim_initClosure G r : sim G (initClosure r) (initClosure r).
Proof.
  apply sim_modify; [reflexivity |].
  intros p1 p2 S. destruct S; constructor; cbn; try congruence.
  apply map_updNth_compat; [| assumption].
  intros [] [] E. inversion E; subst.
  unfold eraseContext, Closure.init. cbn. congruence.
Qed.

Lemma sim_getClosureScope G r :
  sim G (getClosureScope r) (getClosureScope r).
Proof.
  apply sim_stepwise. intros p1 a q1 H.
  unfold getClosureScope, deref, bind, ret in *.
  destruct (nth_error (closures p1) r) as [c1|] eqn:E1; [| discriminate].
  inversion H; subst. split; [reflexivity |]. intros p2 S.
  destruct (same_closure_at _ _ _ _ S E1) as (c2 & E2 & Ec).
  rewrite E2. exists p2. split; [| assumption].
  f_equal. exact (f_equal Closure.scope (eq_sym Ec)).
Qed.

Lemma sim_pushToCurrentClosure G e :
  sim G (pushToCurrentClosure e) (pushToCurrentClosure e).
Proof.
  apply sim_stepwise. intros p1 a q1 H.
  unfold pushToCurrentClosure, deref, bind, gets, ret in *.
  destruct (closure p1) as [r|] eqn:Ec1; [| discriminate].
  destruct (nth_error (closures p1) r) as [c1|] eqn:E1; [| discriminate].
  inversion H; subst. split; [reflexivity |]. intros p2 S.
  rewrite <- (same_closure _ _ S), Ec1.
  destruct (same_closure_at _ _ _ _ S E1) as (c2 & E2 & Ec).
  rewrite E2. eexists. split; [reflexivity |].
  destruct S; constructor; cbn; try congruence.
  apply map_updNth_compat; [| assumption].
  intros [] [] E. inversion E; subst. reflexivity.
Qed.

Lemma sim_take1 G : sim G take1 take1.
Proof.
  unfold take1. apply sim_compute; [reflexivity |].
  intros p1 p2 S. split; [revert p1 p2 S; obs | revert p1 p2 S; same].
Qed.

Lemma sim_take G n : sim G (take n) (take n).
Proof.
  destruct n as [|n]; [apply sim_take1 |].
  induction n as [|n IH]; [apply sim_take1 |].
  cbn [take]. apply sim_bind; [apply sim_take1 | intros _; exact IH].
Qed.

Lemma stepwise_testEscaped s o eo es :
  stepwise (testEscaped s o eo es) (testEscaped s o eo es).
Proof.
  intros p1 a q1 H. unfold testEscaped in *.
  assert (L : forall p2, SameButIds p1 p2 ->
            text p2 = text p1 /\ index p2 = index p1
            /\ jumpedEscapeSequence p2 = jumpedEscapeSequence p1)
    by (intros p2 []; auto).
  repeat match type of H with
         | (if ?c then _ else _) = _ => destruct c eqn:?
         end; inversion H; subst; (split; [reflexivity |]);
    intros p2 S; destruct (L _ S) as (Ht & Hi & Hj);
    rewrite ?Ht, ?Hi, ?Hj; clear Ht Hi Hj;
    repeat match goal with E : _ = _ |- _ => rewrite E; clear E end;
    eexists; (split; [reflexivity |]); try assumption;
    revert p1 p2 S H L; same.
Qed.

Lemma sim_testEscaped G s o eo es :
  sim G (testEscaped s o eo es) (testEscaped s o eo es).
Proof. apply sim_stepwise, stepwise_testEscaped. Qed.

Lemma sim_testSymbol G s o : sim G (testSymbol s o) (testSymbol s o).
Proof.
  apply sim_stepwise. intros p1 a q1 H.
  unfold testSymbol, testSymbolLooseyGoosey in *.
  assert (K : uuidCount q1 = uuidCount p1
              /\ forall p2, SameButIds p1 p2 ->
                   exists q2,
                     testEscaped s o (escapeOffset p1)
                       (if negb (strict p1)
                        then match Js.charAt (text p1)
                                     (index p1 + o + escapeOffset p1) with
                             | Some c => if Ascii.eqb c "\" then 1 else 0
                             | None => 0
                             end
                        else Js.leadingBackslashes
                               (Js.sliceFrom (text p1)
                                  (index p1 + o + escapeOffset p1))) p2
                     = Ok a q2 /\ SameButIds q1 q2).
  { destruct (negb (strict p1)); apply stepwise_testEscaped; exact H. }
  destruct K as [Ku K]. split; [exact Ku |]. intros p2 S.
  assert (Es : strict p2 = strict p1)
    by (symmetry; revert p1 p2 S H Ku K; obs).
  assert (Eo : escapeOffset p2 = escapeOffset p1)
    by (symmetry; revert p1 p2 S H Ku K Es; obs).
  rewrite Es, Eo, <- (same_text _ _ S), <- (same_index _ _ S).
  destruct (K _ S) as (q2 & E & S'). exists q2. split; [| exact S'].
  destruct (negb (strict p1)); exact E.
Qed.

(** Sequencing under three relations that compose. *)
Lemma keeps_seq (R1 R2 : Parser -> Parser -> Prop)
    {R3 : Parser -> Parser -> Prop} {A B} (m : M A) (k : A -> M B) :
  (forall p q r, R1 p q -> R2 q r -> R3 p r) ->
  keeps R1 m -> (forall a, keeps R2 (k a)) -> keeps R3 (bind m k).
Proof.
  intros HR Hm Hk p b q H. apply bind_Ok in H as (a & p' & H1 & H2).
  eapply HR; [eapply Hm | eapply Hk]; eassumption.
Qed.

Lemma drawUuid_count env p a q :
  drawUuid env p = Ok a q -> uuidCount q = S (uuidCount p).
Proof. intros H. inversion H; subst. reflexivity. Qed.

Lemma sim_indexMacros G env1 env2 o t :
  macroIdentifier env1 = macroIdentifier env2 ->
  sim G (indexMacros env1 o t) (indexMacros env2 o t).
Proof.
  intros Hm. unfold indexMacros.
  assert (E : forall n i, indexMacrosFrom n env1 o t i
                          = indexMacrosFrom n env2 o t i).
  { induction n as [|n IH]; intros i; cbn [indexMacrosFrom];
      [reflexivity |].
    rewrite Hm, !IH. reflexivity. }
  rewrite E. apply sim_modify; [reflexivity | same].
Qed.

Lemma sim_pushCommandIndex G c :
  sim G (pushCommandIndex c) (pushCommandIndex c).
Proof. apply sim_modify; [reflexivity | same]. Qed.

Lemma sim_setJumped G b :
  sim G (modify (setJumpedEscapeSequence b))
        (modify (setJumpedEscapeSequence b)).
Proof. apply sim_modify; [reflexivity | same]. Qed.

Lemma sim_setFlags G f : sim G (modify (setFlags f)) (modify (setFlags f)).
Proof. apply sim_modify; [reflexivity | same]. Qed.

Lemma sim_setScope G s : sim G (modify (setScope s)) (modify (setScope s)).
Proof. apply sim_modify; [reflexivity | same]. Qed.

Lemma sim_setClosure G c :
  sim G (modify (setClosure c)) (modify (setClosure c)).
Proof. apply sim_modify; [reflexivity | same]. Qed.

Create HintDb sim.
#[local] Hint Resolve sim_throw sim_outOfFuel sim_drawUuid sim_deref_scopes
  sim_deref_executors sim_newScope sim_newExecutor sim_modifyScope
  sim_modifyExec sim_initClosure sim_getClosureScope sim_pushToCurrentClosure
  sim_take1 sim_take sim_testEscaped sim_testSymbol sim_pushCommandIndex
  sim_setJumped sim_setFlags sim_setScope sim_setClosure : sim.
#[local] Hint Extern 1 (sim _ (modifyClosure _ _) (modifyClosure _ _)) =>
  apply sim_modifyClosure; intros [] [] E; inversion E; subst; reflexivity
  : sim.

(** Walk through two runs of a method in step. *)
Ltac sim_step :=
  lazymatch goal with
  | |- sim _ (bind _ _) (bind _ _) => apply sim_bind; [| intro]
  | |- sim _ (while _ _ _ _) (while _ _ _ _) => apply sim_while; intro
  | |- sim _ (if ?b then _ else _) _ => destruct b
  | |- sim _ (match ?x with _ => _ end) _ => destruct x
  | |- sim _ (ret _) (ret _) => apply sim_ret; reflexivity
  | |- sim _ (gets _) (gets _) => apply sim_gets; obs
  | |- sim _ _ _ => solve [auto with sim]
  end.
Ltac sim_walk := repeat sim_step.

Lemma sim_discardWhitespace G : sim G discardWhitespace discardWhitespace.
Proof. unfold discardWhitespace. sim_walk. Qed.
#[local] Hint Resolve sim_discardWhitespace : sim.

Lemma sim_getScopeParent G r : sim G (getScopeParent r) (getScopeParent r).
Proof. unfold getScopeParent. sim_walk. Qed.

Lemma sim_getExec G r : sim G (getExec r) (getExec r).
Proof. unfold getExec. sim_walk. Qed.

Lemma sim_pushVariableName G v :
  sim G (pushVariableName v) (pushVariableName v).
Proof. unfold pushVariableName. sim_walk. Qed.

Lemma sim_pushScopeIndex G : sim G pushScopeIndex pushScopeIndex.
Proof.
  unfold pushScopeIndex. sim_walk. apply sim_modify; [reflexivity | same].
Qed.
#[local] Hint Resolve sim_getScopeParent sim_getExec sim_pushVariableName
  sim_pushScopeIndex : sim.

(** *** The methods in step, under two identifier generators *)

Section TwoRuns.

Variable registry : string -> option SlashCommand.
Variables uuid1 uuid2 : nat -> string.
Variable engine : bool.
Variable ambient : option bool * option bool.
Variable isTrue : string -> bool.
Variable isFalse : Value -> bool.
Variable closureText : string.
Variable identifier : string -> string.

Local Abbreviation env1 :=
  (mkEnv registry uuid1 engine ambient isTrue isFalse closureText identifier).
Local Abbreviation env2 :=
  (mkEnv registry uuid2 engine ambient isTrue isFalse closureText identifier).

(** Under the experimental macro engine nothing is rewritten, so no
    identifier is drawn. *)
Local Abbreviation G := (engine = true).

Lemma sim_indexMacros' o t :
  sim G (indexMacros env1 o t) (indexMacros env2 o t).
Proof. apply sim_indexMacros. reflexivity. Qed.
#[local] Hint Resolve sim_indexMacros' : sim.

Lemma sim_toStringOf v : sim G (toStringOf env1 v) (toStringOf env2 v).
Proof. unfold toStringOf. sim_walk. Qed.
#[local] Hint Resolve sim_toStringOf : sim.

(** A rewrite of a legacy getter draws identifiers: the runs compared
    here perform none. *)
Lemma rewriteGetvar_draws env l c n i m :
  keeps (fun p q => (uuidCount p < uuidCount q)%nat)
    (rewriteGetvar env l c n i m).
Proof.
  unfold rewriteGetvar.
  apply (keeps_seq Extends (fun p q => (uuidCount p < uuidCount q)%nat));
    [intros p q r E L; apply ext_uuid in E; lia | auto with keeps |].
  intros i0.
  apply (keeps_seq (fun p q => (uuidCount p < uuidCount q)%nat) Extends).
  - intros p q r L E. apply ext_uuid in E. lia.
  - intros p a q H. apply drawUuid_count in H. lia.
  - intros u. keeps_walk.
Qed.

Lemma sim_rewriteGetvar l c n i m :
  sim False (rewriteGetvar env1 l c n i m) (rewriteGetvar env2 l c n i m).
Proof.
  split; [apply draws_of_extends, ext_rewriteGetvar |].
  intros p1 a q1 p2 H Hu S. apply rewriteGetvar_draws in H. lia.
Qed.
#[local] Hint Resolve sim_rewriteGetvar : sim.

Lemma sim_replaceGetvarFrom l s :
  forall skip idx,
    sim False (replaceGetvarFrom env1 l s skip idx)
              (replaceGetvarFrom env2 l s skip idx).
Proof.
  induction s as [|c s IH]; intros skip idx; cbn [replaceGetvarFrom].
  - sim_walk.
  - destruct skip; [| apply IH].
    destruct (matchGetvar (String c s)) as [[[cmd name] mlen]|];
      sim_walk; apply IH.
Qed.
#[local] Hint Resolve sim_replaceGetvarFrom : sim.

Lemma sim_replaceGetvar v : sim G (replaceGetvar env1 v) (replaceGetvar env2 v).
Proof.
  unfold replaceGetvar. cbn [experimental_macro_engine].
  pose proof (sim_replaceGetvarFrom (Js.len v) v 0 0) as H.
  destruct engine; [sim_walk |].
  apply (sim_weaken False); [discriminate | exact H].
Qed.
#[local] Hint Resolve sim_replaceGetvar : sim.

Lemma sim_replaceIfFlag v : sim G (replaceIfFlag env1 v) (replaceIfFlag env2 v).
Proof. unfold replaceIfFlag. sim_walk. Qed.
#[local] Hint Resolve sim_replaceIfFlag : sim.

Lemma sim_testClosure : sim G testClosure testClosure.
Proof. unfold testClosure. sim_walk. Qed.

Lemma sim_testClosureEnd : sim G testClosureEnd testClosureEnd.
Proof. unfold testClosureEnd. sim_walk. Qed.
#[local] Hint Resolve sim_testClosure sim_testClosureEnd : sim.

Lemma sim_testCommandEnd : sim G testCommandEnd testCommandEnd.
Proof. unfold testCommandEnd. sim_walk. Qed.
#[local] Hint Resolve sim_testCommandEnd : sim.

Lemma sim_testQuotedValue : sim G testQuotedValue testQuotedValue.
Proof. unfold testQuotedValue. sim_walk. Qed.

Lemma sim_testQuotedValueEnd : sim G testQuotedValueEnd testQuotedValueEnd.
Proof. unfold testQuotedValueEnd. sim_walk. Qed.

Lemma sim_testListValue : sim G testListValue testListValue.
Proof. unfold testListValue. sim_walk. Qed.

Lemma sim_testListValueEnd : sim G testListValueEnd testListValueEnd.
Proof. unfold testListValueEnd. sim_walk. Qed.

Lemma sim_testValue : sim G testValue testValue.
Proof. unfold testValue. sim_walk. Qed.

Lemma sim_testValueEnd : sim G testValueEnd testValueEnd.
Proof. unfold testValueEnd. sim_walk. Qed.

Lemma sim_takeEscaped : sim G takeEscaped takeEscaped.
Proof. unfold takeEscaped. sim_walk. Qed.

Lemma sim_testNamedArgument : sim G testNamedArgument testNamedArgument.
Proof. unfold testNamedArgument. sim_walk. Qed.

Lemma sim_testUnnamedArgument : sim G testUnnamedArgument testUnnamedArgument.
Proof. unfold testUnnamedArgument. sim_walk. Qed.

Lemma sim_testUnnamedArgumentEnd :
  sim G testUnnamedArgumentEnd testUnnamedArgumentEnd.
Proof. unfold testUnnamedArgumentEnd. sim_walk. Qed.

#[local] Hint Resolve sim_testQuotedValue sim_testQuotedValueEnd
  sim_testListValue sim_testListValueEnd sim_testValue sim_testValueEnd
  sim_takeEscaped sim_testNamedArgument sim_testUnnamedArgument
  sim_testUnnamedArgumentEnd : sim.

Lemma sim_testBreakPoint : sim G testBreakPoint testBreakPoint.
Proof. unfold testBreakPoint. sim_walk. Qed.
Lemma sim_testBreak : sim G testBreak testBreak.
Proof. unfold testBreak. sim_walk. Qed.
Lemma sim_testBlockComment : sim G testBlockComment testBlockComment.
Proof. unfold testBlockComment. sim_walk. Qed.
Lemma sim_testBlockCommentEnd : sim G testBlockCommentEnd testBlockCommentEnd.
Proof. unfold testBlockCommentEnd. sim_walk. Qed.
Lemma sim_testComment : sim G testComment testComment.
Proof. unfold testComment. sim_walk. Qed.
Lemma sim_testCommentEnd : sim G testCommentEnd testCommentEnd.
Proof. unfold testCommentEnd. sim_walk. Qed.
Lemma sim_testParserFlag : sim G testParserFlag testParserFlag.
Proof. unfold testParserFlag. sim_walk. Qed.
Lemma sim_testRunShorthand : sim G testRunShorthand testRunShorthand.
Proof. unfold testRunShorthand. sim_walk. Qed.
Lemma sim_testRunShorthandEnd : sim G testRunShorthandEnd testRunShorthandEnd.
Proof. unfold testRunShorthandEnd. sim_walk. Qed.
Lemma sim_testCommand : sim G testCommand testCommand.
Proof. unfold testCommand. sim_walk. Qed.

#[local] Hint Resolve sim_testBreakPoint sim_testBreak sim_testBlockComment
  sim_testBlockCommentEnd sim_testComment sim_testCommentEnd
  sim_testParserFlag sim_testRunShorthand sim_testRunShorthandEnd
  sim_testCommand : sim.

Variable fuel : nat.
Variables rec1 rec2 : bool -> M nat.
Hypothesis rec_sim : forall b, sim G (rec1 b) (rec2 b).
#[local] Hint Resolve rec_sim : sim.

Lemma sim_takeUntil t1 t2 v :
  sim G t1 t2 -> sim G (takeUntil fuel t1 v) (takeUntil fuel t2 v).
Proof. intros H. unfold takeUntil. sim_walk. Qed.
#[local] Hint Resolve sim_takeUntil : sim.

Lemma sim_parseQuotedValue :
  sim G (parseQuotedValue env1 fuel) (parseQuotedValue env2 fuel).
Proof. unfold parseQuotedValue. sim_walk. Qed.

Lemma sim_parseListValue :
  sim G (parseListValue env1 fuel) (parseListValue env2 fuel).
Proof. unfold parseListValue. sim_walk. Qed.

Lemma sim_parseValue : sim G (parseValue env1 fuel) (parseValue env2 fuel).
Proof. unfold parseValue. sim_walk. Qed.
#[local] Hint Resolve sim_parseQuotedValue sim_parseListValue sim_parseValue
  : sim.

Lemma sim_parseNamedArgument :
  sim G (parseNamedArgument env1 fuel rec1) (parseNamedArgument env2 fuel rec2).
Proof. unfold parseNamedArgument. sim_walk. Qed.
#[local] Hint Resolve sim_parseNamedArgument : sim.

Lemma sim_takeQuotedElement st :
  sim G (takeQuotedElement env1 fuel st) (takeQuotedElement env2 fuel st).
Proof. unfold takeQuotedElement. sim_walk. Qed.

Lemma sim_takeSplitElement m1 m2 q st :
  sim G m1 m2 -> sim G (takeSplitElement m1 q st) (takeSplitElement m2 q st).
Proof. intros H. unfold takeSplitElement. sim_walk. Qed.
#[local] Hint Resolve sim_takeQuotedElement sim_takeSplitElement : sim.

Lemma sim_unnamedStep sc st :
  sim G (unnamedStep env1 fuel rec1 sc st) (unnamedStep env2 fuel rec2 sc st).
Proof. unfold unnamedStep. sim_walk. Qed.
#[local] Hint Resolve sim_unnamedStep : sim.

Lemma sim_scanUnnamedArgument split sc raw :
  sim G (scanUnnamedArgument env1 fuel rec1 split sc raw)
      (scanUnnamedArgument env2 fuel rec2 split sc raw).
Proof. unfold scanUnnamedArgument. sim_walk. Qed.
#[local] Hint Resolve sim_scanUnnamedArgument : sim.

(** Both runs read the same registry and the same readers. *)
Ltac same_env :=
  cbn [commands experimental_macro_engine defaultFlags isTrueBoolean
       isFalseBoolean closureToString macroIdentifier].

Lemma sim_parseUnnamedArgument split sc raw :
  sim G (parseUnnamedArgument env1 fuel rec1 split sc raw)
      (parseUnnamedArgument env2 fuel rec2 split sc raw).
Proof. unfold parseUnnamedArgument. sim_walk. Qed.
#[local] Hint Resolve sim_parseUnnamedArgument : sim.

Lemma sim_parseBreakPoint : sim G (parseBreakPoint env1) (parseBreakPoint env2).
Proof. unfold parseBreakPoint. same_env. sim_walk. Qed.

Lemma sim_parseBreak :
  sim G (parseBreak env1 fuel rec1) (parseBreak env2 fuel rec2).
Proof. unfold parseBreak. same_env. sim_walk. Qed.

Lemma sim_parseBlockComment n :
  sim G (parseBlockComment env1 n) (parseBlockComment env2 n).
Proof.
  induction n as [|n IH]; cbn [parseBlockComment]; same_env; sim_walk.
Qed.

Lemma sim_parseComment :
  sim G (parseComment env1 fuel) (parseComment env2 fuel).
Proof. unfold parseComment. same_env. sim_walk. Qed.

Lemma sim_parseParserFlag :
  sim G (parseParserFlag env1 fuel rec1) (parseParserFlag env2 fuel rec2).
Proof. unfold parseParserFlag. same_env. sim_walk. Qed.

Lemma sim_parseRunShorthand :
  sim G (parseRunShorthand env1 fuel rec1) (parseRunShorthand env2 fuel rec2).
Proof. unfold parseRunShorthand. same_env. sim_walk. Qed.

Lemma sim_registerLet e : sim G (registerLet env1 e) (registerLet env2 e).
Proof. unfold registerLet. same_env. sim_walk. Qed.

Lemma sim_registerImport n :
  forall value,
    sim G (registerImport env1 n value) (registerImport env2 n value).
Proof.
  induction n as [|n IH]; intros value; cbn [registerImport]; [sim_walk |].
  destruct value as [|srcName [|kw [|dstName rest]]];
    unfold valueToString; same_env; sim_walk.
Qed.
#[local] Hint Resolve sim_parseBreakPoint sim_parseBreak
  sim_parseBlockComment sim_parseComment sim_parseParserFlag
  sim_parseRunShorthand sim_registerLet sim_registerImport : sim.

Lemma sim_parseCommand :
  sim G (parseCommand env1 fuel rec1) (parseCommand env2 fuel rec2).
Proof. unfold parseCommand. same_env. sim_walk. Qed.

Lemma sim_parsePipes b : sim G (parsePipes b) (parsePipes b).
Proof. unfold parsePipes. sim_walk. Qed.
#[local] Hint Resolve sim_parseCommand sim_parsePipes : sim.

Lemma sim_parseStatement cl b :
  sim G (parseStatement env1 fuel rec1 cl b)
        (parseStatement env2 fuel rec2 cl b).
Proof. unfold parseStatement. sim_walk. Qed.
#[local] Hint Resolve sim_parseStatement : sim.

Lemma sim_newClosure par : sim G (newClosure par) (newClosure par).
Proof.
  unfold newClosure. apply sim_bind; [apply sim_newScope |].
  intros sc. apply sim_newClosureEntry.
Qed.
#[local] Hint Resolve sim_newClosure : sim.

Lemma sim_openSpan :
  sim G (modify (fun p =>
         setClosureIndex
           (closureIndex p ++ [Span.mk (index p + 1) None])%list p))
      (modify (fun p =>
         setClosureIndex
           (closureIndex p ++ [Span.mk (index p + 1) None])%list p)).
Proof. apply sim_modify; [reflexivity | same]. Qed.

Lemma sim_closeSpan entry i :
  sim G (modify (fun p =>
         setClosureIndex
           (updNth entry (Span.setEnd (i - 1)) (closureIndex p)) p))
      (modify (fun p =>
         setClosureIndex
           (updNth entry (Span.setEnd (i - 1)) (closureIndex p)) p)).
Proof. apply sim_modify; [reflexivity | same]. Qed.
#[local] Hint Resolve sim_openSpan sim_closeSpan : sim.


End TwoRuns.







